(** * MediaController: a shallow embedding of [MediaController.py]

    The controller talks to MPRIS players over the D-Bus session bus,
    downloads artwork over HTTP and keeps three pieces of state: the
    registry of player proxies, the set of bus names that were playing at
    the last pause, and the name of the last active player.

    The embedding is a state-and-exception monad over an abstract world
    [W]: every call that leaves the process (bus, HTTP, file system) is a
    field of [Remote W] and is recorded, with its answer, in the list of
    events a computation emits.  Property reads are observations of the
    world; method calls, HTTP requests and file operations may change it. *)

From Stdlib Require Import Ascii String List Bool Arith Lia DecimalString.
From stdpp Require Import base option list strings gmap sets.

Set Warnings "-clear-no-such-hyp".

Local Open Scope string_scope.
Local Open Scope list_scope.

(** ** Python values that occur in the module *)

(** Exceptions the module can meet.  [BinasciiError] is a [ValueError]
    subclass in Python; no handler in the module names either of them. *)
Inductive exn :=
| DBusException | KeyError | IndexError | ValueError | BinasciiError
| AttributeError | RequestException | OSError.

Inductive res (A : Type) :=
| Ok (a : A)
| Raise (e : exn).
Arguments Ok {A} a.
Arguments Raise {A} e.

(** Methods of the interface [org.mpris.MediaPlayer2.Player]. *)
Inductive method := Pause | Play | Stop | Next | Previous.

(** The [Metadata] property, restricted to the three keys the module reads,
    each with the type the MPRIS specification gives it; [None] is an
    absent key. *)
Record metadata := {
  xesam_title : option string;
  xesam_artist : option (list string);
  mpris_artUrl : option string
}.

(** A proxy object returned by [session_bus.get_object]: the name it was
    asked for and the bus name it is bound to ([player.bus_name]). *)
Record proxy := {
  requested_name : string;
  bus_name : string
}.

(** What the module reads of a [requests.Response]: the [content-type]
    header ([None]: header absent) and the body ([None]: reading the
    streamed body fails). *)
Record response := {
  content_type : option string;
  content : option (list Byte.byte)
}.

(** An element of the list [thumbnail] builds: [None], a path, or a
    [io.BytesIO] object.  A [BytesIO] has no [__eq__]: two of them are equal
    only when they are the same object, hence the address. *)
Inductive thumb :=
| TNone
| TPath (path : string)
| TBytesIO (addr : nat) (data : list Byte.byte).

Global Instance exn_eq_dec : EqDecision exn.
Proof. solve_decision. Defined.
Global Instance method_eq_dec : EqDecision method.
Proof. solve_decision. Defined.
Global Instance byte_eq_dec : EqDecision Byte.byte := Byte.byte_eq_dec.
Global Instance metadata_eq_dec : EqDecision metadata.
Proof. solve_decision. Defined.
Global Instance proxy_eq_dec : EqDecision proxy.
Proof. solve_decision. Defined.
Global Instance response_eq_dec : EqDecision response.
Proof. solve_decision. Defined.
Global Instance thumb_eq_dec : EqDecision thumb.
Proof. solve_decision. Defined.

(** ** The outside world *)

(** Every interaction with the outside, with the answer it got.  On the
    bus, [None] (or [false]) is a [DBusException]; for [requests.get] it is
    a [RequestException]; for the file system it is an [OSError]. *)
Inductive event :=
| EListNames (r : option (list string))
| EGetObject (name : string) (r : option string)
| EGetIdentity (bus : string) (r : option string)
| EGetPlaybackStatus (bus : string) (r : option string)
| EGetMetadata (bus : string) (r : option metadata)
| ECall (bus : string) (m : method) (ok : bool)
| EHttpGet (url : string) (r : option response)
| EMakedirs (dir : string) (ok : bool)
| EOpen (path : string) (ok : bool)
| EWrite (path : string) (data : list Byte.byte) (ok : bool).

(** The collaborators of the module over a world [W].  The last three
    fields are what the module takes from outside its own file: two library
    functions that are not re-implemented here, and [gl.DATA_PATH]. *)
Record Remote (W : Type) := {
  list_names : W -> option (list string);
  get_object : W -> string -> option string;
  get_identity : W -> string -> option string;
  get_playback_status : W -> string -> option string;
  get_metadata : W -> string -> option metadata;
  call_method : W -> string -> method -> bool * W;
  http_get : W -> string -> option response * W;
  makedirs : W -> string -> bool * W;
  open_wb : W -> string -> bool * W;
  write_file : W -> string -> list Byte.byte -> bool * W;
  urlparse_path : string -> string;
  b64decode : string -> option (list Byte.byte);
  DATA_PATH : string
}.
Arguments list_names {W} _ _.
Arguments get_object {W} _ _ _.
Arguments get_identity {W} _ _ _.
Arguments get_playback_status {W} _ _ _.
Arguments get_metadata {W} _ _ _.
Arguments call_method {W} _ _ _ _.
Arguments http_get {W} _ _ _.
Arguments makedirs {W} _ _ _.
Arguments open_wb {W} _ _ _.
Arguments write_file {W} _ _ _ _.
Arguments urlparse_path {W} _ _.
Arguments b64decode {W} _ _.
Arguments DATA_PATH {W} _.

(** ** Strings and paths as Python has them *)

(** [s.startswith(p)] *)
Definition startswith (s p : string) : bool := String.prefix p s.

(** [s.endswith("/")] *)
Fixpoint ends_with_sep (s : string) : bool :=
  match s with
  | EmptyString => false
  | String c EmptyString => Ascii.eqb c "/"
  | String _ r => ends_with_sep r
  end.

(** [s.split(sep, maxsplit)] for a one-character separator. *)
Fixpoint py_split (sep : ascii) (maxsplit : nat) (s : string) : list string :=
  match s with
  | EmptyString => [EmptyString]
  | String c r =>
      match maxsplit with
      | O => [s]
      | S k =>
          if Ascii.eqb c sep then EmptyString :: py_split sep k r
          else match py_split sep maxsplit r with
               | h :: t => String c h :: t
               | [] => [String c EmptyString]
               end
      end
  end.

(** [s.split(sep)]: no bound on the number of splits. *)
Definition py_split_all (sep : ascii) (s : string) : list string :=
  py_split sep (String.length s) s.

(** [s.replace(old, new)] for a non-empty [old]: occurrences are found left
    to right and do not overlap.  [skip] counts the characters of a match
    still to be dropped. *)
Fixpoint py_replace_aux (old new : string) (skip : nat) (s : string) : string :=
  match s with
  | EmptyString => EmptyString
  | String c r =>
      match skip with
      | S k => py_replace_aux old new k r
      | O =>
          if String.prefix old s
          then new +:+ py_replace_aux old new (String.length old - 1) r
          else String c (py_replace_aux old new 0 r)
      end
  end.

Definition py_replace (old new s : string) : string := py_replace_aux old new 0 s.

(** [old in s] for a non-empty [old]. *)
Fixpoint occurs (old s : string) : bool :=
  match s with
  | EmptyString => false
  | String _ r => String.prefix old s || occurs old r
  end.

(** [p.rfind(c) + 1]: the index just after the last [c], 0 when there is
    none. *)
Fixpoint after_last (c : ascii) (p : string) : nat :=
  match p with
  | EmptyString => 0
  | String x r =>
      match after_last c r with
      | O => if Ascii.eqb x c then 1 else 0
      | S n => S (S n)
      end
  end.

Definition str_take (n : nat) (s : string) : string := String.substring 0 n s.
Definition str_drop (n : nat) (s : string) : string :=
  String.substring n (String.length s - n) s.

(** [s.rstrip("/")] *)
Fixpoint rstrip_sep (s : string) : string :=
  match s with
  | EmptyString => EmptyString
  | String c r =>
      match rstrip_sep r with
      | EmptyString => if Ascii.eqb c "/" then EmptyString else String c EmptyString
      | r' => String c r'
      end
  end.

(** [posixpath.basename] *)
Definition os_path_basename (p : string) : string := str_drop (after_last "/" p) p.

(** [posixpath.dirname] *)
Definition os_path_dirname (p : string) : string :=
  let head := str_take (after_last "/" p) p in
  match rstrip_sep head with
  | EmptyString => head
  | stripped => stripped
  end.

(** [posixpath.join] of two components. *)
Definition os_path_join (a b : string) : string :=
  if startswith b "/" then b
  else if Nat.eqb (String.length a) 0 || ends_with_sep a then a +:+ b
  else a +:+ "/" +:+ b.

(** Is some character of [s] other than a dot? *)
Fixpoint has_non_dot (s : string) : bool :=
  match s with
  | EmptyString => false
  | String c r => negb (Ascii.eqb c ".") || has_non_dot r
  end.

(** [posixpath.splitext(p)[0]]: the extension starts at the last dot of the
    last component, unless only dots come before it there. *)
Definition os_path_splitext_root (p : string) : string :=
  let sepIndex := after_last "/" p in
  let dotIndex := after_last "." p in
  if Nat.ltb sepIndex dotIndex
     && has_non_dot (String.substring sepIndex (dotIndex - 1 - sepIndex) p)
  then str_take (dotIndex - 1) p
  else p.

(** ** Compression of a result list *)

Section Compress.

Context {A : Type} `{EqDecision A}.

(** The inner function of [compress_list].  [len(set(iterable))] is the
    number of distinct elements. *)
Definition all_equal (iterable : list A) : bool :=
  if Nat.eqb (length (remove_dups iterable)) 0 then true
  else
    match iterable with
    | [] => false
    | first_element :: _ =>
        let first_element_occurrences :=
          fold_left (fun n element =>
                       if decide (element = first_element) then S n else n)
                    iterable 0 in
        Nat.eqb first_element_occurrences (length iterable)
    end.

(** [compress_list]; the result [None] is Python's [None]. *)
Definition compress_list (_list : list A) : option (list A) :=
  if Nat.eqb (length _list) 0 then None
  else if all_equal _list
       then match _list with
            | x :: _ => Some [x]
            | [] => None
            end
       else Some _list.

End Compress.

(** ** The controller and its monad *)

(** The fields of a [MediaController] instance.  [mpris_players] is [None]
    until [update_players] has assigned the attribute once. *)
Record MediaController := {
  _previously_playing : gset string;
  _last_active_player : option string;
  mpris_players : option (list proxy)
}.

(** Capacity of [functools.lru_cache] when used as a bare decorator. *)
Definition lru_maxsize : nat := 128.

Section Monad.

Context {W : Type}.

(** The state of the process: the controller, the cache [lru_cache] keeps
    for [get_web_thumnail] (most recently used first), the address of the
    next object to be allocated, and the world. *)
Record state := {
  self : MediaController;
  web_cache : list (string * option string);
  next_addr : nat;
  world : W
}.

(** A computation runs from a state to a result or an exception, a state
    and the events it emitted, oldest first. *)
Definition M (A : Type) : Type := state -> res A * state * list event.

Definition ret {A} (a : A) : M A := fun s => (Ok a, s, []).

Definition raise {A} (e : exn) : M A := fun s => (Raise e, s, []).

Definition bind {A B} (m : M A) (k : A -> M B) : M B :=
  fun s =>
    match m s with
    | (Ok a, s1, e1) => let '(r, s2, e2) := k a s1 in (r, s2, e1 ++ e2)
    | (Raise x, s1, e1) => (Raise x, s1, e1)
    end.

(** [try: m  except <the exceptions h answers>: ...]; what [m] did before
    it raised stays done. *)
Definition try_except {A} (m : M A) (h : exn -> option (M A)) : M A :=
  fun s =>
    match m s with
    | (Ok a, s1, e1) => (Ok a, s1, e1)
    | (Raise x, s1, e1) =>
        match h x with
        | Some k => let '(r, s2, e2) := k s1 in (r, s2, e1 ++ e2)
        | None => (Raise x, s1, e1)
        end
    end.

(** [for x in l: body], the local variables the body updates passed along
    as [acc]. *)
Fixpoint for_ {X S} (l : list X) (body : X -> S -> M S) (acc : S) : M S :=
  match l with
  | [] => ret acc
  | x :: rest => bind (body x acc) (fun acc1 => for_ rest body acc1)
  end.

(** The same loop, for a caller whose [except] is around the whole loop
    and which goes on with the local variables: it returns them as they
    were when the loop ended or an iteration raised. *)
Fixpoint for_partial {X S} (l : list X) (body : X -> S -> M S) (acc : S)
  : M (S * option exn) :=
  match l with
  | [] => ret (acc, None)
  | x :: rest =>
      fun s =>
        match body x acc s with
        | (Ok acc1, s1, e1) =>
            let '(r, s2, e2) := for_partial rest body acc1 s1 in (r, s2, e1 ++ e2)
        | (Raise ex, s1, e1) => (Ok (acc, Some ex), s1, e1)
        end
  end.

(** Handlers *)
Definition on_dbus {A} (k : M A) : exn -> option (M A) :=
  fun x => match x with DBusException => Some k | _ => None end.

Definition on_key_index_dbus {A} (k : M A) : exn -> option (M A) :=
  fun x =>
    match x with
    | KeyError | IndexError | DBusException => Some k
    | _ => None
    end.

Definition on_any {A} (k : M A) : exn -> option (M A) := fun _ => Some k.

Definition get_self : M MediaController := fun s => (Ok (self s), s, []).

Definition set_self (c : MediaController) : M unit :=
  fun s => (Ok tt, {| self := c; web_cache := web_cache s;
                      next_addr := next_addr s; world := world s |}, []).

Definition set_world (s : state) (w : W) : state :=
  {| self := self s; web_cache := web_cache s; next_addr := next_addr s; world := w |}.

Definition of_option {A} (o : option A) (e : exn) : res A :=
  match o with Some a => Ok a | None => Raise e end.

Definition of_bool (ok : bool) (e : exn) : res unit :=
  if ok then Ok tt else Raise e.

End Monad.

Arguments state W : clear implicits.
Arguments M W A : clear implicits.

Notation "x <- m ;; k" := (bind m (fun x => k))
  (at level 100, m at next level, right associativity).
Notation "m ;;; k" := (bind m (fun _ => k))
  (at level 100, right associativity).

Section Controller.

Context {W : Type} (env : Remote W).

(** *** The calls that leave the process *)

(** [session_bus.list_names()] *)
Definition bus_list_names : M W (list string) :=
  fun s => let r := list_names env (world s) in
           (of_option r DBusException, s, [EListNames r]).

(** [session_bus.get_object(i, '/org/mpris/MediaPlayer2')] *)
Definition bus_get_object (i : string) : M W proxy :=
  fun s => let r := get_object env (world s) i in
           (of_option ((fun b => {| requested_name := i; bus_name := b |}) <$> r)
                      DBusException, s, [EGetObject i r]).

(** [properties.Get('org.mpris.MediaPlayer2', 'Identity')] *)
Definition prop_identity (player : proxy) : M W string :=
  fun s => let r := get_identity env (world s) (bus_name player) in
           (of_option r DBusException, s, [EGetIdentity (bus_name player) r]).

(** [properties.Get('org.mpris.MediaPlayer2.Player', 'PlaybackStatus')] *)
Definition prop_playback_status (player : proxy) : M W string :=
  fun s => let r := get_playback_status env (world s) (bus_name player) in
           (of_option r DBusException, s, [EGetPlaybackStatus (bus_name player) r]).

(** [properties.Get('org.mpris.MediaPlayer2.Player', 'Metadata')] *)
Definition prop_metadata (player : proxy) : M W metadata :=
  fun s => let r := get_metadata env (world s) (bus_name player) in
           (of_option r DBusException, s, [EGetMetadata (bus_name player) r]).

(** [iface.Pause()], [iface.Play()], ... *)
Definition iface_call (iface : proxy) (m : method) : M W unit :=
  fun s => let '(ok, w) := call_method env (world s) (bus_name iface) m in
           (of_bool ok DBusException, set_world s w, [ECall (bus_name iface) m ok]).

(** [requests.get(url, stream=True)] *)
Definition requests_get (url : string) : M W response :=
  fun s => let '(r, w) := http_get env (world s) url in
           (of_option r RequestException, set_world s w, [EHttpGet url r]).

(** [os.makedirs(dir, exist_ok=True)] *)
Definition os_makedirs (dir : string) : M W unit :=
  fun s => let '(ok, w) := makedirs env (world s) dir in
           (of_bool ok OSError, set_world s w, [EMakedirs dir ok]).

(** [open(path, "wb")] *)
Definition open_for_writing (path : string) : M W unit :=
  fun s => let '(ok, w) := open_wb env (world s) path in
           (of_bool ok OSError, set_world s w, [EOpen path ok]).

(** [f.write(data)] *)
Definition file_write (path : string) (data : list Byte.byte) : M W unit :=
  fun s => let '(ok, w) := write_file env (world s) path data in
           (of_bool ok OSError, set_world s w, [EWrite path data ok]).

(** [io.BytesIO(data)]: a new object. *)
Definition new_BytesIO (data : list Byte.byte) : M W thumb :=
  fun s => (Ok (TBytesIO (next_addr s) data),
            {| self := self s; web_cache := web_cache s;
               next_addr := S (next_addr s); world := world s |}, []).

(** *** The registry *)

(** [str(i)[:22] == "org.mpris.MediaPlayer2"] *)
Definition is_mpris_name (i : string) : bool :=
  String.eqb (str_take 22 i) "org.mpris.MediaPlayer2".

Definition set_mpris_players (ps : list proxy) : M W unit :=
  c <- get_self ;;
  set_self {| _previously_playing := _previously_playing c;
              _last_active_player := _last_active_player c;
              mpris_players := Some ps |}.

(** [self.mpris_players], an [AttributeError] while it was never assigned. *)
Definition read_mpris_players : M W (list proxy) :=
  c <- get_self ;;
  match mpris_players c with
  | Some ps => ret ps
  | None => raise AttributeError
  end.

(** [update_players]: on any exception the method returns before the
    assignment. *)
Definition update_players : M W unit :=
  found <- try_except
    (names <- bus_list_names ;;
     mpris_players <- for_ names (fun i mpris_players =>
       if is_mpris_name i
       then p <- bus_get_object i ;; ret (mpris_players ++ [p])
       else ret mpris_players) [] ;;
     ret (Some mpris_players))
    (on_any (ret None)) ;;
  match found with
  | Some mpris_players => set_mpris_players mpris_players
  | None => ret tt
  end.

Definition _get_bus_name (player : proxy) : string := bus_name player.

Definition _get_playback_status (iface : proxy) : M W (option string) :=
  try_except (st <- prop_playback_status iface ;; ret (Some st))
             (on_dbus (ret None)).

(** [get_player_names]: the [try] is around the loop, so the first failure
    ends the loop and the names collected so far are returned. *)
Definition get_player_names (remove_duplicates : bool) : M W (list string) :=
  r <- try_except
    (players <- read_mpris_players ;;
     for_partial players (fun player names =>
       name <- prop_identity player ;;
       if remove_duplicates && bool_decide (name ∈ names)
       then ret names
       else ret (names ++ [name])) [])
    (on_any (ret ([], None))) ;;
  ret (fst r).

(** The loop of [get_active_player_name]; [Some name] is the [return] inside
    the loop. *)
Fixpoint active_player_scan (players : list proxy) : M W (option string) :=
  match players with
  | [] => ret None
  | player :: rest =>
      r <- try_except
        (st <- prop_playback_status player ;;
         if String.eqb st "Playing"
         then name <- prop_identity player ;;
              c <- get_self ;;
              set_self {| _previously_playing := _previously_playing c;
                          _last_active_player := Some name;
                          mpris_players := mpris_players c |} ;;;
              ret (Some name)
         else ret None)
        (on_dbus (ret None)) ;;
      match r with
      | Some name => ret (Some name)
      | None => active_player_scan rest
      end
  end.

Definition get_active_player_name : M W (option string) :=
  update_players ;;;
  players <- read_mpris_players ;;
  r <- active_player_scan players ;;
  match r with
  | Some name => ret (Some name)
  | None => c <- get_self ;; ret (_last_active_player c)
  end.

(** [player_name in [None, "", identity]] *)
Definition name_matches (player_name : option string) (identity : string) : bool :=
  match player_name with
  | None => true
  | Some n => String.eqb n "" || String.eqb n identity
  end.

Definition get_matching_ifaces (player_name : option string) : M W (list proxy) :=
  update_players ;;;
  players <- read_mpris_players ;;
  for_ players (fun player ifaces =>
    try_except
      (identity <- prop_identity player ;;
       if name_matches player_name identity
       then ret (ifaces ++ [player])
       else ret ifaces)
      (on_dbus (ret ifaces))) [].

Definition get_matching_players (player_name : option string)
  : M W (list (string * proxy)) :=
  update_players ;;;
  mpris_players <- read_mpris_players ;;
  for_ mpris_players (fun player players =>
    try_except
      (identity <- prop_identity player ;;
       if name_matches player_name identity
       then ret (players ++ [(_get_bus_name player, player)])
       else ret players)
      (on_dbus (ret players))) [].

(** *** Commands *)

Definition set_previously_playing (names : gset string) : M W unit :=
  c <- get_self ;;
  set_self {| _previously_playing := names;
              _last_active_player := _last_active_player c;
              mpris_players := mpris_players c |}.

(** One iteration of the loop of [pause] on the locals [status] and
    [currently_playing].  [_get_playback_status] absorbs its own
    [DBusException], so inside the [try] only [iface.Pause()] can raise, and
    by then the bus name has been added. *)
Definition pause_body (p : string * proxy) (acc : list bool * gset string)
  : M W (list bool * gset string) :=
  let '(bus_name, iface) := p in
  let '(status, currently_playing) := acc in
  playback_status <- _get_playback_status iface ;;
  let currently_playing :=
    if decide (playback_status = Some "Playing")
    then {[bus_name]} ∪ currently_playing
    else currently_playing in
  try_except
    (iface_call iface Pause ;;; ret (status ++ [true], currently_playing))
    (on_dbus (ret (status ++ [false], currently_playing))).

Definition pause (player_name : option string) : M W (option (list bool)) :=
  players <- get_matching_players player_name ;;
  r <- for_ players pause_body ([], ∅) ;;
  (if decide (snd r ≠ ∅) then set_previously_playing (snd r) else ret tt) ;;;
  ret (compress_list (fst r)).

Definition play_body (player_name : option string) (p : string * proxy)
  (status : list bool) : M W (list bool) :=
  let '(bus_name, iface) := p in
  try_except
    (c <- get_self ;;
     match player_name with
     | Some _ => iface_call iface Play ;;; ret (status ++ [true])
     | None =>
         if decide (_previously_playing c ≠ ∅)
         then if decide (bus_name ∈ _previously_playing c)
              then iface_call iface Play ;;; ret (status ++ [true])
              else ret (status ++ [true])
         else iface_call iface Play ;;; ret (status ++ [true])
     end)
    (on_dbus (ret (status ++ [false]))).

Definition play (player_name : option string) : M W (option (list bool)) :=
  players <- get_matching_players player_name ;;
  status <- for_ players (play_body player_name) [] ;;
  set_previously_playing ∅ ;;;
  ret (compress_list status).

(** The scan of [toggle]; [true] is the [break]. *)
Fixpoint toggle_scan (players : list (string * proxy)) : M W bool :=
  match players with
  | [] => ret false
  | (bus_name, iface) :: rest =>
      playback_status <- _get_playback_status iface ;;
      if decide (playback_status = Some "Playing")
      then ret true
      else toggle_scan rest
  end.

Definition toggle (player_name : option string) : M W (option (list bool)) :=
  players <- get_matching_players player_name ;;
  any_playing <- toggle_scan players ;;
  if any_playing then pause player_name else play player_name.

Definition stop (player_name : option string) : M W (option (list bool)) :=
  ifaces <- get_matching_ifaces player_name ;;
  status <- for_ ifaces (fun iface status =>
    try_except (iface_call iface Stop ;;; ret (status ++ [true]))
               (on_dbus (ret (status ++ [false])))) [] ;;
  ret (compress_list status).

Definition next (player_name : option string) : M W (option (list bool)) :=
  ifaces <- get_matching_ifaces player_name ;;
  status <- for_ ifaces (fun iface status =>
    try_except (iface_call iface Next ;;; ret (status ++ [true]))
               (on_dbus (ret (status ++ [false])))) [] ;;
  ret (compress_list status).

Definition previous (player_name : option string) : M W (option (list bool)) :=
  ifaces <- get_matching_ifaces player_name ;;
  status <- for_ ifaces (fun iface status =>
    try_except (iface_call iface Previous ;;; ret (status ++ [true]))
               (on_key_index_dbus (ret (status ++ [false])))) [] ;;
  ret (compress_list status).

(** *** Queries *)

Definition status (player_name : option string)
  : M W (option (list (option string))) :=
  ifaces <- get_matching_ifaces player_name ;;
  status <- for_ ifaces (fun iface status =>
    try_except (st <- prop_playback_status iface ;; ret (status ++ [Some st]))
               (on_key_index_dbus (ret (status ++ [None])))) [] ;;
  ret (compress_list status).

Definition title (player_name : option string)
  : M W (option (list (option string))) :=
  ifaces <- get_matching_ifaces player_name ;;
  titles <- for_ ifaces (fun iface titles =>
    try_except
      (metadata <- prop_metadata iface ;;
       match xesam_title metadata with
       | Some t => ret (titles ++ [Some t])
       | None => raise KeyError
       end)
      (on_key_index_dbus (ret (titles ++ [None])))) [] ;;
  ret (compress_list titles).

Definition artist (player_name : option string)
  : M W (option (list (option string))) :=
  ifaces <- get_matching_ifaces player_name ;;
  titles <- for_ ifaces (fun iface titles =>
    try_except
      (metadata <- prop_metadata iface ;;
       match xesam_artist metadata with
       | Some (a :: _) => ret (titles ++ [Some a])
       | Some [] => raise IndexError
       | None => raise KeyError
       end)
      (on_key_index_dbus (ret (titles ++ [None])))) [] ;;
  ret (compress_list titles).

(** *** Artwork *)

Definition get_file_name_from_url (url : string) : string :=
  os_path_basename (urlparse_path env url).

Definition on_request_exception {A} (k : M W A) : exn -> option (M W A) :=
  fun x => match x with RequestException => Some k | _ => None end.

Definition download_file (url path : string) (file_name : option string)
  : M W (option string) :=
  r <- try_except (response <- requests_get url ;; ret (Some response))
                  (on_request_exception (ret None)) ;;
  match r with
  | None => ret None
  | Some response =>
      let file_name :=
        match file_name with
        | None => get_file_name_from_url url
        | Some f => f
        end in
      let file_name := os_path_splitext_root file_name in
      header <- match content_type response with
                | Some h => ret h
                | None => raise KeyError
                end ;;
      extension <- match py_split_all "/" header with
                   | [_; extension] => ret extension
                   | _ => raise ValueError
                   end ;;
      let file_name := file_name +:+ "." +:+ extension in
      let path := os_path_join path file_name in
      (if negb (String.eqb (os_path_dirname path) "")
       then os_makedirs (os_path_dirname path)
       else ret tt) ;;;
      open_for_writing path ;;;
      data <- match content response with
              | Some d => ret d
              | None => raise RequestException
              end ;;
      file_write path data ;;;
      ret (Some path)
  end.

Definition get_web_cache : M W (list (string * option string)) :=
  fun s => (Ok (web_cache s), s, []).

Definition set_web_cache (c : list (string * option string)) : M W unit :=
  fun s => (Ok tt, {| self := self s; web_cache := c;
                      next_addr := next_addr s; world := world s |}, []).

Fixpoint cache_lookup (url : string) (c : list (string * option string))
  : option (option string) :=
  match c with
  | [] => None
  | (k, v) :: rest => if String.eqb k url then Some v else cache_lookup url rest
  end.

Definition cache_remove (url : string) (c : list (string * option string))
  : list (string * option string) :=
  List.filter (fun kv => negb (String.eqb (fst kv) url)) c.

(** [get_web_thumnail] under [@lru_cache]: a hit returns the stored result
    and makes the entry the most recent one; a miss runs the body and stores
    what it returns, after dropping the least recently used entry when the
    cache is full; nothing is stored when the body raises. *)
Definition get_web_thumnail (url : string) : M W (option string) :=
  c <- get_web_cache ;;
  match cache_lookup url c with
  | Some result => set_web_cache ((url, result) :: cache_remove url c) ;;; ret result
  | None =>
      let path := os_path_join (os_path_join (DATA_PATH env) "com_core447_MediaPlugin")
                               "cache" in
      result <- download_file url path None ;;
      c <- get_web_cache ;;
      set_web_cache ((url, result) ::
                     (if Nat.ltb (length c) lru_maxsize then c else removelast c)) ;;;
      ret result
  end.

(** The [data:] branch of [thumbnail]: [Some thumb] is the [continue] after
    the buffer was appended, [None] falls through. *)
Definition thumbnail_data_uri (path : string) : M W (option thumb) :=
  if startswith path "data:" then
    parts <- match py_split "," 1 path with
             | [header; data] => ret (header, data)
             | _ => raise ValueError
             end ;;
    encoding <- match py_split_all ";" (fst parts) with
                | _ :: encoding :: _ => ret encoding
                | _ => raise IndexError
                end ;;
    if String.eqb encoding "base64" then
      decoded <- match b64decode env (snd parts) with
                 | Some d => ret d
                 | None => raise BinasciiError
                 end ;;
      thumb <- new_BytesIO decoded ;;
      ret (Some thumb)
    else ret None
  else ret None.

(** One iteration of the loop of [thumbnail]: the value it appends. *)
Definition thumbnail_body (iface : proxy) : M W thumb :=
  try_except
    (metadata <- prop_metadata iface ;;
     match mpris_artUrl metadata with
     | None => ret TNone
     | Some art_url =>
         let path := art_url in
         if Nat.eqb (String.length path) 0 then ret TNone
         else
           inline <- thumbnail_data_uri path ;;
           match inline with
           | Some thumb => ret thumb
           | None =>
               path <- (if startswith path "https"
                        then get_web_thumnail path
                        else ret (Some path)) ;;
               match path with
               | None => ret TNone
               | Some path =>
                   if Nat.eqb (String.length path) 0 then ret TNone
                   else ret (TPath (py_replace "file://" "" path))
               end
           end
     end)
    (on_key_index_dbus (ret TNone)).

Definition thumbnail (player_name : option string) : M W (option (list thumb)) :=
  ifaces <- get_matching_ifaces player_name ;;
  thumbnails <- for_ ifaces (fun iface thumbnails =>
    t <- thumbnail_body iface ;; ret (thumbnails ++ [t])) [] ;;
  ret (compress_list thumbnails).

(** *** The public surface *)

(** [MediaController()]: the constructor. *)
Definition new_controller (w : W) : res unit * state W * list event :=
  update_players
    {| self := {| _previously_playing := ∅;
                  _last_active_player := None;
                  mpris_players := None |};
       web_cache := []; next_addr := 0; world := w |}.

Inductive op :=
| OpPause (player_name : option string)
| OpPlay (player_name : option string)
| OpToggle (player_name : option string)
| OpStop (player_name : option string)
| OpNext (player_name : option string)
| OpPrevious (player_name : option string)
| OpStatus (player_name : option string)
| OpTitle (player_name : option string)
| OpArtist (player_name : option string)
| OpThumbnail (player_name : option string)
| OpGetActivePlayerName
| OpGetPlayerNames (remove_duplicates : bool).

Inductive retval :=
| RFlags (r : option (list bool))
| RTexts (r : option (list (option string)))
| RThumbs (r : option (list thumb))
| RName (r : option string)
| RNames (r : list string).

Definition run_op (o : op) : M W retval :=
  match o with
  | OpPause n => r <- pause n ;; ret (RFlags r)
  | OpPlay n => r <- play n ;; ret (RFlags r)
  | OpToggle n => r <- toggle n ;; ret (RFlags r)
  | OpStop n => r <- stop n ;; ret (RFlags r)
  | OpNext n => r <- next n ;; ret (RFlags r)
  | OpPrevious n => r <- previous n ;; ret (RFlags r)
  | OpStatus n => r <- status n ;; ret (RTexts r)
  | OpTitle n => r <- title n ;; ret (RTexts r)
  | OpArtist n => r <- artist n ;; ret (RTexts r)
  | OpThumbnail n => r <- thumbnail n ;; ret (RThumbs r)
  | OpGetActivePlayerName => r <- get_active_player_name ;; ret (RName r)
  | OpGetPlayerNames d => r <- get_player_names d ;; ret (RNames r)
  end.

(** A caller that goes on after an operation raised: the state and the
    events of the whole sequence. *)
Fixpoint run_ops (ops : list op) (s : state W) : state W * list event :=
  match ops with
  | [] => (s, [])
  | o :: rest =>
      let '(_, s1, e1) := run_op o s in
      let '(s2, e2) := run_ops rest s1 in
      (s2, e1 ++ e2)
  end.

(** *** What a run lets one observe *)

(** The method calls among the events, in order. *)
Definition calls_of (evs : list event) : list (string * method) :=
  flat_map (fun e => match e with ECall bus m _ => [(bus, m)] | _ => [] end) evs.

(** The URLs requested over HTTP among the events, in order. *)
Definition downloads_of (evs : list event) : list string :=
  flat_map (fun e => match e with EHttpGet url _ => [url] | _ => [] end) evs.

(** Reads of the bus: they leave the world as it is. *)
Definition is_read (e : event) : bool :=
  match e with
  | EListNames _ | EGetObject _ _ | EGetIdentity _ _
  | EGetPlaybackStatus _ _ | EGetMetadata _ _ => true
  | _ => false
  end.

(** The events of a refresh of the registry. *)
Definition is_registry_event (e : event) : bool :=
  match e with
  | EListNames _ | EGetObject _ _ => true
  | _ => false
  end.

(** A state that differs from [s] in the registry only. *)
Definition with_registry (s : state W) (ps : option (list proxy)) : state W :=
  {| self := {| _previously_playing := _previously_playing (self s);
                _last_active_player := _last_active_player (self s);
                mpris_players := ps |};
     web_cache := web_cache s; next_addr := next_addr s; world := world s |}.

(** The players [update_players] finds in the world [w] ([None]: the
    refresh fails and assigns nothing), and the events of the refresh. *)
Definition bus_players (w : W) : option (list proxy) :=
  mpris_players (self (snd (fst (new_controller w)))).

Definition refresh_events (w : W) : list event := snd (new_controller w).

(** The state after a refresh. *)
Definition refreshed (s : state W) : state W :=
  match bus_players (world s) with
  | Some ps => with_registry s (Some ps)
  | None => s
  end.

(** The slots of the lists [status], [title] and [artist] build, read off
    the answers the endpoints gave: [None] where the read failed or the
    field is missing. *)
Definition status_slot (e : event) : list (option string) :=
  match e with EGetPlaybackStatus _ r => [r] | _ => [] end.

Definition title_slot (e : event) : list (option string) :=
  match e with
  | EGetMetadata _ (Some md) => [xesam_title md]
  | EGetMetadata _ None => [None]
  | _ => []
  end.

Definition artist_slot (e : event) : list (option string) :=
  match e with
  | EGetMetadata _ (Some md) =>
      [match xesam_artist md with Some (a :: _) => Some a | _ => None end]
  | EGetMetadata _ None => [None]
  | _ => []
  end.

Definition call_slot (e : event) : list bool :=
  match e with ECall _ _ ok => [ok] | _ => [] end.

(** The answers to the status reads, the outcomes of the method calls, and
    the endpoints a status read found playing. *)
Definition status_reads (evs : list event) : list (string * option string) :=
  flat_map (fun e => match e with EGetPlaybackStatus b r => [(b, r)] | _ => [] end) evs.

Definition call_results (evs : list event) : list bool := flat_map call_slot evs.

Definition playing_in (evs : list event) : gset string :=
  list_to_set (map fst (List.filter (fun x => bool_decide (snd x = Some "Playing"))
                                    (status_reads evs))).

(** The endpoints target resolution kept, as the identity answers show. *)
Definition targets_seen (player_name : option string) (evs : list event) : list string :=
  flat_map (fun e => match e with
                     | EGetIdentity b (Some identity) =>
                         if name_matches player_name identity then [b] else []
                     | _ => []
                     end) evs.

(** Events of the loops of [pause] and [play]. *)
Definition is_player_event (e : event) : bool :=
  match e with
  | EGetPlaybackStatus _ _ | ECall _ _ _ => true
  | _ => false
  end.

(** Does [play] call [Play] on the endpoint [b]? *)
Definition should_play (player_name : option string) (remembered : gset string)
  (b : string) : bool :=
  match player_name with
  | Some _ => true
  | None => if decide (remembered ≠ ∅) then bool_decide (b ∈ remembered) else true
  end.

(** The list [play] builds: the outcome of the call where it made one,
    [True] where it skipped the endpoint. *)
Fixpoint play_flags (called : list bool) (oks : list bool) : list bool :=
  match called with
  | [] => []
  | true :: called' =>
      match oks with
      | ok :: oks' => ok :: play_flags called' oks'
      | [] => []
      end
  | false :: called' => true :: play_flags called' oks
  end.

Definition is_identity_event (e : event) : bool :=
  match e with EGetIdentity _ _ => true | _ => false end.

(** Two states that differ in the world only. *)
Definition same_but_world (s s' : state W) : Prop :=
  self s' = self s /\ web_cache s' = web_cache s /\ next_addr s' = next_addr s.

(** Is the endpoint playing in the world of [s]? *)
Definition playing_now (s : state W) (t : string * proxy) : bool :=
  bool_decide (get_playback_status env (world s) (bus_name (snd t)) = Some "Playing").

(** The relation between the state before and the state after. *)
Definition keeps (R : state W -> state W -> Prop) {A} (m : M W A) : Prop :=
  forall s r s' e, m s = (r, s', e) -> R s s'.

(** The resume set is what it was, and a registry that was assigned still is. *)
Definition resume_kept (s s' : state W) : Prop :=
  _previously_playing (self s') = _previously_playing (self s)
  /\ (is_Some (mpris_players (self s)) -> is_Some (mpris_players (self s'))).

(** Does the operation call [pause] or [play], itself or through [toggle]? *)
Definition is_transport (o : op) : bool :=
  match o with
  | OpPause _ | OpPlay _ | OpToggle _ => true
  | _ => false
  end.

(** The choice [toggle] makes: [true] for [pause]. *)
Definition toggle_choice (player_name : option string) : M W bool :=
  bind (get_matching_players player_name) (fun players => toggle_scan players).

(** The call of [pause] the operation makes from the state [s], with its
    argument and the state it is made in. *)
Definition pause_call (o : op) (s : state W) : option (option string * state W) :=
  match o with
  | OpPause f => Some (f, s)
  | OpToggle f =>
      match toggle_choice f s with
      | (Ok true, s1, _) => Some (f, s1)
      | _ => None
      end
  | _ => None
  end.

(** The call of [play] the operation makes from the state [s]. *)
Definition play_call (o : op) (s : state W) : option (option string * state W) :=
  match o with
  | OpPlay f => Some (f, s)
  | OpToggle f =>
      match toggle_choice f s with
      | (Ok false, s1, _) => Some (f, s1)
      | _ => None
      end
  | _ => None
  end.

(** The state after a sequence of operations. *)
Definition after (ops : list op) (s : state W) : state W := fst (run_ops ops s).

(** Some status read answered "Playing". *)
Definition found_playing (evs : list event) : Prop :=
  Exists (fun x => snd x = Some "Playing") (status_reads evs).

(** The operations that return a list of per-endpoint results, and their
    filter. *)
Definition collection_filter (o : op) : option (option string) :=
  match o with
  | OpPause f | OpPlay f | OpToggle f | OpStop f | OpNext f | OpPrevious f
  | OpStatus f | OpTitle f | OpArtist f | OpThumbnail f => Some f
  | OpGetActivePlayerName | OpGetPlayerNames _ => None
  end.

(** The value is [compress_list l] for a list [l] of [n] results. *)
Definition compressed_from (n : nat) (v : retval) : Prop :=
  match v with
  | RFlags r => exists l : list bool, length l = n /\ r = compress_list l
  | RTexts r => exists l : list (option string), length l = n /\ r = compress_list l
  | RThumbs r => exists l : list thumb, length l = n /\ r = compress_list l
  | RName _ | RNames _ => False
  end.

(** A loop body that appends one result to the list it is given. *)
Definition appends_one {X Y} (body : X -> list Y -> M W (list Y)) : Prop :=
  forall x acc s acc' s' e, body x acc s = (Ok acc', s', e) -> exists v, acc' = acc ++ [v].

(** A state that differs from [s] in the download cache only. *)
Definition with_cache (s : state W) (c : list (string * option string)) : state W :=
  {| self := self s; web_cache := c; next_addr := next_addr s; world := world s |}.

(** The URLs the download cache holds, most recently used first. *)
Definition cache_keys (c : list (string * option string)) : list string := map fst c.

Definition is_ok {A} (r : res A) : bool :=
  match r with Ok _ => true | Raise _ => false end.

(** A sequence of artwork resolutions in one process, by a caller that goes
    on when one of them raises: the outcomes in order, the final state and
    all the events. *)
Fixpoint resolve_all (urls : list string) (s : state W)
  : list (res (option string)) * state W * list event :=
  match urls with
  | [] => ([], s, [])
  | url :: rest =>
      let '(r, s1, e1) := get_web_thumnail url s in
      let '(rs, s2, e2) := resolve_all rest s1 in
      (r :: rs, s2, e1 ++ e2)
  end.

(** The registry after a refresh. *)
Definition registry (s : state W) : option (list proxy) :=
  mpris_players (self (refreshed s)).

(** Does the player answer the identity query with a name the filter
    accepts? *)
Definition answers (player_name : option string) (w : W) (p : proxy) : bool :=
  match get_identity env w (bus_name p) with
  | Some identity => name_matches player_name identity
  | None => false
  end.

(** The identity queries target resolution makes over the registry [ps]. *)
Definition identity_events (w : W) (ps : list proxy) : list event :=
  map (fun p => EGetIdentity (bus_name p) (get_identity env w (bus_name p))) ps.

(** A computation that only observes the world: it leaves the state as it
    is, its result and events depend on the world alone, and every event
    satisfies [P]. *)
Definition reads {A} (P : event -> bool) (m : M W A) : Prop :=
  forall s s', world s = world s' ->
    exists r e, m s = (r, s, e) /\ m s' = (r, s', e) /\ forallb P e = true.

(** Does the player report "Playing" and answer the identity query? *)
Definition announces (w : W) (p : proxy) : bool :=
  bool_decide (get_playback_status env w (bus_name p) = Some "Playing")
  && bool_decide (is_Some (get_identity env w (bus_name p))).

(** A state that differs from [s] in the last active player only. *)
Definition with_last_active (s : state W) (name : option string) : state W :=
  {| self := {| _previously_playing := _previously_playing (self s);
                _last_active_player := name;
                mpris_players := mpris_players (self s) |};
     web_cache := web_cache s; next_addr := next_addr s; world := world s |}.


(** What the queries show of one player in the world [w]. *)
Definition status_of (w : W) (p : proxy) : option string :=
  get_playback_status env w (bus_name p).

Definition title_of (w : W) (p : proxy) : option string :=
  match get_metadata env w (bus_name p) with
  | Some md => xesam_title md
  | None => None
  end.

Definition artist_of (w : W) (p : proxy) : option string :=
  match get_metadata env w (bus_name p) with
  | Some md => match xesam_artist md with Some (a :: _) => Some a | _ => None end
  | None => None
  end.


(** The last active player is what it was. *)
Definition marker_kept (s s' : state W) : Prop :=
  _last_active_player (self s') = _last_active_player (self s).


(** The players [get_player_names] asks for their identity: those of the
    list up to, and including, the first one whose read fails. *)
Fixpoint asked (w : W) (ps : list proxy) : list proxy :=
  match ps with
  | [] => []
  | p :: rest =>
      p :: match get_identity env w (bus_name p) with
           | Some _ => asked w rest
           | None => []
           end
  end.

(** The names the identity reads answered, in order. *)
Definition identities_read (evs : list event) : list string :=
  flat_map (fun e => match e with EGetIdentity _ (Some n) => [n] | _ => [] end) evs.


(** The answers to the metadata reads, in order. *)
Definition metadata_reads (evs : list event) : list (string * option metadata) :=
  flat_map (fun e => match e with EGetMetadata b r => [(b, r)] | _ => [] end) evs.

(** The metadata read answered, with an artwork reference that begins with
    "http://". *)
Definition plain_http_reference (r : option metadata) : Prop :=
  exists md url, r = Some md /\ mpris_artUrl md = Some url
                 /\ startswith url "http://" = true.


(** The path [download_file] writes to, for the extension [ext]. *)
Definition download_target (url path : string) (file_name : option string)
  (ext : string) : string :=
  os_path_join path
    (os_path_splitext_root
       (match file_name with
        | None => get_file_name_from_url url
        | Some f => f
        end) +:+ "." +:+ ext).

(** The events of creating the directory of [p], when [p] has one. *)
Definition makedirs_events (p : string) : list event :=
  if negb (String.eqb (os_path_dirname p) "")
  then [EMakedirs (os_path_dirname p) true] else [].

(** A file-system call that failed. *)
Definition failed_file_op (e : event) : Prop :=
  match e with
  | EMakedirs _ false | EOpen _ false | EWrite _ _ false => True
  | _ => False
  end.


End Controller.

(** ** A session bus with well-behaved players, for concrete runs *)

Module Sim.

(** A player on the bus: the well-known name it owns, its unique bus name,
    its properties ([None]: reading raises) and the methods it refuses. *)
Record player := {
  service : string;
  unique : string;
  identity : option string;
  playback : option string;
  meta : option metadata;
  refuses : list method
}.

Record session := {
  reachable : bool;
  players : list player;
  web : list (string * response);
  files : list (string * list Byte.byte)
}.

Definition find_player (w : session) (bus : string) : option player :=
  List.find (fun p => String.eqb (unique p) bus) (players w).

Definition sim_list_names (w : session) : option (list string) :=
  if reachable w
  then Some ("org.freedesktop.DBus" :: flat_map (fun p => [unique p; service p]) (players w))
  else None.

Definition sim_get_object (w : session) (name : string) : option string :=
  if reachable w
  then unique <$> List.find (fun p => String.eqb (service p) name) (players w)
  else None.

Definition after_call (m : method) (p : player) : player :=
  {| service := service p; unique := unique p; identity := identity p;
     playback :=
       match m, playback p with
       | Pause, Some "Playing" => Some "Paused"
       | Pause, st => st
       | Play, Some _ => Some "Playing"
       | Stop, Some _ => Some "Stopped"
       | _, st => st
       end;
     meta := meta p; refuses := refuses p |}.

Definition sim_call (w : session) (bus : string) (m : method) : bool * session :=
  match find_player w bus with
  | Some p =>
      if bool_decide (m ∈ refuses p) then (false, w)
      else (true,
            {| reachable := reachable w;
               players := map (fun q => if String.eqb (unique q) bus
                                        then after_call m q else q) (players w);
               web := web w; files := files w |})
  | None => (false, w)
  end.

Fixpoint assoc {A} (k : string) (l : list (string * A)) : option A :=
  match l with
  | [] => None
  | (k', v) :: rest => if String.eqb k' k then Some v else assoc k rest
  end.

Definition sim_write (w : session) (path : string) (data : list Byte.byte) : bool * session :=
  (true, {| reachable := reachable w; players := players w; web := web w;
            files := (path, data) :: files w |}).

(** The path of an absolute URL [scheme://host/path?query#fragment]. *)
Fixpoint cut_at (stop : ascii -> bool) (s : string) : string :=
  match s with
  | EmptyString => EmptyString
  | String c r => if stop c then EmptyString else String c (cut_at stop r)
  end.

Fixpoint from_first (c : ascii) (s : string) : string :=
  match s with
  | EmptyString => EmptyString
  | String x r => if Ascii.eqb x c then s else from_first c r
  end.

Definition sim_urlparse_path (url : string) : string :=
  match String.index 0 "://" url with
  | Some i =>
      cut_at (fun c => Ascii.eqb c "?" || Ascii.eqb c "#")
             (from_first "/" (str_drop (i + 3) url))
  | None => cut_at (fun c => Ascii.eqb c "?" || Ascii.eqb c "#") url
  end.

(** A decoder of padded standard base64. *)
Definition sextet (c : ascii) : option N :=
  let n := N_of_ascii c in
  if (65 <=? n)%N && (n <=? 90)%N then Some (n - 65)%N
  else if (97 <=? n)%N && (n <=? 122)%N then Some (n - 71)%N
  else if (48 <=? n)%N && (n <=? 57)%N then Some (n + 4)%N
  else if (n =? 43)%N then Some 62%N
  else if (n =? 47)%N then Some 63%N
  else None.

Definition byte_of_N (n : N) : Byte.byte :=
  match Byte.of_N (n mod 256) with Some b => b | None => Byte.x00 end.

Fixpoint decode_quads (l : list ascii) (fuel : nat) : option (list Byte.byte) :=
  match fuel, l with
  | _, [] => Some []
  | S k, a :: b :: c :: d :: rest =>
      match sextet a, sextet b with
      | Some x, Some y =>
          let b1 := byte_of_N (x * 4 + y / 16) in
          if Ascii.eqb c "=" then
            if Ascii.eqb d "=" then match rest with [] => Some [b1] | _ => None end
            else None
          else
            match sextet c with
            | Some z =>
                let b2 := byte_of_N (y * 16 + z / 4) in
                if Ascii.eqb d "=" then
                  match rest with [] => Some [b1; b2] | _ => None end
                else
                  match sextet d with
                  | Some t =>
                      match decode_quads rest k with
                      | Some tl => Some (b1 :: b2 :: byte_of_N (z * 64 + t) :: tl)
                      | None => None
                      end
                  | None => None
                  end
            | None => None
            end
      | _, _ => None
      end
  | _, _ => None
  end.

Definition sim_b64decode (s : string) : option (list Byte.byte) :=
  decode_quads (list_ascii_of_string s) (String.length s).

Definition env : Remote session := {|
  list_names := sim_list_names;
  get_object := sim_get_object;
  get_identity := fun w bus => p ← find_player w bus; identity p;
  get_playback_status := fun w bus => p ← find_player w bus; playback p;
  get_metadata := fun w bus => p ← find_player w bus; meta p;
  call_method := sim_call;
  http_get := fun w url => (assoc url (web w), w);
  makedirs := fun w _ => (true, w);
  open_wb := fun w path => sim_write w path [];
  write_file := sim_write;
  urlparse_path := sim_urlparse_path;
  b64decode := sim_b64decode;
  DATA_PATH := "/data"
|}.

Definition no_metadata : metadata :=
  {| xesam_title := None; xesam_artist := None; mpris_artUrl := None |}.

(** A player that answers everything. *)
Definition mk_player (name bus ident st : string) (md : metadata) : player :=
  {| service := "org.mpris.MediaPlayer2." +:+ name; unique := bus;
     identity := Some ident; playback := Some st; meta := Some md;
     refuses := [] |}.

Definition mk_world (ps : list player) (pages : list (string * response)) : session :=
  {| reachable := true; players := ps; web := pages; files := [] |}.

(** The state of a process right after [MediaController()]. *)
Definition boot (w : session) : state session := snd (fst (new_controller env w)).

(** *** Scenes *)

Definition with_art (art : string) : metadata :=
  {| xesam_title := Some "Track"; xesam_artist := Some ["Artist"];
     mpris_artUrl := Some art |}.

(** Three players: the first and the third are playing. *)
Definition three_players : session :=
  mk_world [mk_player "a" ":1.1" "Alpha" "Playing" no_metadata;
            mk_player "b" ":1.2" "Beta" "Paused" no_metadata;
            mk_player "c" ":1.3" "Gamma" "Playing" no_metadata] [].

(** Two players, one of them playing. *)
Definition two_players : session :=
  mk_world [mk_player "a" ":1.1" "Alpha" "Playing" no_metadata;
            mk_player "b" ":1.2" "Beta" "Paused" no_metadata] [].

(** Two windows of one application. *)
Definition two_windows : session :=
  mk_world [mk_player "vlc" ":1.1" "VLC" "Playing" no_metadata;
            mk_player "vlc.instance2" ":1.2" "VLC" "Playing" no_metadata] [].

(** A player whose artwork reference is a [data:] URI with no comma. *)
Definition malformed_art : session :=
  mk_world [mk_player "a" ":1.1" "Alpha" "Playing" (with_art "data:image/png;base64")] [].

(** A player whose artwork is served over plain HTTP. *)
Definition plain_http_art : session :=
  mk_world [mk_player "a" ":1.1" "Alpha" "Playing"
              (with_art "http://covers.example/file://a.png")] [].

(** Three players, the second of which refuses [Stop]. *)
Definition stubborn : session :=
  mk_world [mk_player "a" ":1.1" "Alpha" "Playing" no_metadata;
            {| service := "org.mpris.MediaPlayer2.b"; unique := ":1.2";
               identity := Some "Beta"; playback := Some "Playing";
               meta := Some no_metadata; refuses := [Stop] |};
            mk_player "c" ":1.3" "Gamma" "Playing" no_metadata] [].

(** No session bus. *)
Definition no_bus : session :=
  {| reachable := false; players := []; web := []; files := [] |}.

(** A web server with 129 covers. *)
Definition url (n : nat) : string :=
  "https://covers.example/" +:+ NilZero.string_of_uint (Nat.to_uint n) +:+ ".jpg".

Definition png : response := {| content_type := Some "image/png"; content := Some [] |}.

Definition many_urls : list string := map url (seq 0 129).

Definition gallery : session := mk_world [] (map (fun u => (u, png)) many_urls).

(** A player whose artwork is on the web server, over HTTPS. *)
Definition https_art : session :=
  mk_world [mk_player "a" ":1.1" "Alpha" "Playing" (with_art (url 0))] [(url 0, png)].

(** A player whose artwork is an inline image. *)
Definition inline_art : session :=
  mk_world [mk_player "a" ":1.1" "Alpha" "Playing"
              (with_art "data:image/png;base64,aGk=")] [].

(** A player whose artwork is a local file. *)
Definition file_art : session :=
  mk_world [mk_player "a" ":1.1" "Alpha" "Playing" (with_art "file:///x/y.png")] [].

(** The proxies of the first players of the scenes. *)
Definition proxy_a : proxy :=
  {| requested_name := "org.mpris.MediaPlayer2.a"; bus_name := ":1.1" |}.
Definition proxy_b : proxy :=
  {| requested_name := "org.mpris.MediaPlayer2.b"; bus_name := ":1.2" |}.
Definition proxy_c : proxy :=
  {| requested_name := "org.mpris.MediaPlayer2.c"; bus_name := ":1.3" |}.


(** Two players: the artwork of the first is served over plain HTTP, that
    of the second over HTTPS. *)
Definition mixed_art : session :=
  mk_world [mk_player "a" ":1.1" "Alpha" "Playing"
              (with_art "http://covers.example/file://a.png");
            mk_player "b" ":1.2" "Beta" "Playing" (with_art (url 0))]
           [(url 0, png)].


(** Two players: the artwork of the first is a local file, that of the
    second a [data:] URI with no comma. *)
Definition one_malformed : session :=
  mk_world [mk_player "a" ":1.1" "Alpha" "Playing" (with_art "file:///x/y.png");
            mk_player "b" ":1.2" "Beta" "Playing" (with_art "data:image/png;base64")]
           [].


End Sim.

(** * Properties *)

(** ** Compression *)

Section CompressFacts.

Context {A : Type} `{EqDecision A}.

Lemma count_first_le (x : A) l : forall k,
  fold_left (fun n element => if decide (element = x) then S n else n) l k
  <= k + length l.
Proof.
  induction l as [|y l IH]; intros k; simpl; [lia|].
  case_decide; [specialize (IH (S k))|specialize (IH k)]; lia.
Qed.

Lemma count_first_all (x : A) l : forall k,
  Forall (fun y => y = x) l ->
  fold_left (fun n element => if decide (element = x) then S n else n) l k
  = k + length l.
Proof.
  induction l as [|y l IH]; intros k Hl; simpl; [lia|].
  apply Forall_cons in Hl as [-> Hl]. rewrite decide_True by done.
  rewrite IH by done. lia.
Qed.

Lemma count_first_some (x : A) l : forall k,
  ~ Forall (fun y => y = x) l ->
  fold_left (fun n element => if decide (element = x) then S n else n) l k
  < k + length l.
Proof.
  induction l as [|y l IH]; intros k Hl; simpl.
  - destruct Hl. constructor.
  - case_decide as Hy.
    + subst y. assert (Hl' : ~ Forall (fun y => y = x) l).
      { intros Hall. apply Hl. by constructor. }
      specialize (IH (S k) Hl'). lia.
    + pose proof (count_first_le x l k). lia.
Qed.

Lemma all_equal_cons (x : A) l :
  all_equal (x :: l)
  = Nat.eqb (fold_left (fun n element => if decide (element = x) then S n else n) l 1)
            (S (length l)).
Proof.
  unfold all_equal.
  destruct (remove_dups (x :: l)) as [|y d] eqn:E.
  - assert (Hx : x ∈ remove_dups (x :: l)) by (apply elem_of_remove_dups; left).
    rewrite E in Hx. by apply not_elem_of_nil in Hx.
  - simpl. by rewrite decide_True by done.
Qed.

(** C6: [compress_list] is a function of its argument alone; it returns
    [None] for the empty list, the one-element list of the first element
    when every element equals the first, and its argument otherwise. *)
Theorem compress_list_cases :
  compress_list (@nil A) = None
  /\ (forall (x : A) l, Forall (fun y => y = x) l -> compress_list (x :: l) = Some [x])
  /\ (forall (x : A) l, ~ Forall (fun y => y = x) l ->
        compress_list (x :: l) = Some (x :: l)).
Proof.
  split; [done|]. split; intros x l Hl; unfold compress_list.
  - change (Nat.eqb (length (x :: l)) 0) with false. cbv iota.
    rewrite all_equal_cons, count_first_all by done.
    change (1 + length l) with (S (length l)). by rewrite Nat.eqb_refl.
  - change (Nat.eqb (length (x :: l)) 0) with false. cbv iota.
    rewrite all_equal_cons. pose proof (count_first_some x l 1 Hl) as Hlt.
    destruct (Nat.eqb_spec
                (fold_left (fun n element => if decide (element = x) then S n else n) l 1)
                (S (length l))); [lia|done].
Qed.

Lemma compress_uniform (x : A) l :
  Forall (fun y => y = x) l -> compress_list (x :: l) = Some [x].
Proof.
  intros Hl. unfold compress_list.
  change (Nat.eqb (length (x :: l)) 0) with false. cbv iota.
  rewrite all_equal_cons, count_first_all by done.
  change (1 + length l) with (S (length l)). by rewrite Nat.eqb_refl.
Qed.

Lemma compress_mixed (x : A) l :
  ~ Forall (fun y => y = x) l -> compress_list (x :: l) = Some (x :: l).
Proof.
  intros Hl. unfold compress_list.
  change (Nat.eqb (length (x :: l)) 0) with false. cbv iota.
  rewrite all_equal_cons. pose proof (count_first_some x l 1 Hl) as Hlt.
  destruct (Nat.eqb_spec
              (fold_left (fun n element => if decide (element = x) then S n else n) l 1)
              (S (length l))); [lia|done].
Qed.

(** X15: what a caller can rely on in a result of [compress_list]: it is
    never the empty list, it holds the same values as the list that was
    compressed and is no longer than it, compressing it again changes
    nothing, and it is a one-element list [[v]] exactly when the list was
    not empty and held nothing but [v], so the number of endpoints
    that agreed cannot be read off it. *)
Theorem compress_list_result (l l' : list A) :
  compress_list l = Some l' ->
  l' <> []
  /\ compress_list l' = Some l'
  /\ (forall x, x ∈ l' <-> x ∈ l)
  /\ length l' <= length l
  /\ forall v, l' = [v] <-> l <> [] /\ Forall (fun y => y = v) l.
Proof.
  destruct l as [|x l]; [discriminate|].
  destruct (decide (Forall (fun y => y = x) l)) as [Hall|Hmix].
  - rewrite (compress_uniform x l Hall). intros [= <-].
    split; [done|]. split; [by apply compress_uniform|]. split; [|split].
    + intros y. rewrite list_elem_of_singleton, elem_of_cons.
      split; [by left|]. intros [->|Hy]; [done|].
      by apply (proj1 (Forall_forall _ _) Hall).
    + simpl. lia.
    + intros v. split.
      * intros [= <-]. split; [done|]. by constructor.
      * intros [_ Hv]. apply Forall_cons in Hv as [-> _]. done.
  - rewrite (compress_mixed x l Hmix). intros [= <-].
    split; [done|]. split; [by apply compress_mixed|]. split; [done|]. split; [done|].
    intros v. split.
    + intros [= -> ->]. destruct Hmix. constructor.
    + intros [_ Hv]. apply Forall_cons in Hv as [-> Hv]. by destruct Hmix.
Qed.

End CompressFacts.

Section Facts.

Context {W : Type} (env : Remote W).

(** ** Running the monad *)

Lemma bind_run {A B} (m : M W A) (k : A -> M W B) s r s1 e1 :
  m s = (r, s1, e1) ->
  bind m k s =
    match r with
    | Ok a => let '(r2, s2, e2) := k a s1 in (r2, s2, e1 ++ e2)
    | Raise x => (Raise x, s1, e1)
    end.
Proof. intros E. unfold bind. rewrite E. by destruct r. Qed.

Lemma try_except_run {A} (m : M W A) h s r s1 e1 :
  m s = (r, s1, e1) ->
  try_except m h s =
    match r with
    | Ok a => (Ok a, s1, e1)
    | Raise x =>
        match h x with
        | Some k => let '(r2, s2, e2) := k s1 in (r2, s2, e1 ++ e2)
        | None => (Raise x, s1, e1)
        end
    end.
Proof. intros E. unfold try_except. rewrite E. by destruct r. Qed.

(** ** Computations that only observe *)

Lemma reads_ret {A} P (a : A) : reads P (@ret W A a).
Proof. intros s s' _. by exists (Ok a), []. Qed.

Lemma reads_raise {A} P (x : exn) : reads P (@raise W A x).
Proof. intros s s' _. by exists (Raise x), []. Qed.

Lemma reads_bind {A B} P (m : M W A) (k : A -> M W B) :
  reads P m -> (forall a, reads P (k a)) -> reads P (bind m k).
Proof.
  intros Hm Hk s s' Hw. destruct (Hm s s' Hw) as (r & e & E1 & E2 & Hr).
  rewrite (bind_run _ _ _ _ _ _ E1), (bind_run _ _ _ _ _ _ E2).
  destruct r as [a|x].
  - destruct (Hk a s s' Hw) as (r2 & e2 & F1 & F2 & Hr2). rewrite F1, F2.
    exists r2, (e ++ e2). by rewrite forallb_app, Hr, Hr2.
  - by exists (Raise x), e.
Qed.

Lemma reads_try_except {A} P (m : M W A) h :
  reads P m -> (forall x k, h x = Some k -> reads P k) -> reads P (try_except m h).
Proof.
  intros Hm Hh s s' Hw. destruct (Hm s s' Hw) as (r & e & E1 & E2 & Hr).
  rewrite (try_except_run _ _ _ _ _ _ E1), (try_except_run _ _ _ _ _ _ E2).
  destruct r as [a|x].
  - by exists (Ok a), e.
  - destruct (h x) as [k|] eqn:Ek.
    + destruct (Hh x k Ek s s' Hw) as (r2 & e2 & F1 & F2 & Hr2). rewrite F1, F2.
      exists r2, (e ++ e2). by rewrite forallb_app, Hr, Hr2.
    + by exists (Raise x), e.
Qed.

Lemma reads_for {X S} P (l : list X) (body : X -> S -> M W S) :
  (forall x acc, reads P (body x acc)) -> forall acc, reads P (for_ l body acc).
Proof.
  intros Hb. induction l as [|x l IH]; intros acc; simpl.
  - apply reads_ret.
  - apply reads_bind; auto.
Qed.

Lemma reads_on_dbus {A} P (k0 : M W A) :
  reads P k0 -> forall x k, on_dbus k0 x = Some k -> reads P k.
Proof. intros H x k. destruct x; simpl; intros E; inversion E; subst; exact H. Qed.

Lemma reads_on_any {A} P (k0 : M W A) :
  reads P k0 -> forall x k, on_any k0 x = Some k -> reads P k.
Proof. intros H x k. unfold on_any. intros E; inversion E; subst; exact H. Qed.

Lemma reads_bus_list_names : reads is_registry_event (bus_list_names env).
Proof. intros s s' Hw. unfold bus_list_names. rewrite Hw. eauto 10. Qed.

Lemma reads_bus_get_object i : reads is_registry_event (bus_get_object env i).
Proof. intros s s' Hw. unfold bus_get_object. rewrite Hw. eauto 10. Qed.

Lemma reads_prop_playback_status p : reads is_read (prop_playback_status env p).
Proof. intros s s' Hw. unfold prop_playback_status. rewrite Hw. eauto 10. Qed.

Ltac reads_tac :=
  repeat first
    [ apply reads_ret | apply reads_raise
    | apply reads_bind | apply reads_try_except | apply reads_for
    | apply reads_on_dbus | apply reads_on_any
    | apply reads_bus_list_names | apply reads_bus_get_object
    | apply reads_prop_playback_status
    | match goal with |- reads _ (if ?b then _ else _) => destruct b end
    | match goal with |- reads _ (match ?b with _ => _ end) => destruct b end
    | progress intros ].

(** ** The registry *)

Lemma update_players_eq (s : state W) :
  update_players env s = (Ok tt, refreshed env s, refresh_events env (world s)).
Proof.
  unfold refreshed, refresh_events, bus_players, new_controller.
  set (b := {| self := _ ; world := world s |}).
  unfold update_players.
  match goal with |- bind ?m ?k s = _ =>
    assert (Hm : reads is_registry_event m) by reads_tac;
    destruct (Hm s b eq_refl) as (r & e & E1 & E2 & _);
    rewrite (bind_run _ _ _ _ _ _ E1), (bind_run _ _ _ _ _ _ E2) end.
  destruct r as [[ps|]|x]; simpl.
  - reflexivity.
  - rewrite app_nil_r. reflexivity.
  - exfalso. clear -E1. unfold try_except in E1.
    destruct (bind _ _ s) as [[[?|?] ?] ?]; simpl in E1; discriminate.
Qed.

Lemma refresh_events_kind w : forallb is_registry_event (refresh_events env w) = true.
Proof.
  unfold refresh_events, new_controller.
  set (b := {| self := _ ; world := w |}).
  unfold update_players.
  match goal with |- context [bind ?m ?k b] =>
    assert (Hm : reads is_registry_event m) by reads_tac;
    destruct (Hm b b eq_refl) as (r & e & E1 & _ & He);
    rewrite (bind_run _ _ _ _ _ _ E1) end.
  destruct r as [[ps|]|x]; simpl; by rewrite ?app_nil_r.
Qed.

Lemma refresh_events_head w :
  exists rest, refresh_events env w = EListNames (list_names env w) :: rest.
Proof.
  unfold refresh_events, new_controller, update_players.
  unfold bind at 1, try_except at 1, bind at 1, bus_list_names at 1. simpl.
  destruct (list_names env w) as [names|]; simpl.
  - match goal with |- context [bind ?m ?k ?b] => destruct (bind m k b) as [[[[?|]|?] ?] ?] end;
      simpl; eauto.
  - eauto.
Qed.

Lemma world_refreshed s : world (refreshed env s) = world s.
Proof. unfold refreshed. by destruct (bus_players env (world s)). Qed.

Lemma matching_ifaces_loop player_name ps : forall acc s,
  for_ ps (fun player ifaces =>
    try_except
      (bind (prop_identity env player) (fun identity =>
       if name_matches player_name identity
       then ret (ifaces ++ [player])
       else ret ifaces))
      (on_dbus (ret ifaces))) acc s
  = (Ok (acc ++ List.filter (answers env player_name (world s)) ps), s,
     identity_events env (world s) ps).
Proof.
  induction ps as [|p ps IH]; intros acc s; simpl.
  - by rewrite app_nil_r.
  - unfold bind at 1, try_except at 1, bind at 1, prop_identity at 1, answers at 1.
    destruct (get_identity env (world s) (bus_name p)) as [i|]; simpl.
    + destruct (name_matches player_name i); simpl; rewrite IH; simpl.
      * by rewrite <- app_assoc.
      * done.
    + rewrite IH. done.
Qed.

Lemma matching_players_loop player_name ps : forall acc s,
  for_ ps (fun player players =>
    try_except
      (bind (prop_identity env player) (fun identity =>
       if name_matches player_name identity
       then ret (players ++ [(_get_bus_name player, player)])
       else ret players))
      (on_dbus (ret players))) acc s
  = (Ok (acc ++ map (fun p => (bus_name p, p))
                    (List.filter (answers env player_name (world s)) ps)), s,
     identity_events env (world s) ps).
Proof.
  induction ps as [|p ps IH]; intros acc s; simpl.
  - by rewrite app_nil_r.
  - unfold bind at 1, try_except at 1, bind at 1, prop_identity at 1, answers at 1.
    destruct (get_identity env (world s) (bus_name p)) as [i|]; simpl.
    + destruct (name_matches player_name i); simpl; rewrite IH; simpl.
      * by rewrite <- app_assoc.
      * done.
    + rewrite IH. done.
Qed.

Lemma get_matching_ifaces_eq player_name s :
  get_matching_ifaces env player_name s =
    match registry env s with
    | Some ps =>
        (Ok (List.filter (answers env player_name (world s)) ps), refreshed env s,
         refresh_events env (world s) ++ identity_events env (world s) ps)
    | None => (Raise AttributeError, refreshed env s, refresh_events env (world s))
    end.
Proof.
  unfold get_matching_ifaces, registry.
  rewrite (bind_run _ _ _ _ _ _ (update_players_eq s)).
  unfold bind at 1, read_mpris_players at 1, bind at 1, get_self at 1.
  destruct (mpris_players (self (refreshed env s))) as [ps|]; simpl.
  - rewrite matching_ifaces_loop, world_refreshed. simpl. done.
  - by rewrite app_nil_r.
Qed.

Lemma get_matching_players_eq player_name s :
  get_matching_players env player_name s =
    match registry env s with
    | Some ps =>
        (Ok (map (fun p => (bus_name p, p))
                 (List.filter (answers env player_name (world s)) ps)), refreshed env s,
         refresh_events env (world s) ++ identity_events env (world s) ps)
    | None => (Raise AttributeError, refreshed env s, refresh_events env (world s))
    end.
Proof.
  unfold get_matching_players, registry.
  rewrite (bind_run _ _ _ _ _ _ (update_players_eq s)).
  unfold bind at 1, read_mpris_players at 1, bind at 1, get_self at 1.
  destruct (mpris_players (self (refreshed env s))) as [ps|]; simpl.
  - rewrite matching_players_loop, world_refreshed. simpl. done.
  - by rewrite app_nil_r.
Qed.

(** ** The loops of [pause] and [play] *)

Lemma playing_in_app e1 e2 : playing_in (e1 ++ e2) = playing_in e1 ∪ playing_in e2.
Proof.
  unfold playing_in, status_reads.
  by rewrite flat_map_app, List.filter_app, map_app, list_to_set_app_L.
Qed.

Lemma playing_in_step b r m ok :
  playing_in [EGetPlaybackStatus b r; ECall b m ok]
  = if decide (r = Some "Playing") then {[b]} else ∅.
Proof.
  unfold playing_in. simpl. case_bool_decide; case_decide; simpl; try congruence; set_solver.
Qed.

Lemma for_cons {X S} (x : X) l (body : X -> S -> M W S) acc :
  for_ (x :: l) body acc = bind (body x acc) (fun acc1 => for_ l body acc1).
Proof. reflexivity. Qed.

Lemma pause_body_run b iface status cp s :
  pause_body env (b, iface) (status, cp) s =
    let r := get_playback_status env (world s) (bus_name iface) in
    let c := call_method env (world s) (bus_name iface) Pause in
    (Ok (status ++ [fst c],
         if decide (r = Some "Playing") then {[b]} ∪ cp else cp),
     set_world s (snd c),
     [EGetPlaybackStatus (bus_name iface) r; ECall (bus_name iface) Pause (fst c)]).
Proof.
  unfold pause_body, bind, _get_playback_status, try_except, bind,
    prop_playback_status, iface_call.
  destruct (get_playback_status env (world s) (bus_name iface)) as [st|]; simpl;
    destruct (call_method env (world s) (bus_name iface) Pause) as [[|] w']; simpl; done.
Qed.

Lemma pause_loop targets : forall status cp s,
  Forall (fun t => fst t = bus_name (snd t)) targets ->
  exists s' evs,
    for_ targets (pause_body env) (status, cp) s
      = (Ok (status ++ call_results evs, playing_in evs ∪ cp), s', evs)
    /\ same_but_world s s'
    /\ calls_of evs = map (fun t => (fst t, Pause)) targets
    /\ map fst (status_reads evs) = map fst targets
    /\ forallb is_player_event evs = true.
Proof.
  induction targets as [|[b iface] targets IH]; intros status cp s Ht.
  - exists s, []. simpl. rewrite app_nil_r.
    replace (playing_in [] ∪ cp) with cp by (unfold playing_in; simpl; set_solver).
    done.
  - apply Forall_cons in Ht as [Hb Ht']. simpl in Hb. subst b.
    rewrite for_cons, (bind_run _ _ _ _ _ _ (pause_body_run _ _ _ _ _)).
    cbv zeta.
    match goal with |- context [for_ _ _ (?st', ?cp') ?s1] =>
      destruct (IH st' cp' s1 Ht') as (s' & evs & E & Hs & Hc & Hr & Hk) end.
    rewrite E.
    exists s', (EGetPlaybackStatus (bus_name iface)
                  (get_playback_status env (world s) (bus_name iface))
                :: ECall (bus_name iface) Pause
                     (fst (call_method env (world s) (bus_name iface) Pause)) :: evs).
    split; [|split; [|split; [|split]]]; [| | | |exact Hk].
    + do 4 f_equal.
      * simpl. by rewrite <- app_assoc.
      * match goal with |- context [playing_in (?a :: ?b :: evs)] =>
          change (playing_in (a :: b :: evs)) with (playing_in ([a; b] ++ evs)) end.
        rewrite playing_in_app, playing_in_step. case_decide; set_solver.
    + destruct Hs as (? & ? & ?); split; [|split]; simpl in *; congruence.
    + simpl. by rewrite Hc.
    + simpl. by rewrite Hr.
Qed.

Lemma play_body_run player_name b iface status s :
  play_body env player_name (b, iface) status s =
    if should_play player_name (_previously_playing (self s)) b
    then let c := call_method env (world s) (bus_name iface) Play in
         (Ok (status ++ [fst c]), set_world s (snd c),
          [ECall (bus_name iface) Play (fst c)])
    else (Ok (status ++ [true]), s, []).
Proof.
  unfold play_body, should_play, try_except, bind, get_self, iface_call.
  destruct player_name as [n|]; simpl.
  - destruct (call_method env (world s) (bus_name iface) Play) as [[|] w']; simpl; done.
  - case_decide; [case_decide|].
    + rewrite bool_decide_eq_true_2 by done.
      destruct (call_method env (world s) (bus_name iface) Play) as [[|] w']; simpl; done.
    + rewrite bool_decide_eq_false_2 by done. done.
    + destruct (call_method env (world s) (bus_name iface) Play) as [[|] w']; simpl; done.
Qed.

Lemma for_appends {X Y} (body : X -> list Y -> M W (list Y)) :
  appends_one body ->
  forall l acc s acc' s' e,
    for_ l body acc s = (Ok acc', s', e) ->
    exists vs, acc' = acc ++ vs /\ length vs = length l.
Proof.
  intros Hb. induction l as [|x l IH]; intros acc s acc' s' e; simpl.
  - intros [= <- <- <-]. exists []. by rewrite app_nil_r.
  - unfold bind. destruct (body x acc s) as [[[acc1|ex] s1] e1] eqn:E1; [|discriminate].
    destruct (for_ l body acc1 s1) as [[r2 s2] e2] eqn:E2. intros [= -> <- <-].
    destruct (Hb _ _ _ _ _ _ E1) as [v ->].
    destruct (IH _ _ _ _ _ E2) as (vs & -> & Hlen).
    exists (v :: vs). rewrite <- app_assoc. simpl. auto.
Qed.

Lemma play_body_appends f : appends_one (play_body env f).
Proof.
  intros [b iface] acc s acc' s' e. rewrite play_body_run.
  destruct (should_play f _ b); intros [= <- <- <-]; eauto.
Qed.

Lemma play_loop player_name targets : forall status s,
  Forall (fun t => fst t = bus_name (snd t)) targets ->
  exists s' evs,
    for_ targets (play_body env player_name) status s
      = (Ok (status ++ play_flags
               (map (should_play player_name (_previously_playing (self s)))
                    (map fst targets))
               (call_results evs)), s', evs)
    /\ same_but_world s s'
    /\ calls_of evs
       = map (fun b => (b, Play))
             (List.filter (should_play player_name (_previously_playing (self s)))
                          (map fst targets))
    /\ forallb is_player_event evs = true.
Proof.
  induction targets as [|[b iface] targets IH]; intros status s Ht.
  - exists s, []. simpl. by rewrite app_nil_r.
  - apply Forall_cons in Ht as [Hb Ht']. simpl in Hb. subst b.
    rewrite for_cons. unfold bind at 1. rewrite play_body_run.
    destruct (should_play player_name _ (bus_name iface)) eqn:Hp.
    + cbv beta iota zeta.
      match goal with |- context [for_ _ _ ?st' ?s1] =>
        destruct (IH st' s1 Ht') as (s' & evs & E & Hs & Hc & Hk) end.
      cbv zeta in E. simpl in E. rewrite E.
      exists s', (ECall (bus_name iface) Play
                    (fst (call_method env (world s) (bus_name iface) Play)) :: evs).
      split; [|split; [|split]]; [| | |simpl; exact Hk].
      * simpl. rewrite Hp. simpl. by rewrite <- app_assoc.
      * destruct Hs as (? & ? & ?); split; [|split]; simpl in *; congruence.
      * simpl. rewrite Hp. simpl. by rewrite Hc.
    + destruct (IH (status ++ [true]) s Ht') as (s' & evs & E & Hs & Hc & Hk).
      cbv zeta in E. rewrite E. exists s', evs.
      split; [|split; [|split]]; [| | |exact Hk].
      * simpl. rewrite Hp. simpl. by rewrite <- app_assoc.
      * done.
      * simpl. rewrite Hp. by rewrite Hc.
Qed.

(** ** Projections of the events *)

Lemma flat_map_none {B} (P : event -> bool) (f : event -> list B) evs :
  (forall e, P e = true -> f e = []) -> forallb P evs = true -> flat_map f evs = [].
Proof.
  intros Hf. induction evs as [|e evs IH]; simpl; [done|].
  intros [He Hevs]%andb_prop. by rewrite (Hf e He), IH.
Qed.

Lemma identity_events_kind w ps : forallb is_identity_event (identity_events env w ps) = true.
Proof. induction ps; simpl; auto. Qed.

Lemma targets_seen_identity f w ps :
  targets_seen f (identity_events env w ps)
  = map bus_name (List.filter (answers env f w) ps).
Proof.
  induction ps as [|p ps IH]; simpl; [done|].
  unfold answers at 1. destruct (get_identity env w (bus_name p)) as [i|]; simpl.
  - destruct (name_matches f i); simpl; by rewrite IH.
  - done.
Qed.

(** The events of target resolution followed by the events of a loop over
    the targets. *)
Lemma flat_map_of_run {B} (f : event -> list B) w ps evs :
  (forall e, is_registry_event e || is_identity_event e = true -> f e = []) ->
  flat_map f ((refresh_events env w ++ identity_events env w ps) ++ evs) = flat_map f evs.
Proof.
  intros Hf. rewrite !flat_map_app.
  rewrite (flat_map_none is_registry_event f (refresh_events env w));
    [|intros e He; apply Hf; by rewrite He|apply refresh_events_kind].
  rewrite (flat_map_none is_identity_event f (identity_events env w ps));
    [|intros e He; apply Hf; rewrite He; apply orb_true_r|apply identity_events_kind].
  done.
Qed.

Lemma seen_of_run f w ps evs :
  forallb is_player_event evs = true ->
  targets_seen f ((refresh_events env w ++ identity_events env w ps) ++ evs)
  = map bus_name (List.filter (answers env f w) ps).
Proof.
  intros Hk. unfold targets_seen. rewrite !flat_map_app.
  rewrite (flat_map_none is_registry_event _ (refresh_events env w));
    [|by intros []|apply refresh_events_kind].
  rewrite (flat_map_none is_player_event _ evs); [|by intros []|done].
  rewrite app_nil_r. apply targets_seen_identity.
Qed.

Lemma calls_of_run w ps evs :
  calls_of ((refresh_events env w ++ identity_events env w ps) ++ evs) = calls_of evs.
Proof. apply flat_map_of_run. by intros []. Qed.

Lemma status_reads_run w ps evs :
  status_reads ((refresh_events env w ++ identity_events env w ps) ++ evs)
  = status_reads evs.
Proof. apply flat_map_of_run. by intros []. Qed.

Lemma call_results_run w ps evs :
  call_results ((refresh_events env w ++ identity_events env w ps) ++ evs)
  = call_results evs.
Proof. apply flat_map_of_run. by intros []. Qed.

Lemma playing_in_run w ps evs :
  playing_in ((refresh_events env w ++ identity_events env w ps) ++ evs)
  = playing_in evs.
Proof. unfold playing_in. by rewrite status_reads_run. Qed.

(** ** [pause] and [play] *)

Lemma registry_targets f ps w :
  Forall (fun t : string * proxy => fst t = bus_name (snd t))
         (map (fun p => (bus_name p, p)) (List.filter (answers env f w) ps)).
Proof. apply Forall_forall. intros t [p [-> _]]%list_elem_of_fmap. done. Qed.

Lemma pause_spec f s r s' e :
  pause env f s = (r, s', e) ->
  (registry env s = None /\ r = Raise AttributeError /\ s' = refreshed env s
   /\ e = refresh_events env (world s))
  \/ (is_Some (registry env s)
      /\ r = Ok (compress_list (call_results e))
      /\ _previously_playing (self s')
         = (if decide (playing_in e ≠ ∅) then playing_in e
            else _previously_playing (self s))
      /\ mpris_players (self s') = registry env s
      /\ calls_of e = map (fun b => (b, Pause)) (targets_seen f e)
      /\ map fst (status_reads e) = targets_seen f e
      /\ length (call_results e) = length (targets_seen f e)
      /\ exists ps, registry env s = Some ps
                    /\ targets_seen f e
                       = map bus_name (List.filter (answers env f (world s)) ps)).
Proof.
  unfold pause. unfold bind at 1. rewrite get_matching_players_eq.
  destruct (registry env s) as [ps|] eqn:Hreg.
  - set (targets := map _ _).
    destruct (pause_loop targets [] ∅ (refreshed env s) (registry_targets f ps (world s)))
      as (s1 & evs & E & (Hself & Hcache & Haddr) & Hc & Hr & Hk).
    unfold bind at 1. rewrite E. simpl.
    assert (Hpp : _previously_playing (self (refreshed env s)) = _previously_playing (self s)).
    { unfold refreshed. by destruct (bus_players env (world s)). }
    assert (Hmp : mpris_players (self s1) = Some ps) by (rewrite Hself; exact Hreg).
    assert (Hlen : length (call_results evs) = length targets).
    { rewrite <- (length_map (fun t : string * proxy => (fst t, Pause)) targets), <- Hc.
      clear -Hk. induction evs as [|[] evs IH]; simpl in *; try discriminate; auto. }
    rewrite (right_id_L ∅ (∪)).
    unfold bind, set_previously_playing, get_self, set_self, ret.
    assert (Hseen : map fst targets = map bus_name (List.filter (answers env f (world s)) ps)).
    { unfold targets. rewrite map_map. done. }
    case_decide as Hne; simpl; intros [= <- <- <-]; right;
      rewrite ?app_nil_r, <- ?app_assoc, !app_assoc;
      rewrite ?call_results_run, ?playing_in_run, ?calls_of_run, ?status_reads_run,
        (seen_of_run f _ _ _ Hk), <- Hseen.
    + rewrite decide_True by done. simpl. repeat split; try done.
      * rewrite Hc, map_map. done.
      * by rewrite Hlen, length_map.
      * exists ps. by rewrite Hseen.
    + rewrite decide_False by (intros Hx; exact (Hx Hne)). simpl. repeat split; try done.
      * congruence.
      * rewrite Hc, map_map. done.
      * by rewrite Hlen, length_map.
      * exists ps. by rewrite Hseen.
  - intros [= <- <- <-]. left. done.
Qed.

Lemma pp_refreshed s :
  _previously_playing (self (refreshed env s)) = _previously_playing (self s).
Proof. unfold refreshed. by destruct (bus_players env (world s)). Qed.

Lemma play_spec f s r s' e :
  play env f s = (r, s', e) ->
  (registry env s = None /\ r = Raise AttributeError /\ s' = refreshed env s
   /\ e = refresh_events env (world s))
  \/ (is_Some (registry env s)
      /\ r = Ok (compress_list
                   (play_flags (map (should_play f (_previously_playing (self s)))
                                    (targets_seen f e))
                               (call_results e)))
      /\ _previously_playing (self s') = ∅
      /\ mpris_players (self s') = registry env s
      /\ calls_of e
         = map (fun b => (b, Play))
               (List.filter (should_play f (_previously_playing (self s)))
                            (targets_seen f e))
      /\ length (play_flags (map (should_play f (_previously_playing (self s)))
                                 (targets_seen f e))
                            (call_results e))
         = length (targets_seen f e)
      /\ exists ps, registry env s = Some ps
                    /\ targets_seen f e
                       = map bus_name (List.filter (answers env f (world s)) ps)).
Proof.
  unfold play. unfold bind at 1. rewrite get_matching_players_eq.
  destruct (registry env s) as [ps|] eqn:Hreg.
  - set (targets := map _ _).
    destruct (play_loop f targets [] (refreshed env s) (registry_targets f ps (world s)))
      as (s1 & evs & E & (Hself & Hcache & Haddr) & Hc & Hk).
    assert (Hlen : length (play_flags
                      (map (should_play f (_previously_playing (self (refreshed env s))))
                           (map fst targets)) (call_results evs)) = length targets).
    { destruct (for_appends _ (play_body_appends f) _ _ _ _ _ _ E) as (vs & Hvs & <-).
      simpl in Hvs. by rewrite Hvs. }
    unfold bind at 1. rewrite E. rewrite pp_refreshed in *. simpl.
    assert (Hmp : mpris_players (self s1) = Some ps) by (rewrite Hself; exact Hreg).
    assert (Hseen : map fst targets = map bus_name (List.filter (answers env f (world s)) ps)).
    { unfold targets. rewrite map_map. done. }
    intros [= <- <- <-]. right. simpl.
    rewrite ?app_nil_r.
    rewrite call_results_run, calls_of_run, (seen_of_run f _ _ _ Hk), <- Hseen.
    repeat split; try done.
    + by rewrite Hlen, length_map.
    + exists ps. by rewrite Hseen.
  - intros [= <- <- <-]. left. done.
Qed.

Lemma _get_playback_status_run p s :
  _get_playback_status env p s
  = (Ok (get_playback_status env (world s) (bus_name p)), s,
     [EGetPlaybackStatus (bus_name p) (get_playback_status env (world s) (bus_name p))]).
Proof.
  unfold _get_playback_status, try_except, bind, prop_playback_status.
  by destruct (get_playback_status env (world s) (bus_name p)).
Qed.

Lemma toggle_scan_run targets s :
  exists evs,
    toggle_scan env targets s = (Ok (existsb (playing_now env s) targets), s, evs)
    /\ forallb is_read evs = true.
Proof.
  induction targets as [|[b iface] targets (evs & E & Hevs)]; simpl.
  - by exists [].
  - rewrite (bind_run _ _ _ _ _ _ (_get_playback_status_run _ _)).
    unfold playing_now at 1. simpl. case_decide as Hp.
    + rewrite bool_decide_eq_true_2 by done. simpl. eexists. split; [done|done].
    + rewrite bool_decide_eq_false_2 by done. simpl. rewrite E.
      eexists. split; [done|]. simpl. done.
Qed.

Lemma refreshed_idem s : refreshed env (refreshed env s) = refreshed env s.
Proof.
  unfold refreshed. destruct (bus_players env (world s)) as [ps|] eqn:E; simpl.
  - by rewrite E.
  - by rewrite E.
Qed.

Lemma registry_refreshed s : registry env (refreshed env s) = registry env s.
Proof. unfold registry. by rewrite refreshed_idem. Qed.

Lemma get_matching_players_refreshed f s :
  get_matching_players env f (refreshed env s) = get_matching_players env f s.
Proof.
  by rewrite !get_matching_players_eq, registry_refreshed, refreshed_idem, world_refreshed.
Qed.

Lemma pause_refreshed f s : pause env f (refreshed env s) = pause env f s.
Proof. unfold pause. unfold bind at 1 5. by rewrite get_matching_players_refreshed. Qed.

Lemma play_refreshed f s : play env f (refreshed env s) = play env f s.
Proof. unfold play. unfold bind at 1 5. by rewrite get_matching_players_refreshed. Qed.

(** C5: for every filter and every state in which target resolution
    succeeds, [toggle] first scans the targets, which only reads the bus;
    if some target reports "Playing" it then returns the result and leaves
    the state of [pause] with the same filter, and if none does, those of
    [play], its events being the reads of the scan followed by the events
    of that call. *)
Theorem toggle_delegates f s targets s1 e1 :
  get_matching_players env f s = (Ok targets, s1, e1) ->
  exists scan,
    forallb is_read scan = true
    /\ (Exists (fun t => playing_now env s t = true) targets ->
        toggle env f s = (let '(r, s', e) := pause env f s in (r, s', scan ++ e)))
    /\ (Forall (fun t => playing_now env s t = false) targets ->
        toggle env f s = (let '(r, s', e) := play env f s in (r, s', scan ++ e))).
Proof.
  intros E. pose proof E as E'. rewrite get_matching_players_eq in E'.
  destruct (registry env s) as [ps|]; [|discriminate].
  injection E' as <- <- <-.
  set (targets := map _ _) in *.
  destruct (toggle_scan_run targets (refreshed env s)) as (evs & Es & Hevs).
  exists ((refresh_events env (world s) ++ identity_events env (world s) ps) ++ evs).
  split; [|split].
  - rewrite !forallb_app, Hevs, andb_true_r. apply andb_true_intro. split.
    + pose proof (refresh_events_kind (world s)) as H.
      rewrite forallb_forall in *. intros x Hx. specialize (H x Hx). by destruct x.
    + clear. induction ps; simpl; auto.
  - intros Hex. unfold toggle.
    rewrite (bind_run _ _ _ _ _ _ E), (bind_run _ _ _ _ _ _ Es).
    replace (existsb (playing_now env (refreshed env s)) targets) with true.
    2:{ symmetry. apply existsb_exists. apply Exists_exists in Hex as (t & Ht & Hp).
        exists t. split; [by apply list_elem_of_In|].
        unfold playing_now in *. by rewrite world_refreshed. }
    rewrite pause_refreshed. destruct (pause env f s) as [[r s'] e].
    by rewrite app_assoc.
  - intros Hall. unfold toggle.
    rewrite (bind_run _ _ _ _ _ _ E), (bind_run _ _ _ _ _ _ Es).
    replace (existsb (playing_now env (refreshed env s)) targets) with false.
    2:{ symmetry. apply not_true_is_false. intros (t & Ht & Hp)%existsb_exists.
        rewrite Forall_forall in Hall. apply list_elem_of_In in Ht.
        specialize (Hall t Ht). unfold playing_now in *.
        rewrite world_refreshed in Hp. congruence. }
    rewrite play_refreshed. destruct (play env f s) as [[r s'] e].
    by rewrite app_assoc.
Qed.

(** ** What the other operations leave alone *)

Section Keeps.
Context (R : state W -> state W -> Prop) `{!Reflexive R} `{!Transitive R}.

Lemma keeps_ret {A} (a : A) : keeps R (ret a).
Proof. intros s r s' e [= <- <- <-]. reflexivity. Qed.

Lemma keeps_raise {A} x : keeps R (@raise W A x).
Proof. intros s r s' e [= <- <- <-]. reflexivity. Qed.

Lemma keeps_bind {A B} (m : M W A) (k : A -> M W B) :
  keeps R m -> (forall a, keeps R (k a)) -> keeps R (bind m k).
Proof.
  intros Hm Hk s r s' e. unfold bind.
  destruct (m s) as [[[a|x] s1] e1] eqn:E1.
  - destruct (k a s1) as [[r2 s2] e2] eqn:E2. intros [= <- <- <-].
    etransitivity; [eapply Hm, E1|eapply Hk, E2].
  - intros [= <- <- <-]. eapply Hm, E1.
Qed.

Lemma keeps_try_except {A} (m : M W A) h :
  keeps R m -> (forall x k, h x = Some k -> keeps R k) -> keeps R (try_except m h).
Proof.
  intros Hm Hh s r s' e. unfold try_except.
  destruct (m s) as [[[a|x] s1] e1] eqn:E1.
  - intros [= <- <- <-]. eapply Hm, E1.
  - destruct (h x) as [k|] eqn:Ek.
    + destruct (k s1) as [[r2 s2] e2] eqn:E2. intros [= <- <- <-].
      etransitivity; [eapply Hm, E1|eapply Hh, E2; exact Ek].
    + intros [= <- <- <-]. eapply Hm, E1.
Qed.

Lemma keeps_for {X S} (l : list X) (body : X -> S -> M W S) :
  (forall x acc, keeps R (body x acc)) -> forall acc, keeps R (for_ l body acc).
Proof.
  intros Hb. induction l as [|x l IH]; intros acc; simpl.
  - apply keeps_ret.
  - apply keeps_bind; auto.
Qed.

Lemma keeps_for_partial {X S} (l : list X) (body : X -> S -> M W S) :
  (forall x acc, keeps R (body x acc)) -> forall acc, keeps R (for_partial l body acc).
Proof.
  intros Hb. induction l as [|x l IH]; intros acc; simpl.
  - apply keeps_ret.
  - intros s r s' e. destruct (body x acc s) as [[[a|ex] s1] e1] eqn:E1.
    + destruct (for_partial l body a s1) as [[r2 s2] e2] eqn:E2. intros [= <- <- <-].
      etransitivity; [eapply Hb, E1|eapply IH, E2].
    + intros [= <- <- <-]. eapply Hb, E1.
Qed.

Lemma keeps_handler {A} (h : exn -> option (M W A)) (k0 : M W A) :
  (forall x, h x = Some k0 \/ h x = None) -> keeps R k0 ->
  forall x k, h x = Some k -> keeps R k.
Proof.
  intros Hh Hk x k E. destruct (Hh x) as [E'|E']; [|congruence].
  rewrite E' in E. by injection E as <-.
Qed.

End Keeps.

Global Instance resume_kept_refl : Reflexive (@resume_kept W).
Proof. by intros s. Qed.

Global Instance resume_kept_trans : Transitive (@resume_kept W).
Proof. intros s1 s2 s3 [H1 H1'] [H2 H2']. split; [congruence|auto]. Qed.

(** A step that leaves the controller as it is. *)
Ltac keeps_prim :=
  let s := fresh "s" in
  intros s ? ? ?;
  repeat match goal with
         | |- context [call_method ?e ?w ?b ?m] => destruct (call_method e w b m)
         | |- context [http_get ?e ?w ?u] => destruct (http_get e w u)
         | |- context [makedirs ?e ?w ?u] => destruct (makedirs e w u)
         | |- context [open_wb ?e ?w ?u] => destruct (open_wb e w u)
         | |- context [write_file ?e ?w ?u ?d] => destruct (write_file e w u d)
         end;
  intros [= <- <- <-]; split; simpl; auto.

Ltac keeps_with known :=
  repeat first
    [ known
    | apply resume_kept_refl | apply resume_kept_trans
    | match goal with
      | |- keeps _ (bind get_self _) =>
          solve [ intros ? ? ? ?; unfold bind, get_self, set_self, ret; simpl;
                  intros [= <- <- <-]; split; simpl; auto ]
      end
    | apply keeps_ret | apply keeps_raise
    | apply keeps_bind | apply keeps_try_except
    | apply keeps_for | apply keeps_for_partial
    | match goal with
      | |- forall x k, ?h _ x = Some k -> keeps _ k =>
          eapply keeps_handler; [intros []; simpl; auto|]
      | |- keeps _ (if ?b then _ else _) => destruct b
      | |- keeps _ (match ?b with _ => _ end) => destruct b
      | |- keeps _ (bus_list_names _) => unfold bus_list_names; keeps_prim
      | |- keeps _ (bus_get_object _ _) => unfold bus_get_object; keeps_prim
      | |- keeps _ (prop_identity _ _) => unfold prop_identity; keeps_prim
      | |- keeps _ (prop_playback_status _ _) => unfold prop_playback_status; keeps_prim
      | |- keeps _ (prop_metadata _ _) => unfold prop_metadata; keeps_prim
      | |- keeps _ (iface_call _ _ _) => unfold iface_call; keeps_prim
      | |- keeps _ (requests_get _ _) => unfold requests_get; keeps_prim
      | |- keeps _ (os_makedirs _ _) => unfold os_makedirs; keeps_prim
      | |- keeps _ (open_for_writing _ _) => unfold open_for_writing; keeps_prim
      | |- keeps _ (file_write _ _ _) => unfold file_write; keeps_prim
      | |- keeps _ (new_BytesIO _) => unfold new_BytesIO; keeps_prim
      | |- keeps _ get_self => unfold get_self; keeps_prim
      | |- keeps _ get_web_cache => unfold get_web_cache; keeps_prim
      | |- keeps _ (set_web_cache _) => unfold set_web_cache; keeps_prim
      | |- keeps _ (set_self _) => unfold set_self; keeps_prim
      end
    | progress cbv zeta
    | progress intros ].

Ltac keeps_tac := keeps_with fail.

Lemma keeps_update_players : keeps resume_kept (update_players env).
Proof.
  intros s r s' e. rewrite update_players_eq. intros [= <- <- <-].
  unfold refreshed. destruct (bus_players env (world s)); split; simpl; eauto.
Qed.

Lemma keeps_read_mpris_players : keeps (@resume_kept W) read_mpris_players.
Proof. unfold read_mpris_players. keeps_tac. Qed.

Lemma keeps_get_matching_ifaces f : keeps resume_kept (get_matching_ifaces env f).
Proof.
  unfold get_matching_ifaces.
  keeps_with ltac:(first [apply keeps_update_players|apply keeps_read_mpris_players]).
Qed.

Lemma keeps_download_file url path fn : keeps resume_kept (download_file env url path fn).
Proof. unfold download_file. keeps_tac. Qed.

Lemma keeps_get_web_thumnail url : keeps resume_kept (get_web_thumnail env url).
Proof.
  unfold get_web_thumnail. keeps_with ltac:(apply keeps_download_file).
Qed.

Lemma keeps_thumbnail_body iface : keeps resume_kept (thumbnail_body env iface).
Proof.
  unfold thumbnail_body, thumbnail_data_uri.
  keeps_with ltac:(apply keeps_get_web_thumnail).
Qed.

Lemma keeps_active_player_scan players : keeps resume_kept (active_player_scan env players).
Proof.
  induction players as [|p players IH]; simpl.
  - keeps_tac.
  - keeps_with ltac:(apply IH).
Qed.

Lemma keeps_other_ops o : is_transport o = false -> keeps resume_kept (run_op env o).
Proof.
  destruct o; simpl; try discriminate; intros _.
  all: unfold stop, next, previous, status, title, artist, thumbnail,
         get_active_player_name, get_player_names.
  all: keeps_with ltac:(first [ apply keeps_get_matching_ifaces
                              | apply keeps_thumbnail_body
                              | apply keeps_update_players
                              | apply keeps_read_mpris_players
                              | apply keeps_active_player_scan ]).
Qed.

Lemma toggle_run f s :
  toggle env f s =
    match toggle_choice env f s with
    | (Ok b, s1, e1) =>
        let '(r, s2, e2) := (if b then pause env f else play env f) s1 in
        (r, s2, e1 ++ e2)
    | (Raise x, s1, e1) => (Raise x, s1, e1)
    end.
Proof.
  unfold toggle, toggle_choice, bind.
  destruct (get_matching_players env f s) as [[[players|x] s1] e1]; [|done].
  destruct (toggle_scan env players s1) as [[[b|x] s2] e2]; [|done].
  destruct ((if b then pause env f else play env f) s2) as [[r s3] e3].
  by rewrite app_assoc.
Qed.

Lemma toggle_choice_run f s :
  (registry env s = None
   /\ exists e, toggle_choice env f s = (Raise AttributeError, refreshed env s, e))
  \/ (is_Some (registry env s)
      /\ exists b e, toggle_choice env f s = (Ok b, refreshed env s, e)).
Proof.
  unfold toggle_choice, bind. rewrite get_matching_players_eq.
  destruct (registry env s) as [ps|]; [right|left; eauto].
  split; [done|].
  match goal with |- context [toggle_scan env ?t ?s1] =>
    destruct (toggle_scan_run t s1) as (evs & -> & _) end.
  eauto.
Qed.

Lemma after_one o s : after env [o] s = snd (fst (run_op env o s)).
Proof.
  unfold after. simpl. by destruct (run_op env o s) as [[r s1] e1].
Qed.

Lemma after_snoc ops o s : after env (ops ++ [o]) s = after env [o] (after env ops s).
Proof.
  unfold after. revert s. induction ops as [|o' ops IH]; intros s; simpl.
  - done.
  - destruct (run_op env o' s) as [[r s1] e1]. specialize (IH s1).
    destruct (run_ops env (ops ++ [o]) s1) as [s2 e2].
    destruct (run_ops env ops s1) as [s3 e3]. simpl in *. exact IH.
Qed.

Lemma run_op_state_pause f s : snd (fst (run_op env (OpPause f) s)) = snd (fst (pause env f s)).
Proof. simpl. unfold bind. by destruct (pause env f s) as [[[r|x] s1] e1]. Qed.

Lemma run_op_state_play f s : snd (fst (run_op env (OpPlay f) s)) = snd (fst (play env f s)).
Proof. simpl. unfold bind. by destruct (play env f s) as [[[r|x] s1] e1]. Qed.

Lemma run_op_state_toggle f s :
  snd (fst (run_op env (OpToggle f) s)) = snd (fst (toggle env f s)).
Proof. simpl. unfold bind. by destruct (toggle env f s) as [[[r|x] s1] e1]. Qed.

Lemma registry_mono s : is_Some (mpris_players (self s)) -> is_Some (registry env s).
Proof.
  unfold registry, refreshed. destruct (bus_players env (world s)); simpl; eauto.
Qed.

Lemma playing_in_found evs : playing_in evs ≠ ∅ -> found_playing evs.
Proof.
  unfold playing_in, found_playing. induction (status_reads evs) as [|[b r] l IH]; simpl.
  - intros H. by destruct H.
  - case_bool_decide as Hr; simpl in *.
    + intros _. by left.
    + intros H. right. auto.
Qed.

(** What one operation does to the resume set. *)
Lemma step_cases o s :
  let s' := after env [o] s in
  (_previously_playing (self s) ≠ ∅ -> is_Some (mpris_players (self s))) ->
  _previously_playing (self s') ≠ ∅ ->
  (_previously_playing (self s') = _previously_playing (self s)
   /\ is_Some (mpris_players (self s'))
   /\ play_call env o s = None)
  \/ (exists f s1, pause_call env o s = Some (f, s1)
                   /\ found_playing (snd (pause env f s1))
                   /\ is_Some (mpris_players (self s'))).
Proof.
  intros s' Hinv Hne. subst s'. rewrite after_one in *.
  destruct (is_transport o) eqn:Ho.
  - destruct o as [f|f|f| | | | | | | | |]; try discriminate.
    + (* pause *)
      rewrite run_op_state_pause in *.
      destruct (pause env f s) as [[r s'] e] eqn:E. simpl in *.
      destruct (pause_spec f s r s' e E) as [(Hreg & _ & -> & _)|(Hreg & _ & Hpp & Hmp & _)].
      * rewrite pp_refreshed in *. specialize (Hinv Hne).
        apply registry_mono in Hinv. rewrite Hreg in Hinv. by destruct Hinv.
      * case_decide as Hfound.
        -- right. exists f, s. rewrite E. simpl. split; [done|].
           split; [by apply playing_in_found|]. by rewrite Hmp.
        -- left. rewrite Hmp. done.
    + (* play *)
      rewrite run_op_state_play in *.
      destruct (play env f s) as [[r s'] e] eqn:E. simpl in *.
      destruct (play_spec f s r s' e E) as [(Hreg & _ & -> & _)|(_ & _ & Hpp & _)].
      * rewrite pp_refreshed in *. specialize (Hinv Hne).
        apply registry_mono in Hinv. rewrite Hreg in Hinv. by destruct Hinv.
      * congruence.
    + (* toggle *)
      rewrite run_op_state_toggle in *. rewrite toggle_run in *.
      simpl pause_call. simpl play_call.
      destruct (toggle_choice_run f s) as [(Hreg & e0 & E0)|(Hreg & b & e0 & E0)];
        rewrite E0 in *; simpl in *.
      * rewrite pp_refreshed in *. specialize (Hinv Hne).
        apply registry_mono in Hinv. rewrite Hreg in Hinv. by destruct Hinv.
      * destruct b.
        -- destruct (pause env f (refreshed env s)) as [[r s'] e] eqn:E. simpl in *.
           destruct (pause_spec f _ r s' e E)
             as [(Hreg' & _ & -> & _)|(_ & _ & Hpp & Hmp & _)].
           ++ rewrite registry_refreshed in Hreg'. rewrite Hreg' in Hreg. by destruct Hreg.
           ++ rewrite registry_refreshed in Hmp. case_decide as Hfound.
              ** right. exists f, (refreshed env s). rewrite E. simpl.
                 split; [done|]. split; [by apply playing_in_found|]. by rewrite Hmp.
              ** left. rewrite Hmp, Hpp, pp_refreshed. done.
        -- destruct (play env f (refreshed env s)) as [[r s'] e] eqn:E. simpl in *.
           destruct (play_spec f _ r s' e E) as [(Hreg' & _ & -> & _)|(_ & _ & Hpp & _)].
           ++ rewrite registry_refreshed in Hreg'. rewrite Hreg' in Hreg. by destruct Hreg.
           ++ congruence.
  - destruct (run_op env o s) as [[r s'] e] eqn:E.
    destruct (keeps_other_ops o Ho s r s' e E) as [Hpp Hmp]. simpl in *.
    left. rewrite Hpp in *. split; [done|]. split; [auto|].
    by destruct o.
Qed.

Lemma after_nil s : after env [] s = s.
Proof. done. Qed.

Lemma pp_new_controller w0 :
  _previously_playing (self (snd (fst (new_controller env w0)))) = ∅.
Proof.
  unfold new_controller. rewrite update_players_eq. simpl. by rewrite pp_refreshed.
Qed.

(** C3: in every state reached from a new controller by a sequence of
    public operations, a non-empty Resume Set comes from a call of [pause]
    (made directly or by [toggle]) during which some status read answered
    "Playing", and no later operation of the sequence called [play]; and
    an operation that makes no call of [pause] never turns the Resume Set
    into a different non-empty set. *)
Theorem resume_set_between_pause_and_play w0 ops :
  let s0 := snd (fst (new_controller env w0)) in
  (_previously_playing (self (after env ops s0)) ≠ ∅ ->
   exists pre o post f s1,
     ops = pre ++ o :: post
     /\ pause_call env o (after env pre s0) = Some (f, s1)
     /\ found_playing (snd (pause env f s1))
     /\ forall post1 o' post2,
          post = post1 ++ o' :: post2 ->
          play_call env o' (after env (pre ++ o :: post1) s0) = None)
  /\ (forall o,
        pause_call env o (after env ops s0) = None ->
        _previously_playing (self (after env (ops ++ [o]) s0)) ≠ ∅ ->
        _previously_playing (self (after env (ops ++ [o]) s0))
        = _previously_playing (self (after env ops s0))).
Proof.
  intros s0.
  assert (Hmain : forall ops,
    _previously_playing (self (after env ops s0)) ≠ ∅ ->
    is_Some (mpris_players (self (after env ops s0)))
    /\ exists pre o post f s1,
         ops = pre ++ o :: post
         /\ pause_call env o (after env pre s0) = Some (f, s1)
         /\ found_playing (snd (pause env f s1))
         /\ forall post1 o' post2,
              post = post1 ++ o' :: post2 ->
              play_call env o' (after env (pre ++ o :: post1) s0) = None).
  { clear ops. induction ops as [|o ops IH] using rev_ind.
    - rewrite after_nil. unfold s0. rewrite pp_new_controller. intros H. by destruct H.
    - rewrite after_snoc. intros Hne.
      destruct (step_cases o (after env ops s0)) as [(Hpp & Hmp & Hplay)|(f & s1 & Hc & Hf & Hmp)].
      + intros H. by apply IH.
      + exact Hne.
      + split; [exact Hmp|]. rewrite Hpp in Hne.
        destruct (IH Hne) as (_ & pre & o0 & post & f & s1 & -> & Hc & Hf & Hpost).
        exists pre, o0, (post ++ [o]), f, s1.
        split; [by rewrite <- app_assoc|]. split; [done|]. split; [done|].
        intros post1 o' post2 Heq.
        destruct post2 as [|x post2 _] using rev_ind.
        * apply app_inj_tail in Heq as [<- <-]. exact Hplay.
        * rewrite app_comm_cons, app_assoc in Heq.
          apply app_inj_tail in Heq as [-> _]. by eapply Hpost.
      + split; [exact Hmp|].
        exists ops, o, [], f, s1. split; [done|]. split; [done|]. split; [done|].
        intros post1 o' post2 Heq. by destruct post1. }
  split.
  - intros Hne. by apply Hmain.
  - intros o Hc. rewrite after_snoc. intros Hne.
    destruct (step_cases o (after env ops s0)) as [(Hpp & _)|(f & s1 & Hc' & _)].
    + intros H. by apply Hmain.
    + exact Hne.
    + exact Hpp.
    + congruence.
Qed.

(** ** The resume set across [pause] and [play] *)

Lemma status_reads_refresh w : status_reads (refresh_events env w) = [].
Proof.
  apply (flat_map_none is_registry_event); [by intros []|apply refresh_events_kind].
Qed.

Lemma targets_seen_refresh f w : targets_seen f (refresh_events env w) = [].
Proof.
  apply (flat_map_none is_registry_event); [by intros []|apply refresh_events_kind].
Qed.

Lemma playing_in_none evs :
  Forall (fun x => snd x ≠ Some "Playing") (status_reads evs) -> playing_in evs = ∅.
Proof.
  unfold playing_in. induction (status_reads evs) as [|[b r] l IH]; simpl; [done|].
  intros [Hr Hl]%Forall_cons. simpl in Hr.
  rewrite bool_decide_eq_false_2 by done. auto.
Qed.

(** C4: a call of [pause] during which no status read answers "Playing"
    leaves the Resume Set exactly as it was, whatever the filter and the
    state; so a second [pause] that finds nothing playing does not erase
    what the first one remembered. *)
Theorem pause_without_playing_keeps_resume_set f s r s' e :
  pause env f s = (r, s', e) ->
  Forall (fun x => snd x ≠ Some "Playing") (status_reads e) ->
  _previously_playing (self s') = _previously_playing (self s).
Proof.
  intros E Hnone.
  destruct (pause_spec f s r s' e E) as [(_ & _ & -> & _)|(_ & _ & Hpp & _)].
  - apply pp_refreshed.
  - rewrite Hpp, (playing_in_none e Hnone). by rewrite decide_False by (intros H; by apply H).
Qed.

(** C1: when the bus shows the endpoints [a], [b], [c] during each of the
    three calls, and the status reads of [pause(None)] answer "Playing" for
    [a] and [c] and something else for [b], then [pause(None)] leaves the
    Resume Set equal to [{a, c}] and calls [Pause] on all three; the
    following [play(None)] calls [Play] on [a] and [c] only and empties the
    Resume Set; a second [play(None)] calls [Play] on all three. *)
Theorem pause_then_play_round_trip a b c sb s0 r1 s1 e1 r2 s2 e2 r3 s3 e3 :
  b ≠ a -> b ≠ c -> sb ≠ Some "Playing" ->
  pause env None s0 = (r1, s1, e1) ->
  status_reads e1 = [(a, Some "Playing"); (b, sb); (c, Some "Playing")] ->
  play env None s1 = (r2, s2, e2) ->
  targets_seen None e2 = [a; b; c] ->
  play env None s2 = (r3, s3, e3) ->
  targets_seen None e3 = [a; b; c] ->
  _previously_playing (self s1) = {[a; c]}
  /\ calls_of e1 = [(a, Pause); (b, Pause); (c, Pause)]
  /\ calls_of e2 = [(a, Play); (c, Play)]
  /\ _previously_playing (self s2) = ∅
  /\ calls_of e3 = [(a, Play); (b, Play); (c, Play)].
Proof.
  intros Hba Hbc Hsb E1 Hst E2 Hseen2 E3 Hseen3.
  assert (Hfound : playing_in e1 = {[a; c]}).
  { unfold playing_in. rewrite Hst. simpl.
    rewrite bool_decide_eq_false_2 by done. simpl. set_solver. }
  destruct (pause_spec None s0 r1 s1 e1 E1)
    as [(_ & _ & _ & ->)|(_ & _ & Hpp1 & _ & Hc1 & Hr1 & _)].
  { by rewrite status_reads_refresh in Hst. }
  rewrite Hfound in Hpp1. rewrite decide_True in Hpp1 by set_solver.
  destruct (play_spec None s1 r2 s2 e2 E2)
    as [(_ & _ & _ & ->)|(_ & _ & Hpp2 & _ & Hc2 & _)].
  { by rewrite targets_seen_refresh in Hseen2. }
  destruct (play_spec None s2 r3 s3 e3 E3)
    as [(_ & _ & _ & ->)|(_ & _ & _ & _ & Hc3 & _)].
  { by rewrite targets_seen_refresh in Hseen3. }
  split; [exact Hpp1|]. split.
  { rewrite Hc1, <- Hr1, Hst. done. }
  split.
  { assert (Hplay : forall x, should_play None {[a; c]} x = bool_decide (x ∈ ({[a; c]} : gset string))).
    { intros x. unfold should_play. by rewrite decide_True by set_solver. }
    rewrite Hc2, Hseen2, Hpp1. cbn [List.filter]. rewrite !Hplay.
    rewrite (bool_decide_eq_true_2 (a ∈ _)) by set_solver.
    rewrite (bool_decide_eq_false_2 (b ∈ _)) by set_solver.
    rewrite (bool_decide_eq_true_2 (c ∈ _)) by set_solver. done. }
  split; [exact Hpp2|].
  assert (Hplay : forall x, should_play None ∅ x = true).
  { intros x. unfold should_play. by rewrite decide_False by (intros H; by apply H). }
  rewrite Hc3, Hseen3, Hpp2. cbn [List.filter]. rewrite !Hplay. done.
Qed.

(** ** Artwork *)

Lemma startswith_http url :
  startswith url "http://" = true -> exists rest, url = "http://" +:+ rest.
Proof.
  unfold startswith. intros H.
  repeat match type of H with
         | String.prefix (String _ _) ?u = true =>
             destruct u as [|? ?]; [discriminate H|]; simpl in H;
             match type of H with
             | (if ?d then _ else _) = true => destruct d; [subst|discriminate H]
             end
         end.
  eexists. reflexivity.
Qed.

(** ** Refresh first, compress last *)

Lemma refresh_then {A B} (m : M W A) (k : A -> M W B) s r s' e rest0 :
  (exists s1 r1, m s = (r1, s1, refresh_events env (world s) ++ rest0)) ->
  bind m k s = (r, s', e) ->
  exists rest, e = EListNames (list_names env (world s)) :: rest.
Proof.
  intros (s1 & r1 & E). rewrite (bind_run _ _ _ _ _ _ E).
  destruct (refresh_events_head (world s)) as [rest Hrest]. rewrite Hrest.
  destruct r1 as [a|x].
  - destruct (k a s1) as [[r2 s2] e2]. intros [= <- <- <-]. simpl. eauto.
  - intros [= <- <- <-]. simpl. eauto.
Qed.

Lemma ifaces_refresh f s :
  exists rest0 s1 r1,
    get_matching_ifaces env f s = (r1, s1, refresh_events env (world s) ++ rest0).
Proof.
  rewrite get_matching_ifaces_eq. destruct (registry env s).
  - eauto.
  - exists []. rewrite app_nil_r. eauto.
Qed.

Lemma players_refresh f s :
  exists rest0 s1 r1,
    get_matching_players env f s = (r1, s1, refresh_events env (world s) ++ rest0).
Proof.
  rewrite get_matching_players_eq. destruct (registry env s).
  - eauto.
  - exists []. rewrite app_nil_r. eauto.
Qed.

(** An operation of the shape resolve, loop, compress. *)
Lemma ifaces_op_spec {Y} `{EqDecision Y} f (body : proxy -> list Y -> M W (list Y))
  s r s' e :
  appends_one body ->
  bind (get_matching_ifaces env f)
       (fun ifaces => bind (for_ ifaces body []) (fun l => ret (compress_list l))) s
  = (r, s', e) ->
  (exists rest, e = EListNames (list_names env (world s)) :: rest)
  /\ forall v, r = Ok v ->
       exists ps l, registry env s = Some ps
                    /\ length l = length (List.filter (answers env f (world s)) ps)
                    /\ v = compress_list l.
Proof.
  intros Hb E. split.
  { destruct (ifaces_refresh f s) as (rest0 & s1 & r1 & E1).
    eapply refresh_then; [eauto|exact E]. }
  revert E. unfold bind at 1. rewrite get_matching_ifaces_eq.
  destruct (registry env s) as [ps|]; [|by intros [= <- <- <-] v].
  unfold bind.
  destruct (for_ _ body [] (refreshed env s)) as [[[l|x] s1] e1] eqn:E1.
  - intros [= <- <- <-] v [= <-]. destruct (for_appends body Hb _ _ _ _ _ _ E1) as (vs & -> & Hlen).
    exists ps, vs. auto.
  - by intros [= <- <- <-] v.
Qed.

Ltac appends_tac :=
  intros ? ? ? ? ? ?;
  unfold try_except, bind, iface_call, prop_playback_status, prop_metadata,
    ret, raise, on_dbus, on_key_index_dbus;
  repeat match goal with
         | |- context [call_method ?a ?b ?c ?d] =>
             destruct (call_method a b c d) as [[|] ?]
         | |- context [get_playback_status ?a ?b ?c] =>
             destruct (get_playback_status a b c)
         | |- context [get_metadata ?a ?b ?c] =>
             destruct (get_metadata a b c) as [[? ? ?]|]
         end;
  simpl;
  repeat (match goal with
          | |- context [match ?t with _ => _ end] => is_var t; destruct t
          end; simpl);
  intros [= <- <- <-]; eauto.

Lemma bind_ret_inv {A B} (m : M W A) (g : A -> B) s r s' e :
  bind m (fun a => ret (g a)) s = (r, s', e) ->
  exists r0, m s = (r0, s', e)
             /\ r = match r0 with Ok a => Ok (g a) | Raise x => Raise x end.
Proof.
  unfold bind, ret. destruct (m s) as [[[a|x] s1] e1].
  - intros [= <- <- <-]. rewrite app_nil_r. eauto.
  - intros [= <- <- <-]. eauto.
Qed.

Lemma reads_for_partial {X S} P (l : list X) (body : X -> S -> M W S) :
  (forall x acc, reads P (body x acc)) -> forall acc, reads P (for_partial l body acc).
Proof.
  intros Hb. induction l as [|x l IH]; intros acc; simpl.
  - apply reads_ret.
  - intros s s' Hw. destruct (Hb x acc s s' Hw) as (r & e & E1 & E2 & Hr).
    rewrite E1, E2. destruct r as [acc1|ex].
    + destruct (IH acc1 s s' Hw) as (r2 & e2 & F1 & F2 & Hr2). rewrite F1, F2.
      exists r2, (e ++ e2). by rewrite forallb_app, Hr, Hr2.
    + eauto.
Qed.

Lemma reads_prop_identity p : reads is_identity_event (prop_identity env p).
Proof. intros s s' Hw. unfold prop_identity. rewrite Hw. eauto 10. Qed.

Lemma get_player_names_reads d s r s' e :
  get_player_names env d s = (r, s', e) ->
  s' = s /\ forallb is_identity_event e = true.
Proof.
  unfold get_player_names.
  unfold bind at 1, try_except at 1, bind at 1, read_mpris_players at 1, bind at 1,
    get_self at 1.
  destruct (mpris_players (self s)) as [ps|]; simpl.
  - match goal with |- context [for_partial ps ?body [] s] =>
      assert (Hr : reads is_identity_event (for_partial ps body []))
    end.
    { apply reads_for_partial. intros p names. apply reads_bind.
      - apply reads_prop_identity.
      - intros name. destruct (_ && _); apply reads_ret. }
    destruct (Hr s s eq_refl) as (r0 & e0 & E & _ & He). rewrite E.
    destruct r0; simpl; intros [= <- <- <-]; by rewrite ?app_nil_r.
  - by intros [= <- <- <-].
Qed.

Lemma player_names_trace d ps : forall names s,
  exists ex,
    for_partial ps (fun player names =>
       bind (prop_identity env player) (fun name =>
       if d && bool_decide (name ∈ names)
       then ret names
       else ret (names ++ [name]))) names s
    = (Ok (fold_left (fun names name => if d && bool_decide (name ∈ names)
                                        then names else names ++ [name])
                     (identities_read
                        (identity_events env (world s) (asked env (world s) ps)))
                     names, ex),
       s, identity_events env (world s) (asked env (world s) ps)).
Proof.
  induction ps as [|p ps IH]; intros names s.
  - by exists None.
  - simpl for_partial. unfold bind at 1, prop_identity at 1.
    cbn [asked identity_events map].
    destruct (get_identity env (world s) (bus_name p)) as [n|] eqn:Hn; simpl.
    + set (names1 := if d && bool_decide (n ∈ names) then names else names ++ [n]).
      assert (E1 : (if d && bool_decide (n ∈ names)
                    then ret names else ret (names ++ [n])) s
                   = (Ok names1, s, [])).
      { subst names1. by destruct (d && bool_decide (n ∈ names)). }
      rewrite E1. destruct (IH names1 s) as [ex ->]. by exists ex.
    + by exists (Some DBusException).
Qed.

Lemma get_player_names_trace d s :
  get_player_names env d s
  = (Ok (fold_left (fun names name => if d && bool_decide (name ∈ names)
                                      then names else names ++ [name])
                   (identities_read
                      (identity_events env (world s)
                         (asked env (world s) (default [] (mpris_players (self s))))))
                   []),
     s,
     identity_events env (world s)
       (asked env (world s) (default [] (mpris_players (self s))))).
Proof.
  unfold get_player_names.
  unfold bind at 1, try_except at 1, bind at 1, read_mpris_players at 1, bind at 1,
    get_self at 1.
  destruct (mpris_players (self s)) as [ps|]; simpl.
  - destruct (player_names_trace d ps [] s) as [ex ->]. simpl. by rewrite app_nil_r.
  - reflexivity.
Qed.

Lemma names_kept_as_read (ids : list string) : forall names,
  fold_left (fun names name => if false && bool_decide (name ∈ names)
                               then names else names ++ [name]) ids names
  = names ++ ids.
Proof.
  induction ids as [|i ids IH]; intros names; simpl.
  - by rewrite app_nil_r.
  - rewrite IH. by rewrite <- app_assoc.
Qed.

(** C9 (amended): each of [pause], [play], [toggle], [stop], [next],
    [previous], [status], [title], [artist] and [thumbnail] starts by
    listing the names on the bus, which is the refresh of the registry, and
    what it returns is [compress_list] of a list with one result for each
    endpoint its filter resolves to.  [get_active_player_name] also starts
    with the refresh, and returns one name.  [get_player_names] does not
    refresh: it leaves the state as it is, and its events are the identity
    reads of the players registered at the last refresh, in order, up to
    the first read that fails.  It returns the names these reads answered
    as a plain list, each time it was answered without [remove_duplicates]
    and at its first answer only with it: nothing is compressed. *)
Theorem operations_refresh_then_compress o s r s' e :
  run_op env o s = (r, s', e) ->
  (forall f, collection_filter o = Some f ->
     (exists rest, e = EListNames (list_names env (world s)) :: rest)
     /\ forall v, r = Ok v ->
          exists ps, registry env s = Some ps
                     /\ compressed_from
                          (length (List.filter (answers env f (world s)) ps)) v)
  /\ (o = OpGetActivePlayerName ->
      exists rest, e = EListNames (list_names env (world s)) :: rest)
  /\ (forall d, o = OpGetPlayerNames d ->
      s' = s /\ forallb is_identity_event e = true
      /\ e = identity_events env (world s)
               (asked env (world s) (default [] (mpris_players (self s))))
      /\ r = Ok (RNames
                   (fold_left (fun names name => if d && bool_decide (name ∈ names)
                                                 then names else names ++ [name])
                              (identities_read e) []))
      /\ (d = false -> r = Ok (RNames (identities_read e)))).
Proof.
  intros E. split; [|split].
  - intros f Hf.
    destruct o as [g|g|g|g|g|g|g|g|g|g| |]; try discriminate;
      injection Hf as ->; simpl in E; apply bind_ret_inv in E as (r0 & E & ->).
    + (* pause *)
      split.
      { destruct (players_refresh f s) as (rest0 & s1 & r1 & E1).
        eapply refresh_then; [eauto|exact E]. }
      intros v Hv. destruct r0 as [a|]; [injection Hv as <-|discriminate].
      destruct (pause_spec f s _ s' e E)
        as [(_ & ? & _)|(_ & [= ->] & _ & _ & _ & _ & Hlen & ps & Hreg & Hseen)];
        [discriminate|].
      exists ps. split; [done|]. eexists. split; [|done].
      by rewrite Hlen, Hseen, length_map.
    + (* play *)
      split.
      { destruct (players_refresh f s) as (rest0 & s1 & r1 & E1).
        eapply refresh_then; [eauto|exact E]. }
      intros v Hv. destruct r0 as [a|]; [injection Hv as <-|discriminate].
      destruct (play_spec f s _ s' e E)
        as [(_ & ? & _)|(_ & [= ->] & _ & _ & _ & Hlen & ps & Hreg & Hseen)];
        [discriminate|].
      exists ps. split; [done|]. eexists. split; [|done].
      by rewrite Hlen, Hseen, length_map.
    + (* toggle *)
      split.
      { destruct (players_refresh f s) as (rest0 & s1 & r1 & E1).
        eapply refresh_then; [eauto|exact E]. }
      intros v Hv. destruct r0 as [a|]; [injection Hv as <-|discriminate].
      rewrite toggle_run in E.
      destruct (toggle_choice_run f s) as [(_ & e0 & E0)|(_ & b & e0 & E0)];
        rewrite E0 in E; [discriminate|].
      destruct b.
      * destruct (pause env f (refreshed env s)) as [[r1 s1] e1] eqn:E1.
        simpl in E. injection E as ? ? ?; subst.
        destruct (pause_spec f _ _ _ _ E1)
          as [(_ & ? & _)|(_ & [= ->] & _ & _ & _ & _ & Hlen & ps & Hreg & Hseen)];
          [discriminate|].
        rewrite registry_refreshed, world_refreshed in *.
        exists ps. split; [done|]. eexists. split; [|done].
        by rewrite Hlen, Hseen, length_map.
      * destruct (play env f (refreshed env s)) as [[r1 s1] e1] eqn:E1.
        simpl in E. injection E as ? ? ?; subst.
        destruct (play_spec f _ _ _ _ E1)
          as [(_ & ? & _)|(_ & [= ->] & _ & _ & _ & Hlen & ps & Hreg & Hseen)];
          [discriminate|].
        rewrite registry_refreshed, world_refreshed, pp_refreshed in *.
        exists ps. split; [done|]. eexists. split; [|done].
        by rewrite Hlen, Hseen, length_map.
    + (* stop *)
      destruct (fun Hb => ifaces_op_spec f _ s r0 s' e Hb E) as [Hhead Hres];
        [appends_tac|].
      split; [done|]. intros v Hv. destruct r0 as [a|]; [injection Hv as <-|discriminate].
      destruct (Hres _ eq_refl) as (ps & l & ? & ? & ->). simpl. eauto.
    + (* next *)
      destruct (fun Hb => ifaces_op_spec f _ s r0 s' e Hb E) as [Hhead Hres];
        [appends_tac|].
      split; [done|]. intros v Hv. destruct r0 as [a|]; [injection Hv as <-|discriminate].
      destruct (Hres _ eq_refl) as (ps & l & ? & ? & ->). simpl. eauto.
    + (* previous *)
      destruct (fun Hb => ifaces_op_spec f _ s r0 s' e Hb E) as [Hhead Hres];
        [appends_tac|].
      split; [done|]. intros v Hv. destruct r0 as [a|]; [injection Hv as <-|discriminate].
      destruct (Hres _ eq_refl) as (ps & l & ? & ? & ->). simpl. eauto.
    + (* status *)
      destruct (fun Hb => ifaces_op_spec f _ s r0 s' e Hb E) as [Hhead Hres];
        [appends_tac|].
      split; [done|]. intros v Hv. destruct r0 as [a|]; [injection Hv as <-|discriminate].
      destruct (Hres _ eq_refl) as (ps & l & ? & ? & ->). simpl. eauto.
    + (* title *)
      destruct (fun Hb => ifaces_op_spec f _ s r0 s' e Hb E) as [Hhead Hres];
        [appends_tac|].
      split; [done|]. intros v Hv. destruct r0 as [a|]; [injection Hv as <-|discriminate].
      destruct (Hres _ eq_refl) as (ps & l & ? & ? & ->). simpl. eauto.
    + (* artist *)
      destruct (fun Hb => ifaces_op_spec f _ s r0 s' e Hb E) as [Hhead Hres];
        [appends_tac|].
      split; [done|]. intros v Hv. destruct r0 as [a|]; [injection Hv as <-|discriminate].
      destruct (Hres _ eq_refl) as (ps & l & ? & ? & ->). simpl. eauto.
    + (* thumbnail *)
      assert (Hb : appends_one (fun iface thumbnails =>
                bind (thumbnail_body env iface) (fun t => ret (thumbnails ++ [t])))).
      { intros x acc s0 acc' s0' e0. unfold bind, ret.
        destruct (thumbnail_body env x s0) as [[[t|ex] ?] ?]; intros [= <- <- <-]; eauto. }
      destruct (ifaces_op_spec f _ s r0 s' e Hb E) as [Hhead Hres].
      split; [done|]. intros v Hv. destruct r0 as [a|]; [injection Hv as <-|discriminate].
      destruct (Hres _ eq_refl) as (ps & l & ? & ? & ->). simpl. eauto.
  - intros ->. simpl in E. apply bind_ret_inv in E as (r0 & E & ->).
    unfold get_active_player_name in E.
    eapply (refresh_then _ _ s _ _ _ []); [|exact E].
    rewrite update_players_eq, app_nil_r. eauto.
  - intros d ->. simpl in E. apply bind_ret_inv in E as (r0 & E & ->).
    destruct (get_player_names_reads d s r0 s' e E) as [-> He].
    rewrite get_player_names_trace in E. injection E as ? ?; subst r0 e.
    repeat split; try done.
    intros ->. by rewrite names_kept_as_read.
Qed.

(** ** The download cache *)

Ltac destruct_innermost :=
  match goal with
  | |- context [match ?t with _ => _ end] =>
      lazymatch t with
      | context [match _ with _ => _ end] => fail
      | _ => destruct t
      end
  end.

Lemma download_file_run url path fn s r s' e :
  download_file env url path fn s = (r, s', e) ->
  downloads_of e = [url] /\ web_cache s' = web_cache s.
Proof.
  unfold download_file, try_except, bind, requests_get, os_makedirs, open_for_writing,
    file_write, on_request_exception, ret, raise.
  repeat (destruct_innermost; simpl).
  all: intros [= <- <- <-]; simpl; auto.
Qed.

Lemma get_web_thumnail_hit url s result :
  cache_lookup url (web_cache s) = Some result ->
  get_web_thumnail env url s
  = (Ok result, with_cache s ((url, result) :: cache_remove url (web_cache s)), []).
Proof.
  intros H. unfold get_web_thumnail, bind, get_web_cache. simpl. rewrite H. reflexivity.
Qed.

Lemma get_web_thumnail_miss url s :
  cache_lookup url (web_cache s) = None ->
  exists r s1 e1,
    downloads_of e1 = [url] /\ web_cache s1 = web_cache s
    /\ get_web_thumnail env url s
       = match r with
         | Ok result =>
             (Ok result,
              with_cache s1 ((url, result) ::
                             (if Nat.ltb (length (web_cache s)) lru_maxsize
                              then web_cache s else removelast (web_cache s))),
              e1)
         | Raise x => (Raise x, s1, e1)
         end.
Proof.
  intros H. unfold get_web_thumnail, bind at 1, get_web_cache at 1. simpl. rewrite H.
  unfold bind at 1.
  destruct (download_file env url _ None s) as [[r s1] e1] eqn:E.
  destruct (download_file_run _ _ _ _ _ _ _ E) as [Hd Hc].
  exists r, s1, e1. split; [done|]. split; [done|].
  destruct r as [result|x]; [|done].
  unfold bind, get_web_cache, set_web_cache, ret. simpl.
  rewrite Hc, !app_nil_r. reflexivity.
Qed.

Lemma cache_lookup_None url c : cache_lookup url c = None <-> url ∉ cache_keys c.
Proof.
  induction c as [|[k v] c IH]; simpl.
  - split; [intros _; apply not_elem_of_nil|done].
  - destruct (String.eqb_spec k url) as [->|Hne].
    + split; [done|]. intros H. destruct H. left.
    + rewrite IH. rewrite not_elem_of_cons. naive_solver.
Qed.

Lemma cache_lookup_remove u url c :
  u ≠ url -> cache_lookup u (cache_remove url c) = cache_lookup u c.
Proof.
  intros Hne. induction c as [|[k v] c IH]; simpl; [done|].
  destruct (String.eqb_spec k url) as [->|Hk]; simpl.
  - destruct (String.eqb_spec url u); [congruence|done].
  - by rewrite IH.
Qed.

Lemma cache_keys_remove url c u :
  u ∈ cache_keys (cache_remove url c) <-> u ∈ cache_keys c /\ u ≠ url.
Proof.
  induction c as [|[k v] c IH]; simpl.
  - split; [by intros ?%not_elem_of_nil|by intros [?%not_elem_of_nil _]].
  - destruct (String.eqb_spec k url) as [->|Hk]; simpl.
    + rewrite IH, elem_of_cons. naive_solver.
    + rewrite !elem_of_cons, IH. naive_solver.
Qed.

Lemma cache_keys_remove_NoDup url c :
  NoDup (cache_keys c) -> NoDup (cache_keys (cache_remove url c)).
Proof.
  induction c as [|[k v] c IH]; simpl; [done|].
  intros [Hk Hc]%NoDup_cons. destruct (String.eqb_spec k url) as [->|Hne]; simpl; [auto|].
  apply NoDup_cons. split; [|auto]. rewrite cache_keys_remove. naive_solver.
Qed.

Lemma cache_length_bound (c : list (string * option string)) url (rest : list string) :
  NoDup (cache_keys c) -> url ∉ cache_keys c ->
  size (list_to_set (cache_keys c ++ url :: rest) : gset string) <= lru_maxsize ->
  length c < lru_maxsize.
Proof.
  intros Hnd Hurl Hsize.
  assert (Hsub : ({[url]} ∪ list_to_set (cache_keys c) : gset string)
                 ⊆ list_to_set (cache_keys c ++ url :: rest)).
  { rewrite list_to_set_app_L, list_to_set_cons. set_solver. }
  apply subseteq_size in Hsub.
  rewrite size_union in Hsub by (rewrite disjoint_singleton_l, elem_of_list_to_set; done).
  rewrite size_singleton, size_list_to_set in Hsub by done.
  unfold cache_keys in *. rewrite length_map in Hsub. lia.
Qed.

Lemma downloads_of_app e1 e2 : downloads_of (e1 ++ e2) = downloads_of e1 ++ downloads_of e2.
Proof. apply flat_map_app. Qed.

(** The invariant of a sequence of resolutions that never evicts. *)
Lemma resolve_all_inv urls : forall s outcomes s' e,
  NoDup (cache_keys (web_cache s)) ->
  size (list_to_set (cache_keys (web_cache s) ++ urls) : gset string) <= lru_maxsize ->
  resolve_all env urls s = (outcomes, s', e) ->
  forallb is_ok outcomes = true ->
  NoDup (cache_keys (web_cache s'))
  /\ (forall u, u ∈ cache_keys (web_cache s')
                <-> u ∈ cache_keys (web_cache s) \/ u ∈ urls)
  /\ (forall u v, cache_lookup u (web_cache s) = Some v ->
                  cache_lookup u (web_cache s') = Some v)
  /\ (forall u, u ∈ urls -> u ∉ cache_keys (web_cache s) ->
                count_occ string_dec (downloads_of e) u = 1)
  /\ (forall u, u ∉ urls \/ u ∈ cache_keys (web_cache s) ->
                count_occ string_dec (downloads_of e) u = 0)
  /\ (forall i u, urls !! i = Some u ->
        exists v, outcomes !! i = Some (Ok v)
                  /\ cache_lookup u (web_cache s') = Some v).
Proof.
  induction urls as [|url rest IH]; intros s outcomes s' e Hnd Hsize; simpl.
  - intros [= <- <- <-] _.
    split; [done|]. split; [|split; [done|split; [|split; [done|]]]].
    + intros u. rewrite elem_of_nil. naive_solver.
    + by intros u ?%not_elem_of_nil.
    + by intros i u.
  - destruct (cache_lookup url (web_cache s)) as [v|] eqn:Hlook.
    + (* hit *)
      rewrite (get_web_thumnail_hit url s v Hlook).
      set (s1 := with_cache s _).
      destruct (resolve_all env rest s1) as [[rs s2] e2] eqn:E2.
      intros [= <- <- <-] [_ Hok]%andb_prop.
      assert (Hin : url ∈ cache_keys (web_cache s)).
      { destruct (decide (url ∈ cache_keys (web_cache s))) as [|Hn]; [done|].
        apply cache_lookup_None in Hn. congruence. }
      assert (Hkeys1 : forall u, u ∈ cache_keys (web_cache s1)
                                 <-> u ∈ cache_keys (web_cache s)).
      { intros u. simpl. rewrite elem_of_cons, cache_keys_remove.
        destruct (decide (u = url)); naive_solver. }
      assert (Hnd1 : NoDup (cache_keys (web_cache s1))).
      { simpl. apply NoDup_cons. split; [|by apply cache_keys_remove_NoDup].
        rewrite cache_keys_remove. naive_solver. }
      assert (Hsize1 : size (list_to_set (cache_keys (web_cache s1) ++ rest) : gset string)
                       <= lru_maxsize).
      { etransitivity; [|exact Hsize]. apply subseteq_size.
        intros u. rewrite !elem_of_list_to_set, !elem_of_app, Hkeys1, elem_of_cons.
        naive_solver. }
      assert (Hlook1 : forall u w, cache_lookup u (web_cache s) = Some w ->
                                   cache_lookup u (web_cache s1) = Some w).
      { intros u w Hu. simpl. destruct (String.eqb_spec url u) as [<-|Hne].
        - congruence.
        - rewrite cache_lookup_remove by done. exact Hu. }
      destruct (IH s1 rs s2 e2 Hnd1 Hsize1 E2 Hok) as (Hnd2 & Hk2 & Hv2 & Hc1 & Hc0 & Ho).
      split; [done|]. split; [|split; [|split; [|split]]].
      * intros u. rewrite Hk2, Hkeys1, elem_of_cons. naive_solver.
      * intros u w Hu. apply Hv2, Hlook1, Hu.
      * intros u [->|Hu]%elem_of_cons Hnot; [done|]. simpl. apply Hc1; [done|].
        by rewrite Hkeys1.
      * intros u Hu. simpl. apply Hc0. rewrite Hkeys1, not_elem_of_cons in *.
        naive_solver.
      * intros [|i] u; simpl.
        -- intros [= <-]. exists v. split; [done|]. apply Hv2, Hlook1, Hlook.
        -- apply Ho.
    + (* miss *)
      destruct (get_web_thumnail_miss url s Hlook) as (r & s1' & e1 & Hd & Hc & ->).
      assert (Hnot : url ∉ cache_keys (web_cache s)) by by apply cache_lookup_None.
      destruct r as [v|x].
      2:{ destruct (resolve_all env rest s1') as [[rs s2] e2].
          intros [= <- <- <-] [[=] _]%andb_prop. }
      rewrite (proj2 (Nat.ltb_lt _ _) (cache_length_bound _ _ _ Hnd Hnot Hsize)).
      set (s1 := with_cache s1' _).
      destruct (resolve_all env rest s1) as [[rs s2] e2] eqn:E2.
      intros [= <- <- <-] [_ Hok]%andb_prop.
      assert (Hnd1 : NoDup (cache_keys (web_cache s1))).
      { simpl. apply NoDup_cons. done. }
      assert (Hsize1 : size (list_to_set (cache_keys (web_cache s1) ++ rest) : gset string)
                       <= lru_maxsize).
      { etransitivity; [|exact Hsize]. apply subseteq_size.
        simpl. set_solver. }
      assert (Hlook1 : forall u w, cache_lookup u (web_cache s) = Some w ->
                                   cache_lookup u (web_cache s1) = Some w).
      { intros u w Hu. simpl. destruct (String.eqb_spec url u) as [<-|Hne]; congruence. }
      destruct (IH s1 rs s2 e2 Hnd1 Hsize1 E2 Hok) as (Hnd2 & Hk2 & Hv2 & Hc1 & Hc0 & Ho).
      split; [done|]. split; [|split; [|split; [|split]]].
      * intros u. rewrite Hk2. simpl. rewrite !elem_of_cons. naive_solver.
      * intros u w Hu. apply Hv2, Hlook1, Hu.
      * intros u Hu Hnu. rewrite downloads_of_app, Hd, count_occ_app. simpl.
        destruct (string_dec url u) as [<-|Hne].
        -- rewrite Hc0; [done|]. right. simpl. left.
        -- apply elem_of_cons in Hu as [->|Hu]; [done|].
           rewrite Hc1; [done|done|]. simpl. rewrite not_elem_of_cons. naive_solver.
      * intros u Hu. rewrite downloads_of_app, Hd, count_occ_app. simpl.
        destruct (string_dec url u) as [<-|Hne].
        -- destruct Hu as [Hu|Hu]; [|done]. destruct Hu. left.
        -- rewrite Hc0; [done|]. simpl. rewrite not_elem_of_cons, elem_of_cons in *.
           naive_solver.
      * intros [|i] u; simpl.
        -- intros [= <-]. exists v. split; [done|]. apply Hv2. simpl.
           by rewrite String.eqb_refl.
        -- apply Ho.
Qed.

(** C8 (amended): in a sequence of artwork resolutions that starts with an
    empty cache, involves at most 128 distinct URLs and in which no
    resolution raises, every URL is requested over HTTP exactly once, all
    resolutions of one URL return the same result, and every URL is still
    in the cache at the end. *)
Theorem one_download_per_url urls s outcomes s' e :
  web_cache s = [] ->
  size (list_to_set urls : gset string) <= lru_maxsize ->
  resolve_all env urls s = (outcomes, s', e) ->
  forallb is_ok outcomes = true ->
  (forall u, u ∈ urls -> count_occ string_dec (downloads_of e) u = 1)
  /\ (forall i j u, urls !! i = Some u -> urls !! j = Some u ->
                    outcomes !! i = outcomes !! j)
  /\ (forall u, u ∈ urls -> is_Some (cache_lookup u (web_cache s'))).
Proof.
  intros Hempty Hsize E Hok.
  destruct (resolve_all_inv urls s outcomes s' e) as (_ & Hk & _ & Hc1 & _ & Ho);
    rewrite ?Hempty; simpl; try done; [constructor|].
  split; [|split].
  - intros u Hu. apply Hc1; [done|]. rewrite Hempty. apply not_elem_of_nil.
  - intros i j u Hi Hj. destruct (Ho i u Hi) as (v & -> & Hv).
    destruct (Ho j u Hj) as (v' & -> & Hv'). congruence.
  - intros u Hu. destruct (decide (is_Some (cache_lookup u (web_cache s')))) as [|Hn]; [done|].
    exfalso. apply eq_None_not_Some in Hn. apply cache_lookup_None in Hn.
    apply Hn, Hk. by right.
Qed.

(** ** Failures stay in their slot *)

(** A loop whose iteration appends the slot of the events it emits. *)
Lemma for_slots {X Y} (body : X -> list Y -> M W (list Y)) (slot : event -> list Y) :
  (forall x acc s, exists v s1 e1,
      body x acc s = (Ok (acc ++ [v]), s1, e1) /\ flat_map slot e1 = [v]) ->
  forall l acc s, exists s' es,
    for_ l body acc s = (Ok (acc ++ flat_map slot es), s', es)
    /\ length (flat_map slot es) = length l.
Proof.
  intros Hb. induction l as [|x l IH]; intros acc s.
  - exists s, []. simpl. by rewrite app_nil_r.
  - destruct (Hb x acc s) as (v & s1 & e1 & E1 & Hv).
    destruct (IH (acc ++ [v]) s1) as (s' & es & E & Hlen).
    exists s', (e1 ++ es). rewrite for_cons, (bind_run _ _ _ _ _ _ E1), E.
    rewrite flat_map_app, Hv, <- app_assoc. simpl. auto.
Qed.

Lemma call_body_slot (m : method) (h : M W (list bool) -> exn -> option (M W (list bool))) :
  (forall k, h k DBusException = Some k) ->
  forall (iface : proxy) (status : list bool) s, exists v s1 e1,
    try_except (bind (iface_call env iface m) (fun _ => ret (status ++ [true])))
               (h (ret (status ++ [false]))) s
    = (Ok (status ++ [v]), s1, e1) /\ flat_map call_slot e1 = [v].
Proof.
  intros Hh iface status s. unfold try_except, bind, iface_call, ret.
  destruct (call_method env (world s) (bus_name iface) m) as [[|] w]; simpl.
  - eauto.
  - rewrite Hh. simpl. eauto.
Qed.

Lemma status_body_slot (iface : proxy) (status : list (option string)) s :
  exists v s1 e1,
    try_except (bind (prop_playback_status env iface) (fun st => ret (status ++ [Some st])))
               (on_key_index_dbus (ret (status ++ [None]))) s
    = (Ok (status ++ [v]), s1, e1) /\ flat_map status_slot e1 = [v].
Proof.
  unfold try_except, bind, prop_playback_status, ret.
  destruct (get_playback_status env (world s) (bus_name iface)); simpl; eauto.
Qed.

Lemma title_body_slot (iface : proxy) (titles : list (option string)) s :
  exists v s1 e1,
    try_except
      (bind (prop_metadata env iface) (fun metadata =>
         match xesam_title metadata with
         | Some t => ret (titles ++ [Some t])
         | None => raise KeyError
         end))
      (on_key_index_dbus (ret (titles ++ [None]))) s
    = (Ok (titles ++ [v]), s1, e1) /\ flat_map title_slot e1 = [v].
Proof.
  unfold try_except, bind, prop_metadata, ret, raise.
  destruct (get_metadata env (world s) (bus_name iface)) as [[[t|] ? ?]|]; simpl; eauto.
Qed.

Lemma artist_body_slot (iface : proxy) (titles : list (option string)) s :
  exists v s1 e1,
    try_except
      (bind (prop_metadata env iface) (fun metadata =>
         match xesam_artist metadata with
         | Some (a :: _) => ret (titles ++ [Some a])
         | Some [] => raise IndexError
         | None => raise KeyError
         end))
      (on_key_index_dbus (ret (titles ++ [None]))) s
    = (Ok (titles ++ [v]), s1, e1) /\ flat_map artist_slot e1 = [v].
Proof.
  unfold try_except, bind, prop_metadata, ret, raise.
  destruct (get_metadata env (world s) (bus_name iface)) as [[? [[|a ?]|] ?]|]; simpl; eauto.
Qed.

(** An operation of the shape resolve, loop, compress, whose loop fills
    one slot for each endpoint. *)
Lemma ifaces_op_slots {Y} `{EqDecision Y} f (body : proxy -> list Y -> M W (list Y))
  (slot : event -> list Y) s ps :
  (forall x acc s, exists v s1 e1,
      body x acc s = (Ok (acc ++ [v]), s1, e1) /\ flat_map slot e1 = [v]) ->
  (forall e, is_registry_event e || is_identity_event e = true -> slot e = []) ->
  registry env s = Some ps ->
  exists s' e,
    bind (get_matching_ifaces env f)
         (fun ifaces => bind (for_ ifaces body []) (fun l => ret (compress_list l))) s
    = (Ok (compress_list (flat_map slot e)), s', e)
    /\ length (flat_map slot e) = length (List.filter (answers env f (world s)) ps).
Proof.
  intros Hb Hslot Hreg. unfold bind at 1. rewrite get_matching_ifaces_eq, Hreg.
  destruct (for_slots body slot Hb (List.filter (answers env f (world s)) ps) []
              (refreshed env s)) as (s' & es & E & Hlen).
  unfold bind, ret. rewrite E. simpl.
  exists s', ((refresh_events env (world s) ++ identity_events env (world s) ps) ++ es).
  rewrite app_nil_r, (flat_map_of_run slot _ _ _ Hslot). done.
Qed.

Lemma active_player_scan_ok players : forall s,
  is_ok (fst (fst (active_player_scan env players s))) = true.
Proof.
  induction players as [|p players IH]; intros s; simpl; [done|].
  unfold bind at 1, try_except at 1, bind at 1, prop_playback_status at 1.
  destruct (get_playback_status env (world s) (bus_name p)) as [st|]; simpl.
  - destruct (String.eqb st "Playing"); simpl.
    + unfold bind at 1, prop_identity at 1.
      destruct (get_identity env (world s) (bus_name p)) as [name|]; simpl.
      * done.
      * specialize (IH s). by destruct (active_player_scan env players s) as [[? ?] ?].
    + specialize (IH s). by destruct (active_player_scan env players s) as [[? ?] ?].
  - specialize (IH s). by destruct (active_player_scan env players s) as [[? ?] ?].
Qed.

Lemma get_active_player_name_ok s :
  is_Some (registry env s) ->
  is_ok (fst (fst (get_active_player_name env s))) = true.
Proof.
  intros [ps Hreg]. unfold get_active_player_name.
  rewrite (bind_run _ _ _ _ _ _ (update_players_eq s)).
  unfold bind at 1, read_mpris_players at 1, bind at 1, get_self at 1.
  unfold registry in Hreg. rewrite Hreg. simpl.
  unfold bind at 1.
  pose proof (active_player_scan_ok ps (refreshed env s)) as Hok.
  destruct (active_player_scan env ps (refreshed env s)) as [[[[name|]|x] s1] e1];
    simpl in *; done.
Qed.

Lemma get_player_names_ok d s : is_ok (fst (fst (get_player_names env d s))) = true.
Proof.
  unfold get_player_names, bind at 1.
  match goal with |- context [try_except ?m ?h s] =>
    destruct (try_except m h s) as [[[r|x] s1] e1] eqn:E end; [done|].
  exfalso. unfold try_except in E.
  match type of E with context [bind ?m ?k s] =>
    destruct (bind m k s) as [[[?|?] ?] ?] end; simpl in E; discriminate.
Qed.

(** X20: on a controller whose registry has been assigned,
    [pause], [play], [toggle], [stop], [next], [previous], [status],
    [title], [artist], [get_active_player_name] and [get_player_names]
    return without raising, whatever the endpoints answer.  The list a
    command compresses has one slot for each resolved endpoint, holding the
    outcome of that endpoint's own call ([True] where [play] skips it); the
    list a query compresses holds, for each endpoint, what that endpoint
    answered, [None] where its read failed or the field is missing.
    Nothing is stated about [thumbnail]. *)
Theorem failures_stay_in_their_slot o s r s' e ps :
  run_op env o s = (r, s', e) ->
  registry env s = Some ps ->
  let n f := length (List.filter (answers env f (world s)) ps) in
  match o with
  | OpPause f | OpStop f | OpNext f | OpPrevious f =>
      r = Ok (RFlags (compress_list (call_results e)))
      /\ length (call_results e) = n f
  | OpPlay f =>
      let flags := play_flags (map (should_play f (_previously_playing (self s)))
                                   (targets_seen f e))
                              (call_results e) in
      r = Ok (RFlags (compress_list flags)) /\ length flags = n f
  | OpToggle f =>
      exists e0 e1 (flags : list bool),
        e = e0 ++ e1 /\ forallb is_read e0 = true
        /\ r = Ok (RFlags (compress_list flags)) /\ length flags = n f
        /\ (flags = call_results e1
            \/ flags = play_flags (map (should_play f (_previously_playing (self s)))
                                       (targets_seen f e1))
                                  (call_results e1))
  | OpStatus f =>
      r = Ok (RTexts (compress_list (flat_map status_slot e)))
      /\ length (flat_map status_slot e) = n f
  | OpTitle f =>
      r = Ok (RTexts (compress_list (flat_map title_slot e)))
      /\ length (flat_map title_slot e) = n f
  | OpArtist f =>
      r = Ok (RTexts (compress_list (flat_map artist_slot e)))
      /\ length (flat_map artist_slot e) = n f
  | OpGetActivePlayerName | OpGetPlayerNames _ => is_ok r = true
  | OpThumbnail _ => True
  end.
Proof.
  intros E Hreg n.
  assert (Hsome : is_Some (registry env s)) by (rewrite Hreg; eauto).
  destruct o as [f|f|f|f|f|f|f|f|f|f| |d]; simpl in E;
    apply bind_ret_inv in E as (r0 & E & ->).
  - (* pause *)
    destruct (pause_spec f s _ s' e E)
      as [(Hnone & _)|(_ & -> & _ & _ & _ & _ & Hlen & ps' & Hreg' & Hseen)];
      [congruence|].
    split; [done|]. subst n. simpl. rewrite Hlen, Hseen, length_map. congruence.
  - (* play *)
    destruct (play_spec f s _ s' e E)
      as [(Hnone & _)|(_ & -> & _ & _ & _ & Hlen & ps' & Hreg' & Hseen)];
      [congruence|].
    split; [done|]. subst n. simpl. rewrite Hlen, Hseen, length_map. congruence.
  - (* toggle *)
    rewrite toggle_run in E.
    destruct (toggle_choice_run f s) as [(Hnone & _)|(_ & b & e0 & E0)]; [congruence|].
    rewrite E0 in E.
    assert (He0 : forallb is_read e0 = true).
    { clear E. unfold toggle_choice in E0. unfold bind in E0.
      rewrite get_matching_players_eq, Hreg in E0.
      match type of E0 with context [toggle_scan env ?t ?s1] =>
        destruct (toggle_scan_run t s1) as (evs & Es & Hevs); rewrite Es in E0 end.
      injection E0 as _ <-. rewrite !forallb_app, Hevs, andb_true_r.
      apply andb_true_intro. split.
      - pose proof (refresh_events_kind (world s)) as H.
        rewrite forallb_forall in *. intros x Hx. specialize (H x Hx). by destruct x.
      - clear. induction ps; simpl; auto. }
    destruct b.
    + destruct (pause env f (refreshed env s)) as [[r1 s1] e1] eqn:E1.
      simpl in E. injection E as ? ? ?; subst.
      destruct (pause_spec f _ _ _ _ E1)
        as [(Hnone & _)|(_ & -> & _ & _ & _ & _ & Hlen & ps' & Hreg' & Hseen)].
      { rewrite registry_refreshed in Hnone. congruence. }
      rewrite registry_refreshed, world_refreshed in *.
      exists e0, e1, (call_results e1). repeat split; try done; [|by left].
      subst n. simpl. rewrite Hlen, Hseen, length_map. congruence.
    + destruct (play env f (refreshed env s)) as [[r1 s1] e1] eqn:E1.
      simpl in E. injection E as ? ? ?; subst.
      destruct (play_spec f _ _ _ _ E1)
        as [(Hnone & _)|(_ & -> & _ & _ & _ & Hlen & ps' & Hreg' & Hseen)].
      { rewrite registry_refreshed in Hnone. congruence. }
      rewrite registry_refreshed, world_refreshed, pp_refreshed in *.
      eexists e0, e1, _. repeat split; try done; [|by right].
      subst n. simpl. rewrite Hlen, Hseen, length_map. congruence.
  - (* stop *)
    destruct (ifaces_op_slots f _ call_slot s ps
                (call_body_slot Stop (fun k => on_dbus k) (fun k => eq_refl))
                ltac:(by intros []) Hreg) as (s1 & e1 & E1 & Hlen).
    pose proof (eq_trans (eq_sym E) E1) as H. injection H as -> -> ->. done.
  - (* next *)
    destruct (ifaces_op_slots f _ call_slot s ps
                (call_body_slot Next (fun k => on_dbus k) (fun k => eq_refl))
                ltac:(by intros []) Hreg) as (s1 & e1 & E1 & Hlen).
    pose proof (eq_trans (eq_sym E) E1) as H. injection H as -> -> ->. done.
  - (* previous *)
    destruct (ifaces_op_slots f _ call_slot s ps
                (call_body_slot Previous (fun k => on_key_index_dbus k) (fun k => eq_refl))
                ltac:(by intros []) Hreg) as (s1 & e1 & E1 & Hlen).
    pose proof (eq_trans (eq_sym E) E1) as H. injection H as -> -> ->. done.
  - (* status *)
    destruct (ifaces_op_slots f _ status_slot s ps status_body_slot
                ltac:(by intros []) Hreg) as (s1 & e1 & E1 & Hlen).
    pose proof (eq_trans (eq_sym E) E1) as H. injection H as -> -> ->. done.
  - (* title *)
    destruct (ifaces_op_slots f _ title_slot s ps title_body_slot
                ltac:(by intros []) Hreg) as (s1 & e1 & E1 & Hlen).
    pose proof (eq_trans (eq_sym E) E1) as H. injection H as -> -> ->. done.
  - (* artist *)
    destruct (ifaces_op_slots f _ artist_slot s ps artist_body_slot
                ltac:(by intros []) Hreg) as (s1 & e1 & E1 & Hlen).
    pose proof (eq_trans (eq_sym E) E1) as H. injection H as -> -> ->. done.
  - done.
  - pose proof (get_active_player_name_ok s Hsome) as Hok. rewrite E in Hok.
    by destruct r0.
  - pose proof (get_player_names_ok d s) as Hok. rewrite E in Hok. by destruct r0.
Qed.

(** ** More on the registry *)

Lemma bind_ret_l {A B} (a : A) (k : A -> M W B) s : bind (ret a) k s = k a s.
Proof. unfold bind, ret. by destruct (k a s) as [[? ?] ?]. Qed.

Lemma get_object_step i (acc : list proxy) s :
  bind (bus_get_object env i) (fun p => ret (acc ++ [p])) s
  = (match get_object env (world s) i with
     | Some b => Ok (acc ++ [{| requested_name := i; bus_name := b |}])
     | None => Raise DBusException
     end, s, [EGetObject i (get_object env (world s) i)]).
Proof.
  unfold bind, bus_get_object, ret. by destruct (get_object env (world s) i).
Qed.

Lemma update_loop names : forall acc s,
  (exists ps e,
      for_ names (fun (i : string) (mpris_players : list proxy) =>
         if is_mpris_name i
         then bind (bus_get_object env i) (fun p => ret (mpris_players ++ [p]))
         else ret mpris_players) acc s = (Ok (acc ++ ps), s, e)
      /\ Forall2 (fun i p => requested_name p = i
                             /\ get_object env (world s) i = Some (bus_name p))
                 (List.filter is_mpris_name names) ps)
  \/ (exists e,
        for_ names (fun (i : string) (mpris_players : list proxy) =>
           if is_mpris_name i
           then bind (bus_get_object env i) (fun p => ret (mpris_players ++ [p]))
           else ret mpris_players) acc s = (Raise DBusException, s, e)
        /\ Exists (fun i => get_object env (world s) i = None)
                  (List.filter is_mpris_name names)).
Proof.
  induction names as [|i names IH]; intros acc s.
  - left. exists [], []. simpl. rewrite app_nil_r. split; [done|constructor].
  - rewrite for_cons. cbv beta. simpl List.filter. destruct (is_mpris_name i).
    + rewrite (bind_run _ _ _ _ _ _ (get_object_step i acc s)).
      destruct (get_object env (world s) i) as [b|] eqn:Hb.
      * destruct (IH (acc ++ [{| requested_name := i; bus_name := b |}]) s)
          as [(ps & e & -> & Hps)|(e & -> & Hex)].
        -- left. exists ({| requested_name := i; bus_name := b |} :: ps),
                    ([EGetObject i (Some b)] ++ e).
           rewrite <- app_assoc. split; [reflexivity|].
           constructor; [done|exact Hps].
        -- right. exists ([EGetObject i (Some b)] ++ e). split; [reflexivity|]. by right.
      * right. exists [EGetObject i None]. split; [reflexivity|]. by left.
    + rewrite bind_ret_l.
      destruct (IH acc s) as [(ps & e & -> & Hps)|(e & -> & Hex)].
      * left. exists ps, e. split; [reflexivity|exact Hps].
      * right. exists e. split; [reflexivity|exact Hex].
Qed.

(** X1: [update_players] never raises and touches nothing but the registry.
    When the bus cannot list its names, or [get_object] fails for one of
    the names that begin with "org.mpris.MediaPlayer2", the whole state is
    left as it was; otherwise the registry becomes the list of proxies of
    exactly those names, in the order of the listing. *)
Theorem update_players_outcome s r s' e :
  update_players env s = (r, s', e) ->
  r = Ok tt
  /\ match list_names env (world s) with
     | None => s' = s
     | Some names =>
         (exists ps,
             s' = with_registry s (Some ps)
             /\ Forall2 (fun i p => requested_name p = i
                                    /\ get_object env (world s) i = Some (bus_name p))
                        (List.filter is_mpris_name names) ps)
         \/ (s' = s
             /\ Exists (fun i => get_object env (world s) i = None)
                       (List.filter is_mpris_name names))
     end.
Proof.
  unfold update_players.
  unfold bind at 1, try_except at 1, bind at 1, bus_list_names at 1.
  destruct (list_names env (world s)) as [names|]; simpl.
  - unfold bind at 1.
    destruct (update_loop names [] s) as [(ps & e1 & -> & Hps)|(e1 & -> & Hex)]; simpl.
    + intros [= <- <- <-]. split; [done|]. left. exists ps. split; [|done].
      by destruct s.
    + intros [= <- <- <-]. split; [done|]. right. by destruct s.
  - intros [= <- <- <-]. by destruct s.
Qed.

(** X2: [get_matching_players] resolves the same endpoints as
    [get_matching_ifaces], each paired with the bus name of its proxy, with
    the same events and final state; and both treat the filter [""] exactly
    as they treat no filter. *)
Theorem resolution_agrees f s :
  get_matching_players env f s
  = (let '(r, s', e) := get_matching_ifaces env f s in
     (match r with
      | Ok ifaces => Ok (map (fun p => (bus_name p, p)) ifaces)
      | Raise x => Raise x
      end, s', e))
  /\ get_matching_ifaces env (Some "") s = get_matching_ifaces env None s
  /\ get_matching_players env (Some "") s = get_matching_players env None s.
Proof.
  rewrite !get_matching_players_eq, !get_matching_ifaces_eq.
  destruct (registry env s) as [ps|]; [|done].
  assert (H : forall p, answers env (Some "") (world s) p = answers env None (world s) p).
  { intros p. unfold answers. by destruct (get_identity env (world s) (bus_name p)). }
  rewrite (List.filter_ext _ _ H). done.
Qed.


(** ** The name queries *)

Lemma announces_no_identity w p :
  get_identity env w (bus_name p) = None -> announces env w p = false.
Proof.
  intros H. unfold announces. rewrite H.
  rewrite (bool_decide_eq_false_2 (is_Some None)) by (by intros [? ?]).
  apply andb_false_r.
Qed.

Lemma announces_not_playing w p :
  get_playback_status env w (bus_name p) <> Some "Playing" -> announces env w p = false.
Proof.
  intros H. unfold announces. by rewrite bool_decide_eq_false_2.
Qed.

Lemma active_player_scan_run ps : forall s,
  (exists before p after name e,
      ps = before ++ p :: after
      /\ forallb (fun q => negb (announces env (world s) q)) before = true
      /\ get_playback_status env (world s) (bus_name p) = Some "Playing"
      /\ get_identity env (world s) (bus_name p) = Some name
      /\ active_player_scan env ps s = (Ok (Some name), with_last_active s (Some name), e))
  \/ (exists e,
        forallb (fun q => negb (announces env (world s) q)) ps = true
        /\ active_player_scan env ps s = (Ok None, s, e)).
Proof.
  induction ps as [|p ps IH]; intros s.
  - right. exists []. done.
  - assert (Hnext : announces env (world s) p = false ->
      (exists before q after name e,
          p :: ps = before ++ q :: after
          /\ forallb (fun q => negb (announces env (world s) q)) before = true
          /\ get_playback_status env (world s) (bus_name q) = Some "Playing"
          /\ get_identity env (world s) (bus_name q) = Some name
          /\ active_player_scan env ps s
             = (Ok (Some name), with_last_active s (Some name), e))
      \/ (exists e,
            forallb (fun q => negb (announces env (world s) q)) (p :: ps) = true
            /\ active_player_scan env ps s = (Ok None, s, e))).
    { intros Hp.
      destruct (IH s) as [(before & q & after & name & e & -> & Hb & Hq & Hn & E)
                         |(e & Hall & E)].
      - left. exists (p :: before), q, after, name, e.
        repeat split; try done. simpl. by rewrite Hp, Hb.
      - right. exists e. split; [|done]. simpl. by rewrite Hp, Hall. }
    destruct (active_player_scan env (p :: ps) s) as [[r s'] e] eqn:Hrun.
    simpl in Hrun.
    unfold bind at 1, try_except at 1, bind at 1, prop_playback_status at 1 in Hrun.
    destruct (get_playback_status env (world s) (bus_name p)) as [st|] eqn:Hst;
      simpl in Hrun.
    + destruct (String.eqb_spec st "Playing") as [->|Hne]; simpl in Hrun.
      * unfold bind at 1, prop_identity at 1 in Hrun.
        destruct (get_identity env (world s) (bus_name p)) as [name|] eqn:Hid;
          simpl in Hrun.
        -- injection Hrun as <- <- <-.
           left. exists [], p, ps, name. eexists. repeat split; done.
        -- destruct (Hnext (announces_no_identity _ _ Hid))
             as [(before & q & after & name & e1 & Hps & Hb & Hq & Hn & E1)
                |(e1 & Hall & E1)];
             rewrite E1 in Hrun; injection Hrun as <- <- <-.
           ++ left. exists before, q, after, name. eexists.
              repeat split; [exact Hps|exact Hb|exact Hq|exact Hn].
           ++ right. eexists. split; [exact Hall|reflexivity].
      * destruct Hnext
             as [(before & q & after & name & e1 & Hps & Hb & Hq & Hn & E1)
                |(e1 & Hall & E1)];
          [apply announces_not_playing; rewrite Hst; congruence| |];
          rewrite E1 in Hrun; injection Hrun as <- <- <-.
        -- left. exists before, q, after, name. eexists.
           repeat split; [exact Hps|exact Hb|exact Hq|exact Hn].
        -- right. eexists. split; [exact Hall|reflexivity].
    + destruct Hnext
             as [(before & q & after & name & e1 & Hps & Hb & Hq & Hn & E1)
                |(e1 & Hall & E1)];
        [apply announces_not_playing; rewrite Hst; congruence| |];
        rewrite E1 in Hrun; injection Hrun as <- <- <-.
      * left. exists before, q, after, name. eexists.
        repeat split; [exact Hps|exact Hb|exact Hq|exact Hn].
      * right. eexists. split; [exact Hall|reflexivity].
Qed.

(** X3: on a controller whose registry is assigned after the refresh,
    [get_active_player_name] returns the identity of the first registered
    player that reports "Playing" and answers the identity query, and
    stores it as the last active player; a playing player whose identity
    read fails is passed over.  When no player qualifies it returns the
    stored last active player and leaves it as it was.  Either way the
    world and the Resume Set are untouched. *)
Theorem get_active_player_name_outcome s r s' e ps :
  get_active_player_name env s = (r, s', e) ->
  registry env s = Some ps ->
  world s' = world s
  /\ _previously_playing (self s') = _previously_playing (self s)
  /\ ((exists before p after name,
          ps = before ++ p :: after
          /\ forallb (fun q => negb (announces env (world s) q)) before = true
          /\ get_playback_status env (world s) (bus_name p) = Some "Playing"
          /\ get_identity env (world s) (bus_name p) = Some name
          /\ r = Ok (Some name)
          /\ _last_active_player (self s') = Some name)
      \/ (forallb (fun q => negb (announces env (world s) q)) ps = true
          /\ r = Ok (_last_active_player (self s))
          /\ _last_active_player (self s') = _last_active_player (self s))).
Proof.
  intros E Hreg. unfold get_active_player_name in E.
  rewrite (bind_run _ _ _ _ _ _ (update_players_eq s)) in E.
  unfold bind at 1, read_mpris_players at 1, bind at 1, get_self at 1 in E.
  unfold registry in Hreg. rewrite Hreg in E. simpl in E.
  assert (Hl : _last_active_player (self (refreshed env s)) = _last_active_player (self s)).
  { unfold refreshed. by destruct (bus_players env (world s)). }
  destruct (active_player_scan_run ps (refreshed env s))
    as [(before & p & after & name & e1 & -> & Hb & Hp & Hn & E1)|(e1 & Hall & E1)];
    rewrite (bind_run _ _ _ _ _ _ E1) in E; simpl in E;
    injection E as <- <- <-; rewrite world_refreshed in *.
  - split; [apply world_refreshed|]. split; [apply pp_refreshed|].
    left. exists before, p, after, name. done.
  - split; [reflexivity|]. split; [apply pp_refreshed|].
    right. rewrite Hl. done.
Qed.

Lemma player_names_loop d ps : forall names s,
  exists k ids e,
    for_partial ps (fun player names =>
       bind (prop_identity env player) (fun name =>
       if d && bool_decide (name ∈ names)
       then ret names
       else ret (names ++ [name]))) names s
    = (Ok (fold_left (fun acc n => if d && bool_decide (n ∈ acc)
                                   then acc else acc ++ [n]) ids names,
           if decide (k = length ps) then None else Some DBusException), s, e)
    /\ k <= length ps
    /\ Forall2 (fun p n => get_identity env (world s) (bus_name p) = Some n)
               (take k ps) ids
    /\ (k = length ps
        \/ exists p, ps !! k = Some p /\ get_identity env (world s) (bus_name p) = None).
Proof.
  induction ps as [|p ps IH]; intros names s.
  - exists 0, [], []. simpl. split; [done|]. split; [lia|].
    split; [constructor|by left].
  - simpl for_partial. unfold bind at 1, prop_identity at 1.
    destruct (get_identity env (world s) (bus_name p)) as [n|] eqn:Hn; simpl.
    + set (names1 := if d && bool_decide (n ∈ names) then names else names ++ [n]).
      assert (E1 : (if d && bool_decide (n ∈ names)
                    then ret names else ret (names ++ [n])) s
                   = (Ok names1, s, [])).
      { subst names1. by destruct (d && bool_decide (n ∈ names)). }
      rewrite E1.
      destruct (IH names1 s) as (k & ids & e & -> & Hk & Hids & Hend).
      exists (S k), (n :: ids). eexists. split; [|split; [|split]].
      * simpl. do 3 f_equal.
        destruct (decide (k = length ps)), (decide (S k = S (length ps))); try done; lia.
      * simpl. lia.
      * simpl. by constructor.
      * destruct Hend as [->|Hend]; [by left|by right].
    + exists 0, []. eexists. simpl. split; [done|]. split; [lia|]. split; [constructor|].
      right. exists p. done.
Qed.

Lemma add_new_NoDup ids : forall acc : list string,
  NoDup acc ->
  let names := fold_left (fun acc n => if true && bool_decide (n ∈ acc)
                                        then acc else acc ++ [n]) ids acc in
  NoDup names /\ forall n, n ∈ names <-> n ∈ acc \/ n ∈ ids.
Proof.
  induction ids as [|i ids IH]; intros acc Hnd; simpl.
  - split; [done|]. intros n. rewrite elem_of_nil. naive_solver.
  - case_bool_decide as Hi.
    + destruct (IH acc Hnd) as [H1 H2]. split; [done|].
      intros n. rewrite H2, elem_of_cons. naive_solver.
    + destruct (IH (acc ++ [i])) as [H1 H2].
      { apply NoDup_app. split; [done|]. split; [|apply NoDup_singleton].
        intros x Hx ->%list_elem_of_singleton. done. }
      split; [done|]. intros n. rewrite H2. set_solver.
Qed.

Lemma get_player_names_run d s ps names ex e :
  mpris_players (self s) = Some ps ->
  for_partial ps (fun player names =>
     bind (prop_identity env player) (fun name =>
     if d && bool_decide (name ∈ names)
     then ret names
     else ret (names ++ [name]))) [] s = (Ok (names, ex), s, e) ->
  get_player_names env d s = (Ok names, s, e ++ []).
Proof.
  intros Hmp E. unfold get_player_names.
  assert (R : read_mpris_players s = (Ok ps, s, [])).
  { unfold read_mpris_players, bind, get_self. rewrite Hmp. reflexivity. }
  match goal with |- context [try_except ?m ?h] =>
    assert (E0 : m s = (Ok (names, ex), s, e))
  end.
  { rewrite (bind_run _ _ _ _ _ _ R). cbv beta iota. rewrite E. reflexivity. }
  rewrite (bind_run _ _ _ _ _ _ (try_except_run _ _ _ _ _ _ E0)).
  reflexivity.
Qed.

Lemma add_all_plain ids : forall acc : list string,
  fold_left (fun acc n => if false && bool_decide (n ∈ acc)
                          then acc else acc ++ [n]) ids acc = acc ++ ids.
Proof.
  induction ids as [|i ids IH]; intros acc; simpl.
  - by rewrite app_nil_r.
  - rewrite IH. by rewrite <- app_assoc.
Qed.

(** X4: [get_player_names] never raises and leaves the state as it is.
    It returns the identities of the registered players up to, and not
    including, the first one whose identity read fails; with
    [remove_duplicates] it returns the same names without repetition; on a
    controller whose registry was never assigned it returns the empty
    list. *)
Theorem get_player_names_outcome s :
  match mpris_players (self s) with
  | None => forall d, get_player_names env d s = (Ok [], s, [])
  | Some ps =>
      exists k ids,
        k <= length ps
        /\ Forall2 (fun p n => get_identity env (world s) (bus_name p) = Some n)
                   (take k ps) ids
        /\ (k = length ps
            \/ exists p, ps !! k = Some p
                         /\ get_identity env (world s) (bus_name p) = None)
        /\ (exists e, get_player_names env false s = (Ok ids, s, e))
        /\ exists names e,
             get_player_names env true s = (Ok names, s, e)
             /\ NoDup names /\ forall n, n ∈ names <-> n ∈ ids
  end.
Proof.
  destruct (mpris_players (self s)) as [ps|] eqn:Hmp.
  - destruct (player_names_loop false ps [] s) as (k & ids & e & E & Hk & Hids & Hend).
    destruct (player_names_loop true ps [] s) as (k' & ids' & e' & E' & Hk' & Hids' & Hend').
    assert (k' = k).
    { destruct (Nat.lt_trichotomy k' k) as [Hlt|[->|Hlt]]; [|done|].
      - destruct Hend' as [->|(p & Hp & Hnone)]; [lia|].
        destruct (Forall2_lookup_l _ _ _ k' p Hids) as (n & _ & Hn).
        { rewrite lookup_take_lt by done. done. }
        congruence.
      - destruct Hend as [->|(p & Hp & Hnone)]; [lia|].
        destruct (Forall2_lookup_l _ _ _ k p Hids') as (n & _ & Hn).
        { rewrite lookup_take_lt by done. done. }
        congruence. }
    subst k'.
    assert (ids' = ids).
    { clear -Hids Hids'. revert ids ids' Hids Hids'.
      induction (take k ps) as [|p l IH]; intros ids ids' H1 H2.
      - apply Forall2_nil_inv_l in H1, H2. congruence.
      - apply Forall2_cons_inv_l in H1 as (n & t & Hn & Ht & ->).
        apply Forall2_cons_inv_l in H2 as (n' & t' & Hn' & Ht' & ->).
        f_equal; [congruence|by apply IH]. }
    subst ids'.
    exists k, ids. split; [done|]. split; [done|]. split; [done|]. split.
    + rewrite add_all_plain in E. rewrite app_nil_l in E.
      eexists. exact (get_player_names_run false s ps ids _ e Hmp E).
    + destruct (add_new_NoDup ids [] (NoDup_nil_2)) as [Hnd Hel].
      eexists _, _. split; [exact (get_player_names_run true s ps _ _ e' Hmp E')|].
      split; [exact Hnd|].
      intros n. rewrite Hel, elem_of_nil. naive_solver.
  - intros d. unfold get_player_names, bind, try_except, read_mpris_players, bind,
      get_self, raise, on_any, ret. rewrite Hmp. reflexivity.
Qed.


(** ** Commands without memory and queries *)

Lemma call_loop (m : method)
  (h : M W (list bool) -> exn -> option (M W (list bool))) :
  (forall k, h k DBusException = Some k) ->
  forall (l : list proxy) acc s, exists s' es,
    for_ l (fun iface status =>
              try_except (bind (iface_call env iface m) (fun _ => ret (status ++ [true])))
                         (h (ret (status ++ [false])))) acc s
    = (Ok (acc ++ call_results es), s', es)
    /\ same_but_world s s'
    /\ calls_of es = map (fun p => (bus_name p, m)) l
    /\ length (call_results es) = length l.
Proof.
  intros Hh. induction l as [|p l IH]; intros acc s.
  - exists s, []. simpl. rewrite app_nil_r. by repeat split.
  - assert (E1 : exists ok w,
      try_except (bind (iface_call env p m) (fun _ => ret (acc ++ [true])))
                 (h (ret (acc ++ [false]))) s
      = (Ok (acc ++ [ok]), set_world s w, [ECall (bus_name p) m ok])).
    { unfold try_except, bind, iface_call, ret.
      destruct (call_method env (world s) (bus_name p) m) as [[|] w]; simpl.
      - by exists true, w.
      - rewrite Hh. simpl. by exists false, w. }
    destruct E1 as (ok & w & E1).
    destruct (IH (acc ++ [ok]) (set_world s w)) as (s' & es & E & Hsame & Hc & Hlen).
    exists s', (ECall (bus_name p) m ok :: es).
    rewrite for_cons, (bind_run _ _ _ _ _ _ E1), E. simpl.
    rewrite <- app_assoc. simpl. split; [done|]. split; [|split].
    + destruct Hsame as (H1 & H2 & H3). by repeat split.
    + by rewrite Hc.
    + by rewrite Hlen.
Qed.

Lemma call_op_run (m : method)
  (h : M W (list bool) -> exn -> option (M W (list bool))) f s r s' e ps :
  (forall k, h k DBusException = Some k) ->
  registry env s = Some ps ->
  bind (get_matching_ifaces env f)
       (fun ifaces =>
          bind (for_ ifaces (fun iface status =>
                  try_except (bind (iface_call env iface m)
                                   (fun _ => ret (status ++ [true])))
                             (h (ret (status ++ [false])))) [])
               (fun status => ret (compress_list status))) s = (r, s', e) ->
  calls_of e = map (fun p => (bus_name p, m)) (List.filter (answers env f (world s)) ps)
  /\ r = Ok (compress_list (call_results e))
  /\ length (call_results e) = length (List.filter (answers env f (world s)) ps)
  /\ self s' = self (refreshed env s)
  /\ web_cache s' = web_cache s.
Proof.
  intros Hh Hreg E. revert E. unfold bind at 1. rewrite get_matching_ifaces_eq, Hreg.
  destruct (call_loop m h Hh (List.filter (answers env f (world s)) ps) [] (refreshed env s))
    as (s1 & es & E1 & (Hself & Hcache & _) & Hc & Hlen).
  cbv beta iota. rewrite (bind_run _ _ _ _ _ _ E1). unfold ret. cbv beta iota.
  intros [= <- <- <-].
  rewrite app_nil_r, calls_of_run, call_results_run.
  repeat split; try done.
  rewrite Hcache. unfold refreshed. by destruct (bus_players env (world s)).
Qed.

(** X5: [stop], [next] and [previous] call their method once on each
    endpoint the filter selects, in the order of the registry, whether or
    not earlier calls failed; the result is the compressed list of the
    outcomes of these calls, one per endpoint.  The controller's own
    fields are those of the refresh (Resume Set and last active player
    untouched), and the download cache is as before. *)
Theorem plain_commands_call_each_target m (c : option string -> M W (option (list bool)))
  f s r s' e ps :
  (m = Stop /\ c = stop env) \/ (m = Next /\ c = next env)
  \/ (m = Previous /\ c = previous env) ->
  registry env s = Some ps ->
  c f s = (r, s', e) ->
  calls_of e = map (fun p => (bus_name p, m)) (List.filter (answers env f (world s)) ps)
  /\ r = Ok (compress_list (call_results e))
  /\ length (call_results e) = length (List.filter (answers env f (world s)) ps)
  /\ self s' = self (refreshed env s)
  /\ web_cache s' = web_cache s.
Proof.
  intros [[-> ->]|[[-> ->]|[-> ->]]] Hreg E.
  - exact (call_op_run Stop (@on_dbus W _) f s r s' e ps (fun _ => eq_refl) Hreg E).
  - exact (call_op_run Next (@on_dbus W _) f s r s' e ps (fun _ => eq_refl) Hreg E).
  - exact (call_op_run Previous (@on_key_index_dbus W _) f s r s' e ps
             (fun _ => eq_refl) Hreg E).
Qed.

Lemma forallb_weaken {X} (P Q : X -> bool) l :
  (forall x, P x = true -> Q x = true) -> forallb P l = true -> forallb Q l = true.
Proof.
  intros H. induction l as [|x l IH]; simpl; [done|].
  intros [Hx Hl]%andb_true_iff. by rewrite (H x Hx), IH.
Qed.

Lemma read_loop {Y} (body : proxy -> list Y -> M W (list Y)) (g : W -> proxy -> Y) :
  (forall p acc s, exists e1,
      body p acc s = (Ok (acc ++ [g (world s) p]), s, e1) /\ forallb is_read e1 = true) ->
  forall l acc s, exists es,
    for_ l body acc s = (Ok (acc ++ map (g (world s)) l), s, es)
    /\ forallb is_read es = true.
Proof.
  intros Hb. induction l as [|p l IH]; intros acc s.
  - exists []. simpl. by rewrite app_nil_r.
  - destruct (Hb p acc s) as (e1 & E1 & H1).
    destruct (IH (acc ++ [g (world s) p]) s) as (es & E & Hes).
    exists (e1 ++ es). rewrite for_cons, (bind_run _ _ _ _ _ _ E1), E.
    rewrite <- app_assoc. simpl. split; [done|].
    rewrite forallb_app. by rewrite H1, Hes.
Qed.

Lemma read_op_run {Y} `{EqDecision Y} (body : proxy -> list Y -> M W (list Y))
  (g : W -> proxy -> Y) f s ps :
  (forall p acc s, exists e1,
      body p acc s = (Ok (acc ++ [g (world s) p]), s, e1) /\ forallb is_read e1 = true) ->
  registry env s = Some ps ->
  exists e,
    bind (get_matching_ifaces env f)
         (fun ifaces => bind (for_ ifaces body []) (fun l => ret (compress_list l))) s
    = (Ok (compress_list (map (g (world s)) (List.filter (answers env f (world s)) ps))),
       refreshed env s, e)
    /\ forallb is_read e = true.
Proof.
  intros Hb Hreg. unfold bind at 1. rewrite get_matching_ifaces_eq, Hreg.
  destruct (read_loop body g Hb (List.filter (answers env f (world s)) ps) []
              (refreshed env s)) as (es & E & Hes).
  unfold bind, ret. rewrite E. rewrite world_refreshed. simpl.
  eexists. split; [reflexivity|].
  rewrite app_nil_r, !forallb_app, Hes.
  rewrite (forallb_weaken is_registry_event is_read _ (fun x => ltac:(by destruct x))
             (refresh_events_kind (world s))).
  rewrite (forallb_weaken is_identity_event is_read _ (fun x => ltac:(by destruct x))
             (identity_events_kind (world s) ps)).
  done.
Qed.

(** X6: on a controller whose registry is assigned after the refresh,
    [status], [title] and [artist] never raise and only read: every event
    is a read of the bus, the state afterwards is the refreshed state, and
    the result is the compressed list of what each selected endpoint
    answers in the world of the call, in registry order: its playback
    status, the title of its metadata, the first artist of its metadata,
    and [None] where the read fails or the field is missing or empty. *)
Theorem queries_read_each_target f s ps :
  registry env s = Some ps ->
  (exists e,
      status env f s
      = (Ok (compress_list (map (status_of env (world s))
                                (List.filter (answers env f (world s)) ps))),
         refreshed env s, e)
      /\ forallb is_read e = true)
  /\ (exists e,
        title env f s
        = (Ok (compress_list (map (title_of env (world s))
                                  (List.filter (answers env f (world s)) ps))),
           refreshed env s, e)
        /\ forallb is_read e = true)
  /\ (exists e,
        artist env f s
        = (Ok (compress_list (map (artist_of env (world s))
                                  (List.filter (answers env f (world s)) ps))),
           refreshed env s, e)
        /\ forallb is_read e = true).
Proof.
  intros Hreg. split; [|split].
  - apply (read_op_run _ (status_of env)); [|done].
    intros p acc s0. unfold try_except, bind, prop_playback_status, status_of, ret.
    destruct (get_playback_status env (world s0) (bus_name p)); simpl; eauto.
  - apply (read_op_run _ (title_of env)); [|done].
    intros p acc s0. unfold try_except, bind, prop_metadata, title_of, ret, raise.
    destruct (get_metadata env (world s0) (bus_name p)) as [md|]; simpl; [|eauto].
    destruct (xesam_title md); simpl; eauto.
  - apply (read_op_run _ (artist_of env)); [|done].
    intros p acc s0. unfold try_except, bind, prop_metadata, artist_of, ret, raise.
    destruct (get_metadata env (world s0) (bus_name p)) as [md|]; simpl; [|eauto].
    destruct (xesam_artist md) as [[|a l]|]; simpl; eauto.
Qed.


(** ** The postconditions of [pause] and [play] *)

Lemma play_flags_skipped called : forall oks i,
  length (play_flags called oks) = length called ->
  called !! i = Some false -> play_flags called oks !! i = Some true.
Proof.
  induction called as [|[|] called IH]; intros oks i Hlen Hi; [done| |].
  - destruct i as [|i]; [done|]. simpl in *.
    destruct oks as [|ok oks]; [done|]. simpl in *. apply IH; [lia|done].
  - destruct i as [|i]; [done|]. simpl in *. apply IH; [lia|done].
Qed.

(** X7: [play] as the code behaves.  With any filter other than [None],
    the empty string included, or with an empty Resume Set, [Play] is
    called on every selected endpoint; with no filter and a non-empty
    Resume Set it is called on the selected endpoints the set holds, in
    registry order.  The result is the compression of one flag per
    selected endpoint, [True] for each endpoint that was skipped, and the
    Resume Set is empty afterwards whatever the calls answered. *)
Theorem play_postcondition f s r s' e ps :
  play env f s = (r, s', e) ->
  registry env s = Some ps ->
  _previously_playing (self s') = ∅
  /\ calls_of e
     = map (fun b => (b, Play))
           (List.filter (should_play f (_previously_playing (self s)))
                        (map bus_name (List.filter (answers env f (world s)) ps)))
  /\ exists flags,
       r = Ok (compress_list flags)
       /\ length flags = length (List.filter (answers env f (world s)) ps)
       /\ forall i p, List.filter (answers env f (world s)) ps !! i = Some p ->
            should_play f (_previously_playing (self s)) (bus_name p) = false ->
            flags !! i = Some true.
Proof.
  intros E Hreg.
  destruct (play_spec f s r s' e E)
    as [(Hnone & _)|(_ & -> & Hpp & _ & Hc & Hlen & ps' & Hps' & Hseen)].
  { congruence. }
  assert (ps' = ps) as -> by congruence.
  rewrite Hseen in *. split; [done|]. split; [done|].
  eexists. split; [reflexivity|]. rewrite length_map in Hlen. split; [done|].
  intros i p Hi Hskip. apply play_flags_skipped.
  - by rewrite !length_map.
  - rewrite !list_lookup_fmap, Hi. simpl. by rewrite Hskip.
Qed.

(** X8: [pause] reads the status of every selected endpoint once and calls
    [Pause] on every one of them, playing or not, in registry order; the
    result is the compressed list of the outcomes of the calls.  When some
    status read answered "Playing", the Resume Set becomes exactly the set
    of endpoints that answered so: it replaces the old set instead of
    joining it, and an endpoint is remembered even when its [Pause] call
    fails.  Otherwise the Resume Set stays as it was. *)
Theorem pause_postcondition f s r s' e ps :
  pause env f s = (r, s', e) ->
  registry env s = Some ps ->
  map fst (status_reads e) = map bus_name (List.filter (answers env f (world s)) ps)
  /\ calls_of e
     = map (fun b => (b, Pause)) (map bus_name (List.filter (answers env f (world s)) ps))
  /\ r = Ok (compress_list (call_results e))
  /\ length (call_results e) = length (List.filter (answers env f (world s)) ps)
  /\ _previously_playing (self s')
     = (if decide (playing_in e ≠ ∅) then playing_in e
        else _previously_playing (self s)).
Proof.
  intros E Hreg.
  destruct (pause_spec f s r s' e E)
    as [(Hnone & _)|(_ & -> & Hpp & _ & Hc & Hst & Hlen & ps' & Hps' & Hseen)].
  { congruence. }
  assert (ps' = ps) as -> by congruence.
  rewrite Hseen in *. rewrite length_map in Hlen. done.
Qed.


(** ** Downloads *)

Ltac destruct_innermost_in H :=
  match type of H with
  | context [match ?t with _ => _ end] =>
      lazymatch t with
      | context [match _ with _ => _ end] => fail
      | _ => destruct t eqn:?
      end
  end.

(** X9: [download_file], from what the request answers to what the call
    does.  When the request fails it returns [None] and nothing else
    happens.  A response without content type raises [KeyError], and a
    content type without exactly one "/" raises [ValueError], in both cases
    before any file is touched.  Otherwise the target is the directory
    joined with the file name (the given one, or the base name of the URL's
    path) stripped of its extension and extended by "." and the part of the
    content type after the "/": the call returns that path exactly when the
    directory was made, the file opened and the content of the response
    written to it; it raises [OSError] exactly when the last of these calls
    failed, and the error of reading the content when the response has
    none, the file being open by then.  It never returns [None] for a
    request that was answered.  The controller's fields and the download
    cache are never touched. *)
Theorem download_file_outcome url path fn s r s' e :
  download_file env url path fn s = (r, s', e) ->
  self s' = self s /\ web_cache s' = web_cache s
  /\ match fst (http_get env (world s) url) with
     | None => r = Ok None /\ e = [EHttpGet url None]
     | Some resp =>
         match content_type resp with
         | None => r = Raise KeyError /\ e = [EHttpGet url (Some resp)]
         | Some header =>
             match py_split_all "/" header with
             | [_; ext] =>
                 exists tail,
                   e = EHttpGet url (Some resp) :: tail
                   /\ match r with
                      | Ok (Some p) =>
                          p = download_target env url path fn ext
                          /\ exists data,
                               content resp = Some data
                               /\ tail = makedirs_events p
                                         ++ [EOpen p true; EWrite p data true]
                      | Ok None => False
                      | Raise x =>
                          (x = OSError
                           /\ exists ev, last tail = Some ev /\ failed_file_op ev)
                          \/ (x = RequestException
                              /\ content resp = None
                              /\ tail = makedirs_events
                                          (download_target env url path fn ext)
                                        ++ [EOpen (download_target env url path fn ext)
                                                  true])
                      end
             | _ => r = Raise ValueError /\ e = [EHttpGet url (Some resp)]
             end
         end
     end.
Proof.
  intros E.
  unfold download_file, try_except, bind, requests_get, os_makedirs, open_for_writing,
    file_write, on_request_exception, ret, raise, of_bool, of_option in E.
  destruct (http_get env (world s) url) as [[resp|] w] eqn:Hget; simpl in E |- *.
  2: { injection E as ? ? ?; subst r s' e. done. }
  destruct (content_type resp) as [header|] eqn:Hct; simpl in E |- *.
  2: { injection E as ? ? ?; subst r s' e. done. }
  destruct (py_split_all "/" header) as [|major [|ext [|x l]]] eqn:Hsplit; simpl in E |- *.
  1, 2, 4: injection E as ? ? ?; subst r s' e; done.
  unfold makedirs_events, download_target.
  repeat (destruct_innermost_in E; simpl in E).
  all: injection E as ? ? ?; subst r s' e; simpl; split; [done|]; split; [done|].
  all: eexists; split; [reflexivity|].
  all: unfold get_file_name_from_url in *.
  all: repeat match goal with H : negb _ = _ |- _ => rewrite H; clear H end.
  all: first
         [ split; [reflexivity|]; eexists; split; [reflexivity|reflexivity]
         | left; split; [reflexivity|]; eexists; split; [reflexivity|exact I]
         | right; split; [reflexivity|]; split; [reflexivity|reflexivity] ].
Qed.


(** ** The download cache *)

Lemma cache_keys_removelast c : cache_keys (removelast c) = removelast (cache_keys c).
Proof.
  induction c as [|kv c IH]; [done|].
  destruct c as [|kv' c]; [done|].
  change (cache_keys (kv :: removelast (kv' :: c))
          = fst kv :: removelast (cache_keys (kv' :: c))).
  by rewrite <- IH.
Qed.

Lemma removelast_sublist {A} (l : list A) : removelast l `sublist_of` l.
Proof. rewrite removelast_firstn_len. apply sublist_take. Qed.

Lemma removelast_shorter {A} (l : list A) : l <> [] -> S (length (removelast l)) = length l.
Proof.
  intros Hl. rewrite removelast_firstn_len, length_take.
  destruct l; [done|]. simpl. lia.
Qed.

Lemma cache_remove_shorter url c v :
  cache_lookup url c = Some v -> S (length (cache_remove url c)) <= length c.
Proof.
  induction c as [|[k v'] c IH]; simpl; [done|].
  destruct (String.eqb_spec k url) as [->|Hne]; simpl.
  - intros _. clear IH. apply le_n_S.
    induction c as [|[k' v''] c IH]; simpl; [done|].
    destruct (String.eqb k' url); simpl; lia.
  - intros H. specialize (IH H). lia.
Qed.

(** X10: [get_web_thumnail] keeps the download cache well formed: when it
    held each URL at most once and at most 128 entries before the call, it
    does so after the call.  A call that returns leaves its URL as the most
    recent entry, bound to the value returned; a call that raises leaves the
    cache as it was; and a call for a URL the cache holds answers the stored
    value with no event at all and without touching the world. *)
Theorem web_cache_stays_well_formed url s r s' e :
  get_web_thumnail env url s = (r, s', e) ->
  NoDup (cache_keys (web_cache s)) ->
  length (web_cache s) <= lru_maxsize ->
  NoDup (cache_keys (web_cache s'))
  /\ length (web_cache s') <= lru_maxsize
  /\ match r with
     | Ok result => exists rest, web_cache s' = (url, result) :: rest
     | Raise _ => web_cache s' = web_cache s
     end
  /\ forall stored, cache_lookup url (web_cache s) = Some stored ->
       r = Ok stored /\ e = [] /\ world s' = world s.
Proof.
  intros E Hnd Hlen.
  destruct (cache_lookup url (web_cache s)) as [stored|] eqn:Hlook.
  - rewrite (get_web_thumnail_hit url s stored Hlook) in E.
    injection E as ? ? ?; subst r s' e. simpl.
    split; [|split; [|split]].
    + apply NoDup_cons. split; [|by apply cache_keys_remove_NoDup].
      rewrite cache_keys_remove. naive_solver.
    + pose proof (cache_remove_shorter url _ _ Hlook). lia.
    + by eexists.
    + by intros ? [= <-].
  - destruct (get_web_thumnail_miss url s Hlook) as (r0 & s1 & e1 & _ & Hc & E1).
    rewrite E1 in E. apply cache_lookup_None in Hlook.
    destruct r0 as [result|x]; injection E as ? ? ?; subst r s' e; simpl.
    + split; [|split; [|split]]; [| |by eexists|done].
      * apply NoDup_cons. destruct (Nat.ltb_spec (length (web_cache s)) lru_maxsize).
        -- done.
        -- rewrite cache_keys_removelast. split.
           ++ intros Hin. apply Hlook. eapply elem_of_sublist; [exact Hin|].
              apply removelast_sublist.
           ++ eapply sublist_NoDup; [exact Hnd|apply removelast_sublist].
      * destruct (Nat.ltb_spec (length (web_cache s)) lru_maxsize) as [Hlt|Hge].
        -- lia.
        -- rewrite removelast_shorter; [lia|].
           intros Hnil. rewrite Hnil in Hge. unfold lru_maxsize in Hge. simpl in Hge. lia.
    + rewrite Hc. done.
Qed.

(** X11: what [get_web_thumnail] returned once it returns again on the
    next call for the same URL, with no request and no other event; this
    holds for [None], the result of a failed request, as well: a download
    that failed is not tried again while its entry is in the cache. *)
Theorem repeated_resolution_is_cached url s result s' e :
  get_web_thumnail env url s = (Ok result, s', e) ->
  exists s'', get_web_thumnail env url s' = (Ok result, s'', [])
              /\ world s'' = world s'
              /\ self s'' = self s'.
Proof.
  intros E.
  assert (Hhead : exists rest, web_cache s' = (url, result) :: rest).
  { destruct (cache_lookup url (web_cache s)) as [stored|] eqn:Hlook.
    - rewrite (get_web_thumnail_hit url s stored Hlook) in E.
      injection E as ? ? ?; subst. simpl. by eexists.
    - destruct (get_web_thumnail_miss url s Hlook) as (r0 & s1 & e1 & _ & Hc & E1).
      rewrite E1 in E. destruct r0 as [result0|x]; [|discriminate].
      injection E as ? ? ?; subst. simpl. by eexists. }
  destruct Hhead as [rest Hrest].
  assert (Hlook : cache_lookup url (web_cache s') = Some result).
  { rewrite Hrest. simpl. by rewrite String.eqb_refl. }
  rewrite (get_web_thumnail_hit url s' result Hlook).
  eexists. split; [reflexivity|]. done.
Qed.


(** ** Artwork *)

Lemma download_file_quiet url path fn s r s' e :
  download_file env url path fn s = (r, s', e) ->
  calls_of e = [] /\ self s' = self s.
Proof.
  unfold download_file, try_except, bind, requests_get, os_makedirs, open_for_writing,
    file_write, on_request_exception, ret, raise.
  repeat (destruct_innermost; simpl).
  all: intros [= <- <- <-]; simpl; auto.
Qed.

Lemma get_web_thumnail_effects url s r s' e :
  get_web_thumnail env url s = (r, s', e) ->
  calls_of e = [] /\ self s' = self s
  /\ (downloads_of e = [] /\ world s' = world s \/ downloads_of e = [url]).
Proof.
  intros E. destruct (cache_lookup url (web_cache s)) as [stored|] eqn:Hlook.
  - rewrite (get_web_thumnail_hit url s stored Hlook) in E.
    injection E as ? ? ?; subst r s' e. simpl. auto.
  - unfold get_web_thumnail in E. unfold bind at 1, get_web_cache at 1 in E.
    cbv beta iota in E. rewrite Hlook in E.
    match type of E with context [download_file env url ?p None] =>
      destruct (download_file env url p None s) as [[rd sd] ed] eqn:Ed end.
    destruct (download_file_quiet _ _ _ _ _ _ _ Ed) as [Hc Hself].
    destruct (download_file_run _ _ _ _ _ _ _ Ed) as [Hd _].
    rewrite (bind_run _ _ _ _ _ _ Ed) in E.
    destruct rd as [result|x]; [|injection E as ? ? ?; subst r s' e; auto].
    unfold bind, get_web_cache, set_web_cache, ret in E. simpl in E.
    injection E as ? ? ?; subst r s' e. simpl.
    rewrite !app_nil_r. auto.
Qed.

Lemma thumbnail_data_uri_run path s r s' e :
  thumbnail_data_uri env path s = (r, s', e) ->
  e = [] /\ self s' = self s /\ world s' = world s /\ web_cache s' = web_cache s
  /\ (r = Ok None -> s' = s).
Proof.
  unfold thumbnail_data_uri, bind, new_BytesIO, ret, raise.
  repeat (destruct_innermost; simpl).
  all: intros [= <- <- <-]; simpl; repeat split; try done.
Qed.

(** X12: one iteration of [thumbnail] never calls a method of a player
    and never touches the controller's own fields.  It makes at most one
    HTTP request, and only for the artwork reference of the player's
    metadata when that reference starts with "https"; an iteration that
    makes no request leaves the world as it was. *)
Theorem thumbnail_body_effects iface s r s' e :
  thumbnail_body env iface s = (r, s', e) ->
  calls_of e = []
  /\ self s' = self s
  /\ (downloads_of e = [] /\ world s' = world s
      \/ exists md url,
           get_metadata env (world s) (bus_name iface) = Some md
           /\ mpris_artUrl md = Some url
           /\ startswith url "https" = true
           /\ downloads_of e = [url]).
Proof.
  intros E. unfold thumbnail_body in E.
  unfold try_except at 1, bind at 1, prop_metadata at 1 in E.
  destruct (get_metadata env (world s) (bus_name iface)) as [md|] eqn:Hmd; simpl in E.
  2: { injection E as ? ? ?; subst r s' e. simpl. auto. }
  destruct (mpris_artUrl md) as [url|] eqn:Hart.
  2: { simpl in E. injection E as ? ? ?; subst r s' e. simpl. auto. }
  destruct (Nat.eqb (String.length url) 0).
  { simpl in E. injection E as ? ? ?; subst r s' e. simpl. auto. }
  unfold bind at 1 in E.
  destruct (thumbnail_data_uri env url s) as [[inline s1] e1] eqn:Ed.
  destruct (thumbnail_data_uri_run _ _ _ _ _ Ed) as (-> & Hself1 & Hw1 & Hc1 & Hsame).
  destruct inline as [[thumb|]|x].
  - simpl in E. injection E as ? ? ?; subst r s' e. simpl. auto.
  - rewrite (Hsame eq_refl) in *. clear Hsame Ed s1 Hself1 Hw1 Hc1.
    destruct (startswith url "https") eqn:Hhttps.
    + unfold bind at 1 in E.
      destruct (get_web_thumnail env url s) as [[rw sw] ew] eqn:Ew.
      destruct (get_web_thumnail_effects _ _ _ _ _ Ew) as (Hc & Hself & Hd).
      assert (Hout : calls_of (EGetMetadata (bus_name iface) (Some md) :: ew ++ []) = []
                     /\ (downloads_of (EGetMetadata (bus_name iface) (Some md) :: ew ++ []) = []
                         /\ world sw = world s
                         \/ exists md0 url0,
                              Some md = Some md0 /\ mpris_artUrl md0 = Some url0
                              /\ startswith url0 "https" = true
                              /\ downloads_of (EGetMetadata (bus_name iface) (Some md)
                                               :: ew ++ []) = [url0])).
      { rewrite app_nil_r. simpl. split; [done|].
        destruct Hd as [[Hd Hw]|Hd]; [by left|right]. exists md, url. done. }
      destruct rw as [[path|]|x]; simpl in E.
      * destruct (Nat.eqb (String.length path) 0); simpl in E;
          injection E as ? ? ?; subst r s' e; simpl in *;
          rewrite ?app_nil_r in *; tauto.
      * injection E as ? ? ?; subst r s' e; simpl in *; rewrite ?app_nil_r in *; tauto.
      * destruct x; simpl in E; injection E as ? ? ?; subst r s' e; simpl in *;
          rewrite ?app_nil_r in *; tauto.
    + unfold bind, ret in E. simpl in E.
      destruct (Nat.eqb (String.length url) 0); simpl in E;
        injection E as ? ? ?; subst r s' e; simpl; auto.
  - destruct x; simpl in E; injection E as ? ? ?; subst r s' e; simpl; auto.
Qed.


Lemma startswith_data ref :
  startswith ref "data:" = true -> exists rest, ref = "data:" +:+ rest.
Proof.
  unfold startswith. intros H.
  repeat match type of H with
         | String.prefix (String _ _) ?u = true =>
             destruct u as [|? ?]; [discriminate H|]; simpl in H;
             match type of H with
             | (if ?d then _ else _) = true => destruct d; [subst|discriminate H]
             end
         end.
  eexists. reflexivity.
Qed.

(** X13: an artwork reference that starts with "data:" never leads to an
    HTTP request or a cache access.  Split at its first comma into header
    and payload, with the second ";"-separated field of the header as the
    encoding: for "base64" the iteration appends a new buffer holding the
    decoded payload, and raises the decoder's error when the payload does
    not decode; for any other encoding it appends the reference itself as a
    path; a header with no ";" gives [None]; a reference with no comma
    raises [ValueError], which the loop of [thumbnail] does not catch. *)
Theorem data_uri_artwork iface s md ref :
  get_metadata env (world s) (bus_name iface) = Some md ->
  mpris_artUrl md = Some ref ->
  startswith ref "data:" = true ->
  thumbnail_body env iface s
  = match py_split "," 1 ref with
    | [header; payload] =>
        match py_split_all ";" header with
        | _ :: encoding :: _ =>
            if String.eqb encoding "base64"
            then match b64decode env payload with
                 | Some bytes =>
                     (Ok (TBytesIO (next_addr s) bytes),
                      {| self := self s; web_cache := web_cache s;
                         next_addr := S (next_addr s); world := world s |},
                      [EGetMetadata (bus_name iface) (Some md)])
                 | None =>
                     (Raise BinasciiError, s, [EGetMetadata (bus_name iface) (Some md)])
                 end
            else (Ok (TPath (py_replace "file://" "" ref)), s,
                  [EGetMetadata (bus_name iface) (Some md)])
        | _ => (Ok TNone, s, [EGetMetadata (bus_name iface) (Some md)])
        end
    | _ => (Raise ValueError, s, [EGetMetadata (bus_name iface) (Some md)])
    end.
Proof.
  intros Hmd Hart Hdata. destruct (startswith_data _ Hdata) as [rest ->].
  unfold thumbnail_body.
  unfold try_except at 1, bind at 1, prop_metadata at 1. rewrite Hmd. simpl of_option.
  cbv beta iota. rewrite Hart.
  change (Nat.eqb (String.length ("data:" +:+ rest)) 0) with false. cbv beta iota.
  unfold bind at 1, thumbnail_data_uri at 1. rewrite Hdata.
  unfold bind at 1.
  destruct (py_split "," 1 ("data:" +:+ rest)) as [|header [|payload [|x l]]];
    try reflexivity.
  unfold bind, ret, raise, new_BytesIO. simpl.
  destruct (py_split_all ";" header) as [|h0 [|encoding fields]]; try reflexivity.
  destruct (String.eqb encoding "base64"); [|reflexivity].
  destruct (b64decode env payload) as [bytes|]; reflexivity.
Qed.

Lemma py_replace_absent old s :
  occurs old s = false -> py_replace_aux old "" 0 s = s.
Proof.
  induction s as [|c r IH]; [done|].
  cbn [py_replace_aux occurs]. intros [Hp Hr]%orb_false_iff.
  rewrite Hp. f_equal. by apply IH.
Qed.

(** X14: for an endpoint whose artwork reference is "file://" followed by
    a path in which "file://" does not occur again, the iteration of
    [thumbnail] appends that bare path; it makes no HTTP request and leaves
    the state, the download cache included, as it was. *)
Theorem file_uri_artwork_is_the_bare_path iface s md path :
  get_metadata env (world s) (bus_name iface) = Some md ->
  mpris_artUrl md = Some ("file://" +:+ path) ->
  occurs "file://" path = false ->
  thumbnail_body env iface s
  = (Ok (TPath path), s, [EGetMetadata (bus_name iface) (Some md)]).
Proof.
  intros Hmd Hart Habs.
  unfold thumbnail_body, try_except, bind, prop_metadata. rewrite Hmd. simpl.
  rewrite Hart. simpl.
  assert (Hstrip : py_replace "file://" "" ("file://" +:+ path)
                   = py_replace_aux "file://" "" 0 path) by (by destruct path).
  by rewrite Hstrip, (py_replace_absent _ _ Habs).
Qed.


(** ** Artwork served over plain HTTP *)

Lemma startswith_http_not_https url :
  startswith url "http://" = true -> startswith url "https" = false.
Proof. intros [rest ->]%startswith_http. reflexivity. Qed.

Lemma download_file_no_metadata url path fn s r s' e :
  download_file env url path fn s = (r, s', e) -> metadata_reads e = [].
Proof.
  unfold download_file, try_except, bind, requests_get, os_makedirs, open_for_writing,
    file_write, on_request_exception, ret, raise.
  repeat (destruct_innermost; simpl).
  all: intros [= <- <- <-]; simpl; auto.
Qed.

Lemma get_web_thumnail_trace url s r s' e :
  get_web_thumnail env url s = (r, s', e) ->
  metadata_reads e = []
  /\ (forall u, u ∈ downloads_of e -> u = url)
  /\ (forall u, u ∈ cache_keys (web_cache s') -> u = url \/ u ∈ cache_keys (web_cache s)).
Proof.
  intros E. destruct (cache_lookup url (web_cache s)) as [stored|] eqn:Hlook.
  - rewrite (get_web_thumnail_hit url s stored Hlook) in E.
    injection E as ? ? ?; subst r s' e. simpl.
    split; [done|]. split; [by intros u ?%not_elem_of_nil|].
    intros u [->|Hu]%elem_of_cons; [by left|].
    right. by apply cache_keys_remove in Hu as [Hu _].
  - unfold get_web_thumnail in E. unfold bind at 1, get_web_cache at 1 in E.
    cbv beta iota in E. rewrite Hlook in E.
    match type of E with context [download_file env url ?p None] =>
      destruct (download_file env url p None s) as [[rd sd] ed] eqn:Ed end.
    pose proof (download_file_no_metadata _ _ _ _ _ _ _ Ed) as Hmd.
    destruct (download_file_run _ _ _ _ _ _ _ Ed) as [Hd Hc].
    rewrite (bind_run _ _ _ _ _ _ Ed) in E.
    destruct rd as [result|x].
    + unfold bind, get_web_cache, set_web_cache, ret in E. simpl in E.
      injection E as ? ? ?; subst r s' e. simpl. rewrite !app_nil_r, Hd.
      split; [done|]. split; [by intros u ->%list_elem_of_singleton|].
      intros u [->|Hu]%elem_of_cons; [by left|]. right. rewrite <- Hc.
      destruct (Nat.ltb (length (web_cache sd)) lru_maxsize); [done|].
      rewrite cache_keys_removelast in Hu.
      eapply elem_of_sublist; [exact Hu|apply removelast_sublist].
    + injection E as ? ? ?; subst r s' e. rewrite Hd, Hc.
      split; [done|]. split; [by intros u ->%list_elem_of_singleton|]. auto.
Qed.

(** One iteration for a reference that begins with "http://". *)
Lemma http_reference_iteration iface s md url :
  get_metadata env (world s) (bus_name iface) = Some md ->
  mpris_artUrl md = Some url ->
  startswith url "http://" = true ->
  thumbnail_body env iface s
  = (Ok (TPath (py_replace "file://" "" url)), s,
     [EGetMetadata (bus_name iface) (Some md)]).
Proof.
  intros Hmd Hart [rest ->]%startswith_http.
  unfold thumbnail_body, try_except, bind, prop_metadata. rewrite Hmd. simpl.
  rewrite Hart. reflexivity.
Qed.

Lemma thumbnail_body_trace iface s r s' e :
  thumbnail_body env iface s = (r, s', e) ->
  metadata_reads e = [(bus_name iface, get_metadata env (world s) (bus_name iface))]
  /\ (forall u, u ∈ downloads_of e -> startswith u "https" = true)
  /\ (forall u, u ∈ cache_keys (web_cache s') ->
        startswith u "https" = true \/ u ∈ cache_keys (web_cache s)).
Proof.
  intros E. unfold thumbnail_body in E.
  unfold try_except at 1, bind at 1, prop_metadata at 1 in E.
  destruct (get_metadata env (world s) (bus_name iface)) as [md|] eqn:Hmd; simpl in E.
  2: { injection E as ? ? ?; subst r s' e. simpl.
       split; [done|]. split; [by intros u ?%not_elem_of_nil|auto]. }
  destruct (mpris_artUrl md) as [url|] eqn:Hart.
  2: { simpl in E. injection E as ? ? ?; subst r s' e. simpl.
       split; [done|]. split; [by intros u ?%not_elem_of_nil|auto]. }
  destruct (Nat.eqb (String.length url) 0).
  { simpl in E. injection E as ? ? ?; subst r s' e. simpl.
    split; [done|]. split; [by intros u ?%not_elem_of_nil|auto]. }
  unfold bind at 1 in E.
  destruct (thumbnail_data_uri env url s) as [[inline s1] e1] eqn:Ed.
  destruct (thumbnail_data_uri_run _ _ _ _ _ Ed) as (-> & Hself1 & Hw1 & Hc1 & Hsame).
  destruct inline as [[thumb|]|x].
  - simpl in E. injection E as ? ? ?; subst r s' e. simpl. rewrite Hc1.
    split; [done|]. split; [by intros u ?%not_elem_of_nil|auto].
  - rewrite (Hsame eq_refl) in *. clear Hsame Ed s1 Hself1 Hw1 Hc1.
    destruct (startswith url "https") eqn:Hhttps.
    + unfold bind at 1 in E.
      destruct (get_web_thumnail env url s) as [[rw sw] ew] eqn:Ew.
      destruct (get_web_thumnail_trace _ _ _ _ _ Ew) as (Hm & Hd & Hk).
      assert (Hout :
        metadata_reads (EGetMetadata (bus_name iface) (Some md) :: ew ++ [])
        = [(bus_name iface, Some md)]
        /\ (forall u, u ∈ downloads_of (EGetMetadata (bus_name iface) (Some md)
                                        :: ew ++ []) ->
              startswith u "https" = true)
        /\ (forall u, u ∈ cache_keys (web_cache sw) ->
              startswith u "https" = true \/ u ∈ cache_keys (web_cache s))).
      { rewrite app_nil_r. simpl. fold (metadata_reads ew). rewrite Hm.
        split; [done|]. split.
        - intros u Hu. fold (downloads_of ew) in Hu. by rewrite (Hd u Hu).
        - intros u Hu. destruct (Hk u Hu) as [->|?]; auto. }
      destruct rw as [[path|]|x]; simpl in E.
      * destruct (Nat.eqb (String.length path) 0); simpl in E;
          injection E as ? ? ?; subst r s' e; simpl in *;
          rewrite ?app_nil_r in *; exact Hout.
      * injection E as ? ? ?; subst r s' e; simpl in *; rewrite ?app_nil_r in *;
          exact Hout.
      * destruct x; simpl in E; injection E as ? ? ?; subst r s' e; simpl in *;
          rewrite ?app_nil_r in *; exact Hout.
    + unfold bind, ret in E. simpl in E.
      destruct (Nat.eqb (String.length url) 0); simpl in E;
        injection E as ? ? ?; subst r s' e; simpl;
        (split; [done|]; split; [by intros u ?%not_elem_of_nil|auto]).
  - destruct x; simpl in E; injection E as ? ? ?; subst r s' e; simpl; rewrite ?Hc1;
      (split; [done|]; split; [by intros u ?%not_elem_of_nil|auto]).
Qed.

Lemma thumbnail_loop ifaces : forall acc s r s' e,
  for_ ifaces (fun iface thumbnails =>
     bind (thumbnail_body env iface) (fun t => ret (thumbnails ++ [t]))) acc s
  = (r, s', e) ->
  (forall u, u ∈ downloads_of e -> startswith u "https" = true)
  /\ (forall u, u ∈ cache_keys (web_cache s') ->
        startswith u "https" = true \/ u ∈ cache_keys (web_cache s))
  /\ ((forall i b a, metadata_reads e !! i = Some (b, a) -> plain_http_reference a) ->
      s' = s /\ forallb is_read e = true)
  /\ forall l, r = Ok l ->
       exists ts, l = acc ++ ts
         /\ map fst (metadata_reads e) = map bus_name ifaces
         /\ length ts = length (metadata_reads e)
         /\ forall i b md url,
              metadata_reads e !! i = Some (b, Some md) ->
              mpris_artUrl md = Some url ->
              startswith url "http://" = true ->
              ts !! i = Some (TPath (py_replace "file://" "" url)).
Proof.
  induction ifaces as [|iface ifaces IH]; intros acc s r s' e E.
  - simpl in E. injection E as ? ? ?; subst r s' e. simpl.
    split; [by intros u ?%not_elem_of_nil|]. split; [auto|]. split; [done|].
    intros l [= <-]. exists []. rewrite app_nil_r. by repeat split.
  - rewrite for_cons in E.
    destruct (thumbnail_body env iface s) as [[rt s1] e1] eqn:E1.
    destruct (thumbnail_body_trace _ _ _ _ _ E1) as (Hm1 & Hd1 & Hk1).
    assert (Eb : bind (thumbnail_body env iface) (fun t => ret (acc ++ [t])) s
                 = (match rt with Ok t => Ok (acc ++ [t]) | Raise x => Raise x end,
                    s1, e1)).
    { rewrite (bind_run _ _ _ _ _ _ E1). destruct rt; [|done].
      unfold ret. by rewrite app_nil_r. }
    rewrite (bind_run _ _ _ _ _ _ Eb) in E.
    destruct rt as [t|x].
    + destruct (for_ ifaces _ (acc ++ [t]) s1) as [[r2 s2] e2] eqn:E2.
      injection E as ? ? ?; subst r s' e.
      destruct (IH _ _ _ _ _ E2) as (Hd2 & Hk2 & Hplain2 & Hok2).
      assert (Hreads : metadata_reads (e1 ++ e2)
                       = (bus_name iface, get_metadata env (world s) (bus_name iface))
                         :: metadata_reads e2).
      { unfold metadata_reads. rewrite flat_map_app. fold (metadata_reads e1).
        by rewrite Hm1. }
      rewrite Hreads. split; [|split; [|split]].
      * intros u. rewrite downloads_of_app, elem_of_app. intros [?|?]; auto.
      * intros u Hu. destruct (Hk2 u Hu) as [?|Hu1]; auto.
      * intros Hall.
        destruct (Hall 0 _ _ eq_refl) as (md & url & Hmd & Hart & Hhttp).
        rewrite (http_reference_iteration iface s md url Hmd Hart Hhttp) in E1.
        injection E1 as ? ? ?; subst t s1 e1.
        destruct Hplain2 as [-> He2].
        { intros i b a Hi. exact (Hall (S i) b a Hi). }
        split; [done|]. simpl. exact He2.
      * intros l ->. destruct (Hok2 _ eq_refl) as (ts & -> & Hb & Hlen & Hslots).
        exists (t :: ts). rewrite <- app_assoc. split; [done|].
        split; [simpl; by rewrite Hb|]. split; [simpl; by rewrite Hlen|].
        intros [|i] b md url Hi Hart Hhttp.
        -- injection Hi as _ Hmd.
           rewrite (http_reference_iteration iface s md url Hmd Hart Hhttp) in E1.
           by injection E1 as <- _ _.
        -- exact (Hslots i b md url Hi Hart Hhttp).
    + injection E as ? ? ?; subst r s' e. rewrite Hm1.
      split; [done|]. split; [done|]. split; [|done].
      intros Hall. destruct (Hall 0 _ _ eq_refl) as (md & url & Hmd & Hart & Hhttp).
      rewrite (http_reference_iteration iface s md url Hmd Hart Hhttp) in E1.
      discriminate.
Qed.

Lemma cache_refreshed s : web_cache (refreshed env s) = web_cache s.
Proof. unfold refreshed. by destruct (bus_players env (world s)). Qed.

(** C10: the artwork references that begin with "http://" in a call of
    [thumbnail].  No such URL is ever requested over HTTP or entered into
    the download cache.  When the call returns, the list it compresses has
    one slot for each resolved endpoint, in registry order, each endpoint's
    metadata having been read once; and the slot of every endpoint whose
    metadata read answered with such a reference holds that reference, with
    every "file://" removed, as a path.  When every resolved endpoint
    answered so, the call makes no HTTP request at all, only reads the bus,
    and leaves the download cache and the rest of the state as the refresh
    left them. *)
Theorem plain_http_artwork_is_used_as_path f s r s' e :
  thumbnail env f s = (r, s', e) ->
  (forall url, startswith url "http://" = true ->
     (url ∉ downloads_of e)
     /\ (url ∉ cache_keys (web_cache s) -> url ∉ cache_keys (web_cache s')))
  /\ ((forall i b a, metadata_reads e !! i = Some (b, a) -> plain_http_reference a) ->
      s' = refreshed env s /\ forallb is_read e = true)
  /\ forall v, r = Ok v ->
       exists ps l,
         registry env s = Some ps
         /\ map fst (metadata_reads e)
            = map bus_name (List.filter (answers env f (world s)) ps)
         /\ v = compress_list l
         /\ length l = length (metadata_reads e)
         /\ forall i b md url,
              metadata_reads e !! i = Some (b, Some md) ->
              mpris_artUrl md = Some url ->
              startswith url "http://" = true ->
              l !! i = Some (TPath (py_replace "file://" "" url)).
Proof.
  intros E. unfold thumbnail in E. unfold bind at 1 in E.
  rewrite get_matching_ifaces_eq in E.
  assert (Hreg_read : forallb is_read (refresh_events env (world s)) = true).
  { exact (forallb_weaken is_registry_event is_read _ (fun x => ltac:(by destruct x))
             (refresh_events_kind (world s))). }
  destruct (registry env s) as [ps|] eqn:Hreg.
  - cbv beta iota in E.
    match type of E with context [bind (for_ ?l ?body []) _ ?s0] =>
      destruct (for_ l body [] s0) as [[rl sl] el] eqn:El end.
    destruct (thumbnail_loop _ _ _ _ _ _ El) as (Hd & Hk & Hplain & Hok).
    assert (Hmr : metadata_reads
                    ((refresh_events env (world s) ++ identity_events env (world s) ps)
                     ++ el) = metadata_reads el).
    { apply flat_map_of_run. by intros []. }
    assert (Hdl : downloads_of
                    ((refresh_events env (world s) ++ identity_events env (world s) ps)
                     ++ el) = downloads_of el).
    { apply flat_map_of_run. by intros []. }
    assert (Hev : e = (refresh_events env (world s) ++ identity_events env (world s) ps)
                      ++ el /\ s' = sl
                  /\ r = match rl with Ok l => Ok (compress_list l) | Raise x => Raise x end).
    { rewrite (bind_run _ _ _ _ _ _ El) in E. destruct rl as [l|x].
      - unfold ret in E. injection E as ? ? ?; subst r s' e.
        by rewrite !app_nil_r.
      - by injection E as ? ? ?; subst r s' e. }
    destruct Hev as (-> & -> & ->). rewrite Hmr, Hdl.
    split; [|split].
    + intros url Hhttp. pose proof (startswith_http_not_https url Hhttp) as Hno.
      split.
      * intros Hin. rewrite (Hd url Hin) in Hno. discriminate.
      * intros Hout Hin. destruct (Hk url Hin) as [Hs|Hc].
        -- rewrite Hs in Hno. discriminate.
        -- rewrite cache_refreshed in Hc. contradiction.
    + intros Hall. destruct (Hplain Hall) as [-> Hel]. split; [done|].
      rewrite !forallb_app, Hreg_read, Hel.
      by rewrite (forallb_weaken is_identity_event is_read _
                    (fun x => ltac:(by destruct x)) (identity_events_kind (world s) ps)).
    + intros v Hv. destruct rl as [l|x]; [|discriminate]. injection Hv as <-.
      destruct (Hok l eq_refl) as (ts & -> & Hb & Hlen & Hslots).
      exists ps, ts. done.
  - injection E as ? ? ?; subst r s' e.
    assert (Hnone : forall B (g : event -> list B),
              (forall x, is_registry_event x = true -> g x = []) ->
              flat_map g (refresh_events env (world s)) = []).
    { intros B g Hg. apply (flat_map_none is_registry_event); [exact Hg|].
      apply refresh_events_kind. }
    split; [|split; [|done]].
    + intros url Hhttp. unfold downloads_of. rewrite Hnone by (by intros []).
      split; [apply not_elem_of_nil|]. by rewrite cache_refreshed.
    + intros _. done.
Qed.

(** ** The last active player *)

Global Instance marker_kept_refl : Reflexive (@marker_kept W).
Proof. by intros s. Qed.

Global Instance marker_kept_trans : Transitive (@marker_kept W).
Proof. unfold marker_kept. intros s1 s2 s3 H1 H2. congruence. Qed.

Ltac marker_prim :=
  let s := fresh "s" in
  intros s ? ? ?;
  repeat match goal with
         | |- context [call_method ?e ?w ?b ?m] => destruct (call_method e w b m)
         | |- context [http_get ?e ?w ?u] => destruct (http_get e w u)
         | |- context [makedirs ?e ?w ?u] => destruct (makedirs e w u)
         | |- context [open_wb ?e ?w ?u] => destruct (open_wb e w u)
         | |- context [write_file ?e ?w ?u ?d] => destruct (write_file e w u d)
         end;
  intros [= <- <- <-]; reflexivity.

Ltac marker_with known :=
  repeat first
    [ known
    | apply marker_kept_refl | apply marker_kept_trans
    | match goal with
      | |- keeps _ (bind get_self _) =>
          solve [ intros ? ? ? ?; unfold bind, get_self, set_self, ret; simpl;
                  intros [= <- <- <-]; reflexivity ]
      end
    | apply keeps_ret | apply keeps_raise
    | apply keeps_bind | apply keeps_try_except
    | apply keeps_for | apply keeps_for_partial
    | match goal with
      | |- forall x k, ?h _ x = Some k -> keeps _ k =>
          eapply keeps_handler; [intros []; simpl; auto|]
      | |- keeps _ (if ?b then _ else _) => destruct b
      | |- keeps _ (match ?b with _ => _ end) => destruct b
      | |- keeps _ (bus_list_names _) => unfold bus_list_names; marker_prim
      | |- keeps _ (bus_get_object _ _) => unfold bus_get_object; marker_prim
      | |- keeps _ (prop_identity _ _) => unfold prop_identity; marker_prim
      | |- keeps _ (prop_playback_status _ _) => unfold prop_playback_status; marker_prim
      | |- keeps _ (prop_metadata _ _) => unfold prop_metadata; marker_prim
      | |- keeps _ (iface_call _ _ _) => unfold iface_call; marker_prim
      | |- keeps _ (requests_get _ _) => unfold requests_get; marker_prim
      | |- keeps _ (os_makedirs _ _) => unfold os_makedirs; marker_prim
      | |- keeps _ (open_for_writing _ _) => unfold open_for_writing; marker_prim
      | |- keeps _ (file_write _ _ _) => unfold file_write; marker_prim
      | |- keeps _ (new_BytesIO _) => unfold new_BytesIO; marker_prim
      | |- keeps _ get_self => unfold get_self; marker_prim
      | |- keeps _ get_web_cache => unfold get_web_cache; marker_prim
      | |- keeps _ (set_web_cache _) => unfold set_web_cache; marker_prim
      | |- keeps _ (set_self _) => unfold set_self; marker_prim
      end
    | progress cbv zeta
    | progress intros ].

Lemma marker_refreshed s :
  _last_active_player (self (refreshed env s)) = _last_active_player (self s).
Proof. unfold refreshed. by destruct (bus_players env (world s)). Qed.

Lemma marker_update_players : keeps marker_kept (update_players env).
Proof.
  intros s r s' e. rewrite update_players_eq. intros [= <- <- <-]. apply marker_refreshed.
Qed.

Lemma marker_get_matching_ifaces f : keeps marker_kept (get_matching_ifaces env f).
Proof.
  intros s r s' e. rewrite get_matching_ifaces_eq.
  destruct (registry env s); intros [= <- <- <-]; apply marker_refreshed.
Qed.

Lemma marker_get_matching_players f : keeps marker_kept (get_matching_players env f).
Proof.
  intros s r s' e. rewrite get_matching_players_eq.
  destruct (registry env s); intros [= <- <- <-]; apply marker_refreshed.
Qed.

Lemma marker_thumbnail_body iface : keeps marker_kept (thumbnail_body env iface).
Proof.
  unfold thumbnail_body, thumbnail_data_uri, get_web_thumnail, download_file.
  marker_with fail.
Qed.

Lemma marker_toggle_scan players : keeps marker_kept (toggle_scan env players).
Proof.
  induction players as [|[b iface] players IH]; simpl.
  - marker_with fail.
  - unfold _get_playback_status. marker_with ltac:(apply IH).
Qed.

Lemma marker_pause f : keeps marker_kept (pause env f).
Proof.
  unfold pause, pause_body, set_previously_playing, _get_playback_status.
  marker_with ltac:(apply marker_get_matching_players).
Qed.

Lemma marker_play f : keeps marker_kept (play env f).
Proof.
  unfold play, play_body, set_previously_playing.
  marker_with ltac:(apply marker_get_matching_players).
Qed.

Lemma marker_other_ops o :
  o <> OpGetActivePlayerName -> keeps marker_kept (run_op env o).
Proof.
  destruct o; simpl; try done; intros _.
  all: unfold toggle, stop, next, previous, status, title, artist, thumbnail,
         get_player_names, read_mpris_players.
  all: marker_with ltac:(first [ apply marker_get_matching_ifaces
                               | apply marker_get_matching_players
                               | apply marker_thumbnail_body
                               | apply marker_toggle_scan
                               | apply marker_pause
                               | apply marker_play ]).
Qed.

Lemma marker_get_active_player_name s :
  let s' := snd (fst (run_op env OpGetActivePlayerName s)) in
  _last_active_player (self s') = _last_active_player (self s)
  \/ is_Some (_last_active_player (self s')).
Proof.
  destruct (run_op env OpGetActivePlayerName s) as [[r s'] e] eqn:E. simpl.
  simpl in E. apply bind_ret_inv in E as (r0 & E & _).
  unfold get_active_player_name in E.
  rewrite (bind_run _ _ _ _ _ _ (update_players_eq s)) in E.
  unfold bind at 1, read_mpris_players at 1, bind at 1, get_self at 1 in E.
  destruct (mpris_players (self (refreshed env s))) as [ps|] eqn:Hreg; simpl in E.
  - destruct (active_player_scan_run ps (refreshed env s))
      as [(before & p & after & name & e1 & _ & _ & _ & _ & E1)|(e1 & _ & E1)];
      rewrite (bind_run _ _ _ _ _ _ E1) in E; simpl in E;
      injection E as ? ? ?; subst r0 s' e.
    + right. by eexists.
    + left. apply marker_refreshed.
  - injection E as ? ? ?; subst r0 s' e. left. apply marker_refreshed.
Qed.

(** X16: the last active player is changed by [get_active_player_name]
    alone and is never cleared: along every sequence of operations a name
    that is stored stays stored (possibly replaced by another name), and a
    sequence without [get_active_player_name] leaves the field exactly as
    it was, whatever the endpoints report to the other queries. *)
Theorem last_active_player_is_never_cleared ops s :
  (is_Some (_last_active_player (self s)) ->
   is_Some (_last_active_player (self (after env ops s))))
  /\ (OpGetActivePlayerName ∉ ops ->
      _last_active_player (self (after env ops s)) = _last_active_player (self s)).
Proof.
  induction ops as [|o ops IH] using rev_ind.
  - split; [done|]. intros _. reflexivity.
  - rewrite after_snoc, after_one. destruct IH as [IH1 IH2].
    set (s1 := after env ops s) in *.
    assert (Hd : o = OpGetActivePlayerName \/ o <> OpGetActivePlayerName)
      by (destruct o; first [by left|by right]).
    destruct Hd as [->|Ho].
    + split.
      * intros Hs. destruct (marker_get_active_player_name s1) as [Heq|Hsome]; [|done].
        rewrite Heq. auto.
      * intros Hnot. destruct Hnot. apply elem_of_app. right. by left.
    + assert (Hstep : _last_active_player (self (snd (fst (run_op env o s1))))
                      = _last_active_player (self s1)).
      { destruct (run_op env o s1) as [[r s2] e2] eqn:E.
        exact (marker_other_ops o Ho s1 r s2 e2 E). }
      rewrite Hstep. split; [auto|].
      intros Hnot. apply IH2. intros Hin. apply Hnot, elem_of_app. by left.
Qed.


(** ** Sequences of operations *)

Lemma run_op_from_assigned o s r s' e :
  run_op env o s = (r, s', e) ->
  is_Some (mpris_players (self s)) ->
  is_Some (mpris_players (self s'))
  /\ ((forall f, o <> OpThumbnail f) -> is_ok r = true).
Proof.
  intros E Hmp. destruct (registry_mono s Hmp) as [ps Hreg].
  destruct (is_transport o) eqn:Ho.
  - destruct o as [f|f|f| | | | | | | | |]; try discriminate; simpl in E;
      apply bind_ret_inv in E as (r0 & E & ->).
    + destruct (pause_spec f s _ s' e E) as [(Hnone & _)|(_ & -> & _ & Hmp' & _)];
        [congruence|].
      rewrite Hmp', Hreg. split; [by eexists|done].
    + destruct (play_spec f s _ s' e E) as [(Hnone & _)|(_ & -> & _ & Hmp' & _)];
        [congruence|].
      rewrite Hmp', Hreg. split; [by eexists|done].
    + rewrite toggle_run in E.
      destruct (toggle_choice_run f s) as [(Hnone & _)|(_ & b & e0 & E0)]; [congruence|].
      rewrite E0 in E. destruct b.
      * destruct (pause env f (refreshed env s)) as [[r1 s1] e1] eqn:E1.
        simpl in E. injection E as ? ? ?; subst.
        destruct (pause_spec f _ _ _ _ E1) as [(Hnone & _)|(_ & -> & _ & Hmp' & _)].
        { rewrite registry_refreshed in Hnone. congruence. }
        rewrite registry_refreshed in Hmp'. rewrite Hmp', Hreg. split; [by eexists|done].
      * destruct (play env f (refreshed env s)) as [[r1 s1] e1] eqn:E1.
        simpl in E. injection E as ? ? ?; subst.
        destruct (play_spec f _ _ _ _ E1) as [(Hnone & _)|(_ & -> & _ & Hmp' & _)].
        { rewrite registry_refreshed in Hnone. congruence. }
        rewrite registry_refreshed in Hmp'. rewrite Hmp', Hreg. split; [by eexists|done].
  - split; [exact (proj2 (keeps_other_ops o Ho s r s' e E) Hmp)|].
    intros Hnt.
    destruct o as [f|f|f|f|f|f|f|f|f|f| |d]; try discriminate; simpl in E;
      apply bind_ret_inv in E as (r0 & E & ->).
    + destruct (ifaces_op_slots f _ call_slot s ps
                  (call_body_slot Stop (fun k => on_dbus k) (fun k => eq_refl))
                  ltac:(by intros []) Hreg) as (s1 & e1 & E1 & Hlen).
      pose proof (eq_trans (eq_sym E) E1) as H. by injection H as -> -> ->.
    + destruct (ifaces_op_slots f _ call_slot s ps
                  (call_body_slot Next (fun k => on_dbus k) (fun k => eq_refl))
                  ltac:(by intros []) Hreg) as (s1 & e1 & E1 & Hlen).
      pose proof (eq_trans (eq_sym E) E1) as H. by injection H as -> -> ->.
    + destruct (ifaces_op_slots f _ call_slot s ps
                  (call_body_slot Previous (fun k => on_key_index_dbus k) (fun k => eq_refl))
                  ltac:(by intros []) Hreg) as (s1 & e1 & E1 & Hlen).
      pose proof (eq_trans (eq_sym E) E1) as H. by injection H as -> -> ->.
    + destruct (ifaces_op_slots f _ status_slot s ps status_body_slot
                  ltac:(by intros []) Hreg) as (s1 & e1 & E1 & Hlen).
      pose proof (eq_trans (eq_sym E) E1) as H. by injection H as -> -> ->.
    + destruct (ifaces_op_slots f _ title_slot s ps title_body_slot
                  ltac:(by intros []) Hreg) as (s1 & e1 & E1 & Hlen).
      pose proof (eq_trans (eq_sym E) E1) as H. by injection H as -> -> ->.
    + destruct (ifaces_op_slots f _ artist_slot s ps artist_body_slot
                  ltac:(by intros []) Hreg) as (s1 & e1 & E1 & Hlen).
      pose proof (eq_trans (eq_sym E) E1) as H. by injection H as -> -> ->.
    + by destruct (Hnt f).
    + pose proof (get_active_player_name_ok s (ex_intro _ ps Hreg)) as Hok.
      rewrite E in Hok. by destruct r0.
    + pose proof (get_player_names_ok d s) as Hok. rewrite E in Hok. by destruct r0.
Qed.

(** X17: a registry that has been assigned once stays assigned along
    every sequence of operations, whatever these return or raise and
    whatever becomes of the bus in between; so after any such sequence
    every operation other than [thumbnail] returns without raising. *)
Theorem assigned_registry_never_raises ops o s :
  is_Some (mpris_players (self s)) ->
  (forall f, o <> OpThumbnail f) ->
  is_Some (mpris_players (self (after env ops s)))
  /\ is_ok (fst (fst (run_op env o (after env ops s)))) = true.
Proof.
  intros Hmp Hnt.
  assert (Hafter : is_Some (mpris_players (self (after env ops s)))).
  { induction ops as [|o' ops IH] using rev_ind; [done|].
    rewrite after_snoc, after_one.
    destruct (run_op env o' (after env ops s)) as [[r1 s1] e1] eqn:E1.
    exact (proj1 (run_op_from_assigned _ _ _ _ _ E1 IH)). }
  split; [done|].
  destruct (run_op env o (after env ops s)) as [[r1 s1] e1] eqn:E1.
  exact (proj2 (run_op_from_assigned _ _ _ _ _ E1 Hafter) Hnt).
Qed.


Lemma refreshed_unassigned s : registry env s = None -> refreshed env s = s.
Proof.
  unfold registry, refreshed. by destruct (bus_players env (world s)).
Qed.

(** X18: while the registry has never been assigned and the refresh at
    the start of an operation fails as well, every operation that resolves
    endpoints, and [get_active_player_name], raises [AttributeError] and
    leaves the state as it was; [get_player_names] returns the empty
    list. *)
Theorem unassigned_registry_raises o s r s' e :
  registry env s = None ->
  run_op env o s = (r, s', e) ->
  s' = s
  /\ r = match o with
         | OpGetPlayerNames _ => Ok (RNames [])
         | _ => Raise AttributeError
         end.
Proof.
  intros Hreg E. pose proof (refreshed_unassigned s Hreg) as Hs.
  assert (Hmp : mpris_players (self s) = None).
  { unfold registry in Hreg. by rewrite Hs in Hreg. }
  assert (Hif : forall f, get_matching_ifaces env f s
                          = (Raise AttributeError, s, refresh_events env (world s))).
  { intros f. by rewrite get_matching_ifaces_eq, Hreg, Hs. }
  destruct o as [f|f|f|f|f|f|f|f|f|f| |d]; simpl in E;
    apply bind_ret_inv in E as (r0 & E & ->).
  - destruct (pause_spec f s _ s' e E) as [(_ & -> & -> & _)|([ps Hps] & _)];
      [done|congruence].
  - destruct (play_spec f s _ s' e E) as [(_ & -> & -> & _)|([ps Hps] & _)];
      [done|congruence].
  - rewrite toggle_run in E.
    destruct (toggle_choice_run f s) as [(_ & e0 & E0)|([ps Hps] & _)]; [|congruence].
    rewrite E0 in E. injection E as ? ? ?; subst. done.
  - unfold stop in E. rewrite (bind_run _ _ _ _ _ _ (Hif f)) in E.
    injection E as ? ? ?; subst. done.
  - unfold next in E. rewrite (bind_run _ _ _ _ _ _ (Hif f)) in E.
    injection E as ? ? ?; subst. done.
  - unfold previous in E. rewrite (bind_run _ _ _ _ _ _ (Hif f)) in E.
    injection E as ? ? ?; subst. done.
  - unfold status in E. rewrite (bind_run _ _ _ _ _ _ (Hif f)) in E.
    injection E as ? ? ?; subst. done.
  - unfold title in E. rewrite (bind_run _ _ _ _ _ _ (Hif f)) in E.
    injection E as ? ? ?; subst. done.
  - unfold artist in E. rewrite (bind_run _ _ _ _ _ _ (Hif f)) in E.
    injection E as ? ? ?; subst. done.
  - unfold thumbnail in E. rewrite (bind_run _ _ _ _ _ _ (Hif f)) in E.
    injection E as ? ? ?; subst. done.
  - unfold get_active_player_name in E.
    rewrite (bind_run _ _ _ _ _ _ (update_players_eq s)) in E. rewrite Hs in E.
    unfold bind at 1, read_mpris_players at 1, bind at 1, get_self at 1 in E.
    rewrite Hmp in E. simpl in E. injection E as ? ? ?; subst. done.
  - unfold get_player_names, bind, try_except, read_mpris_players, bind,
      get_self, raise, on_any, ret in E. rewrite Hmp in E. simpl in E.
    injection E as ? ? ?; subst. done.
Qed.


(** X19: [pause] followed by an unfiltered [play], for any number of
    endpoints and whatever the calls in between did to the bus.  When the
    pause found something playing, the [play] calls [Play] on exactly
    those endpoints it resolves that answered "Playing" during the pause,
    in registry order: an endpoint that has left the bus is passed over,
    one that has joined it since is not started.  Afterwards the Resume Set
    is empty. *)
Theorem play_resumes_what_pause_found f s r1 s1 e1 r2 s2 e2 ps1 :
  pause env f s = (r1, s1, e1) ->
  playing_in e1 ≠ ∅ ->
  play env None s1 = (r2, s2, e2) ->
  registry env s1 = Some ps1 ->
  _previously_playing (self s1) = playing_in e1
  /\ calls_of e2
     = map (fun b => (b, Play))
           (List.filter (fun b => bool_decide (b ∈ playing_in e1))
                        (map bus_name (List.filter (answers env None (world s1)) ps1)))
  /\ _previously_playing (self s2) = ∅.
Proof.
  intros E1 Hfound E2 Hreg1.
  assert (Hpp : _previously_playing (self s1) = playing_in e1).
  { destruct (pause_spec f s r1 s1 e1 E1) as [(_ & _ & _ & ->)|(_ & _ & Hpp & _)].
    - destruct Hfound. apply playing_in_none. by rewrite status_reads_refresh.
    - by rewrite decide_True in Hpp. }
  split; [done|].
  destruct (play_spec None s1 r2 s2 e2 E2)
    as [(Hnone & _)|(_ & _ & Hpp2 & _ & Hc & _ & ps' & Hps' & Hseen)]; [congruence|].
  assert (ps' = ps1) as -> by congruence.
  split; [|done]. rewrite Hc, Hseen, Hpp. f_equal.
  apply filter_ext. intros b. unfold should_play. by rewrite decide_True.
Qed.


End Facts.

(** * Concrete runs *)

(** C1, on the bus of [Sim.three_players]. *)
Lemma pause_then_play_round_trip_witness :
  let s0 := Sim.boot Sim.three_players in
  let r1 := pause Sim.env None s0 in
  let r2 := play Sim.env None (snd (fst r1)) in
  let r3 := play Sim.env None (snd (fst r2)) in
  _previously_playing (self (snd (fst r1))) = {[":1.1"; ":1.3"]}
  /\ calls_of (snd r1) = [(":1.1", Pause); (":1.2", Pause); (":1.3", Pause)]
  /\ calls_of (snd r2) = [(":1.1", Play); (":1.3", Play)]
  /\ _previously_playing (self (snd (fst r2))) = ∅
  /\ calls_of (snd r3) = [(":1.1", Play); (":1.2", Play); (":1.3", Play)].
Proof.
  intros s0 r1 r2 r3.
  apply (pause_then_play_round_trip Sim.env ":1.1" ":1.2" ":1.3" (Some "Paused") s0
           (fst (fst r1)) (snd (fst r1)) (snd r1)
           (fst (fst r2)) (snd (fst r2)) (snd r2)
           (fst (fst r3)) (snd (fst r3)) (snd r3)).
  - discriminate.
  - discriminate.
  - discriminate.
  - vm_compute. reflexivity.
  - vm_compute. reflexivity.
  - vm_compute. reflexivity.
  - vm_compute. reflexivity.
  - vm_compute. reflexivity.
  - vm_compute. reflexivity.
Defined.

(** C2 at the empty filter: with [{":1.1"}] remembered by a pause,
    [play("")] calls [Play] on the remembered player and on the other one
    too, where [play(None)] calls it on the remembered player only. *)
Theorem play_empty_filter_ignores_resume_set :
  let armed := snd (fst (pause Sim.env None (Sim.boot Sim.two_players))) in
  _previously_playing (self armed) = {[":1.1"]}
  /\ calls_of (snd (play Sim.env (Some "") armed)) = [(":1.1", Play); (":1.2", Play)]
  /\ calls_of (snd (play Sim.env None armed)) = [(":1.1", Play)].
Proof. vm_compute. repeat split. Qed.

(** C3, on the bus of [Sim.three_players]: after a pause and two queries
    the Resume Set is not empty, and the pause is found in the history. *)
Lemma resume_set_between_pause_and_play_witness :
  let s0 := snd (fst (new_controller Sim.env Sim.three_players)) in
  let ops := [OpStatus None; OpPause None; OpTitle None; OpGetActivePlayerName] in
  exists pre o post f s1,
    ops = pre ++ o :: post
    /\ pause_call Sim.env o (after Sim.env pre s0) = Some (f, s1)
    /\ found_playing (snd (pause Sim.env f s1))
    /\ forall post1 o' post2,
         post = post1 ++ o' :: post2 ->
         play_call Sim.env o' (after Sim.env (pre ++ o :: post1) s0) = None.
Proof.
  intros s0 ops.
  apply (resume_set_between_pause_and_play Sim.env Sim.three_players ops).
  vm_compute. discriminate.
Defined.

(** C4, on the bus of [Sim.three_players]: the second of two pauses finds
    nothing playing and keeps what the first one remembered. *)
Lemma pause_without_playing_keeps_resume_set_witness :
  let s1 := snd (fst (pause Sim.env None (Sim.boot Sim.three_players))) in
  let r2 := pause Sim.env None s1 in
  _previously_playing (self (snd (fst r2))) = _previously_playing (self s1)
  /\ _previously_playing (self s1) = {[":1.1"; ":1.3"]}.
Proof.
  intros s1 r2. split.
  - apply (pause_without_playing_keeps_resume_set Sim.env None s1
             (fst (fst r2)) (snd (fst r2)) (snd r2)).
    + vm_compute. reflexivity.
    + vm_compute. repeat constructor; discriminate.
  - vm_compute. reflexivity.
Defined.

(** C5, on the bus of [Sim.three_players], where the first endpoint is
    playing: [toggle] is [pause] after a scan that only reads. *)
Lemma toggle_delegates_witness :
  let s0 := Sim.boot Sim.three_players in
  exists scan,
    forallb is_read scan = true
    /\ toggle Sim.env None s0
       = (let '(r, s', e) := pause Sim.env None s0 in (r, s', scan ++ e)).
Proof.
  intros s0.
  destruct (toggle_delegates Sim.env None s0
              (match fst (fst (get_matching_players Sim.env None s0)) with
               | Ok targets => targets
               | Raise _ => []
               end)
              (snd (fst (get_matching_players Sim.env None s0)))
              (snd (get_matching_players Sim.env None s0)))
    as (scan & Hscan & Hpause & _).
  - vm_compute. reflexivity.
  - exists scan. split; [exact Hscan|]. apply Hpause.
    vm_compute. left. reflexivity.
Defined.

(** C6, on lists of titles and of flags. *)
Lemma compress_list_cases_witness :
  compress_list [Some "Track"; Some "Track"; Some "Track"] = Some [Some "Track"]
  /\ compress_list [true; false] = Some [true; false].
Proof.
  split.
  - apply compress_list_cases. repeat constructor.
  - apply compress_list_cases. intros H. inversion H. discriminate.
Defined.

(** C7: exceptions reach the caller.  For a player whose artwork reference
    is "data:image/png;base64", a [data:] URI with no comma, [thumbnail]
    raises [ValueError], where [title] and [artist] return for the same
    player; with a second player beside it the result of that player is
    lost with the exception.  And after a constructor whose refresh failed,
    a failure [update_players] itself absorbs, the operations that resolve
    endpoints raise [AttributeError]. *)
Lemma operations_raise :
  fst (fst (thumbnail Sim.env None (Sim.boot Sim.malformed_art))) = Raise ValueError
  /\ mpris_players (self (Sim.boot Sim.no_bus)) = None
  /\ fst (fst (pause Sim.env None (Sim.boot Sim.no_bus))) = Raise AttributeError
  /\ fst (fst (status Sim.env None (Sim.boot Sim.no_bus))) = Raise AttributeError
  /\ fst (fst (title Sim.env None (Sim.boot Sim.malformed_art))) = Ok (Some [Some "Track"])
  /\ fst (fst (artist Sim.env None (Sim.boot Sim.malformed_art)))
     = Ok (Some [Some "Artist"])
  /\ fst (fst (thumbnail Sim.env (Some "Alpha") (Sim.boot Sim.one_malformed)))
     = Ok (Some [TPath "/x/y.png"])
  /\ fst (fst (thumbnail Sim.env None (Sim.boot Sim.one_malformed))) = Raise ValueError.
Proof. vm_compute. repeat split. Qed.

(** X20, for [stop] on the bus of [Sim.stubborn]: the refusal of
    the second player is the [False] of the second slot. *)
Lemma failures_stay_in_their_slot_witness :
  let s := Sim.boot Sim.stubborn in
  let run := run_op Sim.env (OpStop None) s in
  (fst (fst run) = Ok (RFlags (compress_list (call_results (snd run))))
   /\ length (call_results (snd run)) = 3)
  /\ call_results (snd run) = [true; false; true].
Proof.
  intros s run. split.
  - apply (failures_stay_in_their_slot Sim.env (OpStop None) s
             (fst (fst run)) (snd (fst run)) (snd run)
             (match registry Sim.env s with Some ps => ps | None => [] end)).
    + vm_compute. reflexivity.
    + vm_compute. reflexivity.
  - vm_compute. reflexivity.
Defined.

(** C8 as stated fails: after 129 different URLs the first one is
    downloaded a second time, and the second one is no longer cached. *)
Lemma lru_cache_evicts_and_downloads_again :
  let run := resolve_all Sim.env (Sim.many_urls ++ [Sim.url 0]) (Sim.boot Sim.gallery) in
  forallb is_ok (fst (fst run)) = true
  /\ count_occ string_dec (downloads_of (snd run)) (Sim.url 0) = 2
  /\ cache_lookup (Sim.url 1) (web_cache (snd (fst run))) = None.
Proof. vm_compute. repeat split. Qed.

(** C8 (amended), on three resolutions of two URLs. *)
Lemma one_download_per_url_witness :
  let urls := [Sim.url 0; Sim.url 1; Sim.url 0] in
  let run := resolve_all Sim.env urls (Sim.boot Sim.gallery) in
  (forall u, u ∈ urls -> count_occ string_dec (downloads_of (snd run)) u = 1)
  /\ (forall i j u, urls !! i = Some u -> urls !! j = Some u ->
                    fst (fst run) !! i = fst (fst run) !! j)
  /\ (forall u, u ∈ urls -> is_Some (cache_lookup u (web_cache (snd (fst run))))).
Proof.
  intros urls run.
  apply (one_download_per_url Sim.env urls (Sim.boot Sim.gallery)
           (fst (fst run)) (snd (fst run)) (snd run)).
  - vm_compute. reflexivity.
  - vm_compute. lia.
  - vm_compute. reflexivity.
  - vm_compute. reflexivity.
Defined.

(** C9 as stated fails for [get_player_names]: it asks the two registered
    players for their identity without listing the names on the bus, and
    returns both names where [compress_list] would keep one. *)
Lemma get_player_names_neither_refreshes_nor_compresses :
  run_op Sim.env (OpGetPlayerNames false) (Sim.boot Sim.two_windows)
  = (Ok (RNames ["VLC"; "VLC"]), Sim.boot Sim.two_windows,
     [EGetIdentity ":1.1" (Some "VLC"); EGetIdentity ":1.2" (Some "VLC")])
  /\ compress_list ["VLC"; "VLC"] = Some ["VLC"].
Proof. vm_compute. repeat split. Qed.

(** C9 (amended), for [stop] on the bus of [Sim.three_players] and for
    [get_player_names] on the bus of [Sim.two_windows]. *)
Lemma operations_refresh_then_compress_witness :
  let s := Sim.boot Sim.three_players in
  let run := run_op Sim.env (OpStop None) s in
  let s2 := Sim.boot Sim.two_windows in
  let run2 := run_op Sim.env (OpGetPlayerNames false) s2 in
  ((exists rest, snd run = EListNames (list_names Sim.env (world s)) :: rest)
   /\ forall v, fst (fst run) = Ok v ->
        exists ps, registry Sim.env s = Some ps
                   /\ compressed_from
                        (length (List.filter (answers Sim.env None (world s)) ps)) v)
  /\ (snd (fst run2) = s2
      /\ snd run2
         = identity_events Sim.env (world s2)
             (asked Sim.env (world s2) (default [] (mpris_players (self s2))))
      /\ fst (fst run2) = Ok (RNames (identities_read (snd run2))))
  /\ identities_read (snd run2) = ["VLC"; "VLC"].
Proof.
  intros s run s2 run2. split; [|split].
  - destruct (operations_refresh_then_compress Sim.env (OpStop None) s
                (fst (fst run)) (snd (fst run)) (snd run)) as (H & _ & _).
    + vm_compute. reflexivity.
    + apply (H None). reflexivity.
  - destruct (operations_refresh_then_compress Sim.env (OpGetPlayerNames false) s2
                (fst (fst run2)) (snd (fst run2)) (snd run2)) as (_ & _ & H).
    + vm_compute. reflexivity.
    + destruct (H false eq_refl) as (Hs & _ & He & _ & Hr).
      split; [exact Hs|]. split; [exact He|]. exact (Hr eq_refl).
  - vm_compute. reflexivity.
Defined.

(** C10, on the bus of [Sim.mixed_art]: the first slot is the plain HTTP
    reference without its "file://", and the only request is the one for
    the cover of the second player. *)
Lemma plain_http_artwork_is_used_as_path_witness :
  let s := Sim.boot Sim.mixed_art in
  let run := thumbnail Sim.env None s in
  (fst (fst run)
   = Ok (Some [TPath "http://covers.example/a.png";
               TPath "/data/com_core447_MediaPlugin/cache/0.png"])
   /\ downloads_of (snd run) = [Sim.url 0])
  /\ (forall url, startswith url "http://" = true ->
        (url ∉ downloads_of (snd run))
        /\ (url ∉ cache_keys (web_cache s) ->
            url ∉ cache_keys (web_cache (snd (fst run)))))
  /\ ((forall i b a, metadata_reads (snd run) !! i = Some (b, a) ->
                      plain_http_reference a) ->
      snd (fst run) = refreshed Sim.env s /\ forallb is_read (snd run) = true)
  /\ forall v, fst (fst run) = Ok v ->
       exists ps l,
         registry Sim.env s = Some ps
         /\ map fst (metadata_reads (snd run))
            = map bus_name (List.filter (answers Sim.env None (world s)) ps)
         /\ v = compress_list l
         /\ length l = length (metadata_reads (snd run))
         /\ forall i b md url,
              metadata_reads (snd run) !! i = Some (b, Some md) ->
              mpris_artUrl md = Some url ->
              startswith url "http://" = true ->
              l !! i = Some (TPath (py_replace "file://" "" url)).
Proof.
  intros s run. split; [split; vm_compute; reflexivity|].
  apply (plain_http_artwork_is_used_as_path Sim.env None s
           (fst (fst run)) (snd (fst run)) (snd run)).
  vm_compute. reflexivity.
Defined.


(** ** Concrete runs of the further properties *)

(** X1, on the bus of [Sim.two_players]. *)
Lemma update_players_outcome_witness :
  let s := Sim.boot Sim.two_players in
  let run := update_players Sim.env s in
  fst (fst run) = Ok tt
  /\ match list_names Sim.env (world s) with
     | None => snd (fst run) = s
     | Some names =>
         (exists ps, snd (fst run) = with_registry s (Some ps)
             /\ Forall2 (fun i p => requested_name p = i
                                    /\ get_object Sim.env (world s) i = Some (bus_name p))
                        (List.filter is_mpris_name names) ps)
         \/ (snd (fst run) = s
             /\ Exists (fun i => get_object Sim.env (world s) i = None)
                       (List.filter is_mpris_name names))
     end.
Proof.
  intros s run.
  apply (update_players_outcome Sim.env s (fst (fst run)) (snd (fst run)) (snd run)).
  vm_compute. reflexivity.
Defined.

(** X3, on the bus of [Sim.three_players]. *)
Lemma get_active_player_name_outcome_witness :
  let s := Sim.boot Sim.three_players in
  let ps := [Sim.proxy_a; Sim.proxy_b; Sim.proxy_c] in
  let run := get_active_player_name Sim.env s in
  world (snd (fst run)) = world s
  /\ _previously_playing (self (snd (fst run))) = _previously_playing (self s)
  /\ ((exists before p after name,
          ps = before ++ p :: after
          /\ forallb (fun q => negb (announces Sim.env (world s) q)) before = true
          /\ get_playback_status Sim.env (world s) (bus_name p) = Some "Playing"
          /\ get_identity Sim.env (world s) (bus_name p) = Some name
          /\ fst (fst run) = Ok (Some name)
          /\ _last_active_player (self (snd (fst run))) = Some name)
      \/ (forallb (fun q => negb (announces Sim.env (world s) q)) ps = true
          /\ fst (fst run) = Ok (_last_active_player (self s))
          /\ _last_active_player (self (snd (fst run))) = _last_active_player (self s))).
Proof.
  intros s ps run.
  apply (get_active_player_name_outcome Sim.env s (fst (fst run)) (snd (fst run))
           (snd run) ps).
  - vm_compute. reflexivity.
  - vm_compute. reflexivity.
Defined.

(** X5, for [stop] on the bus of [Sim.stubborn]. *)
Lemma plain_commands_call_each_target_witness :
  let s := Sim.boot Sim.stubborn in
  let ps := [Sim.proxy_a; Sim.proxy_b; Sim.proxy_c] in
  let run := stop Sim.env None s in
  calls_of (snd run)
  = map (fun p => (bus_name p, Stop)) (List.filter (answers Sim.env None (world s)) ps)
  /\ fst (fst run) = Ok (compress_list (call_results (snd run)))
  /\ length (call_results (snd run))
     = length (List.filter (answers Sim.env None (world s)) ps)
  /\ self (snd (fst run)) = self (refreshed Sim.env s)
  /\ web_cache (snd (fst run)) = web_cache s.
Proof.
  intros s ps run.
  apply (plain_commands_call_each_target Sim.env Stop (stop Sim.env) None s
           (fst (fst run)) (snd (fst run)) (snd run) ps).
  - left. split; reflexivity.
  - vm_compute. reflexivity.
  - vm_compute. reflexivity.
Defined.

(** X6, on the bus of [Sim.three_players]. *)
Lemma queries_read_each_target_witness :
  let s := Sim.boot Sim.three_players in
  let ps := [Sim.proxy_a; Sim.proxy_b; Sim.proxy_c] in
  (exists e,
      status Sim.env None s
      = (Ok (compress_list (map (status_of Sim.env (world s))
                                (List.filter (answers Sim.env None (world s)) ps))),
         refreshed Sim.env s, e)
      /\ forallb is_read e = true)
  /\ (exists e,
        title Sim.env None s
        = (Ok (compress_list (map (title_of Sim.env (world s))
                                  (List.filter (answers Sim.env None (world s)) ps))),
           refreshed Sim.env s, e)
        /\ forallb is_read e = true)
  /\ (exists e,
        artist Sim.env None s
        = (Ok (compress_list (map (artist_of Sim.env (world s))
                                  (List.filter (answers Sim.env None (world s)) ps))),
           refreshed Sim.env s, e)
        /\ forallb is_read e = true).
Proof.
  intros s ps. apply (queries_read_each_target Sim.env None s ps).
  vm_compute. reflexivity.
Defined.

(** X7, for the [play] that follows a [pause] on the bus of
    [Sim.three_players]. *)
Lemma play_postcondition_witness :
  let s := snd (fst (pause Sim.env None (Sim.boot Sim.three_players))) in
  let ps := [Sim.proxy_a; Sim.proxy_b; Sim.proxy_c] in
  let run := play Sim.env None s in
  _previously_playing (self (snd (fst run))) = ∅
  /\ calls_of (snd run)
     = map (fun b => (b, Play))
           (List.filter (should_play None (_previously_playing (self s)))
                        (map bus_name (List.filter (answers Sim.env None (world s)) ps)))
  /\ exists flags,
       fst (fst run) = Ok (compress_list flags)
       /\ length flags = length (List.filter (answers Sim.env None (world s)) ps)
       /\ forall i p, List.filter (answers Sim.env None (world s)) ps !! i = Some p ->
            should_play None (_previously_playing (self s)) (bus_name p) = false ->
            flags !! i = Some true.
Proof.
  intros s ps run.
  apply (play_postcondition Sim.env None s (fst (fst run)) (snd (fst run)) (snd run) ps).
  - vm_compute. reflexivity.
  - vm_compute. reflexivity.
Defined.

(** X8, on the bus of [Sim.three_players]. *)
Lemma pause_postcondition_witness :
  let s := Sim.boot Sim.three_players in
  let ps := [Sim.proxy_a; Sim.proxy_b; Sim.proxy_c] in
  let run := pause Sim.env None s in
  map fst (status_reads (snd run))
  = map bus_name (List.filter (answers Sim.env None (world s)) ps)
  /\ calls_of (snd run)
     = map (fun b => (b, Pause))
           (map bus_name (List.filter (answers Sim.env None (world s)) ps))
  /\ fst (fst run) = Ok (compress_list (call_results (snd run)))
  /\ length (call_results (snd run))
     = length (List.filter (answers Sim.env None (world s)) ps)
  /\ _previously_playing (self (snd (fst run)))
     = (if decide (playing_in (snd run) ≠ ∅) then playing_in (snd run)
        else _previously_playing (self s)).
Proof.
  intros s ps run.
  apply (pause_postcondition Sim.env None s (fst (fst run)) (snd (fst run)) (snd run) ps).
  - vm_compute. reflexivity.
  - vm_compute. reflexivity.
Defined.

(** X9, for the first cover of [Sim.gallery]. *)
Lemma download_file_outcome_witness :
  let s := Sim.boot Sim.gallery in
  let run := download_file Sim.env (Sim.url 0) "/data/cache" None s in
  fst (fst run) = Ok (Some "/data/cache/0.png")
  /\ self (snd (fst run)) = self s /\ web_cache (snd (fst run)) = web_cache s
  /\ match fst (http_get Sim.env (world s) (Sim.url 0)) with
     | None => fst (fst run) = Ok None /\ snd run = [EHttpGet (Sim.url 0) None]
     | Some resp =>
         match content_type resp with
         | None => fst (fst run) = Raise KeyError
                   /\ snd run = [EHttpGet (Sim.url 0) (Some resp)]
         | Some header =>
             match py_split_all "/" header with
             | [_; ext] =>
                 exists tail,
                   snd run = EHttpGet (Sim.url 0) (Some resp) :: tail
                   /\ match fst (fst run) with
                      | Ok (Some p) =>
                          p = download_target Sim.env (Sim.url 0) "/data/cache" None ext
                          /\ exists data,
                               content resp = Some data
                               /\ tail = makedirs_events p
                                         ++ [EOpen p true; EWrite p data true]
                      | Ok None => False
                      | Raise x =>
                          (x = OSError
                           /\ exists ev, last tail = Some ev /\ failed_file_op ev)
                          \/ (x = RequestException
                              /\ content resp = None
                              /\ tail = makedirs_events
                                          (download_target Sim.env (Sim.url 0)
                                             "/data/cache" None ext)
                                        ++ [EOpen (download_target Sim.env (Sim.url 0)
                                                     "/data/cache" None ext)
                                                  true])
                      end
             | _ => fst (fst run) = Raise ValueError
                    /\ snd run = [EHttpGet (Sim.url 0) (Some resp)]
             end
         end
     end.
Proof.
  intros s run. split; [vm_compute; reflexivity|].
  apply (download_file_outcome Sim.env (Sim.url 0) "/data/cache" None s
           (fst (fst run)) (snd (fst run)) (snd run)).
  vm_compute. reflexivity.
Defined.

(** X10, for the first cover of [Sim.gallery] and an empty cache. *)
Lemma web_cache_stays_well_formed_witness :
  let s := Sim.boot Sim.gallery in
  let run := get_web_thumnail Sim.env (Sim.url 0) s in
  NoDup (cache_keys (web_cache (snd (fst run))))
  /\ length (web_cache (snd (fst run))) <= lru_maxsize
  /\ match fst (fst run) with
     | Ok result => exists rest, web_cache (snd (fst run)) = (Sim.url 0, result) :: rest
     | Raise _ => web_cache (snd (fst run)) = web_cache s
     end
  /\ forall stored, cache_lookup (Sim.url 0) (web_cache s) = Some stored ->
       fst (fst run) = Ok stored /\ snd run = [] /\ world (snd (fst run)) = world s.
Proof.
  intros s run.
  apply (web_cache_stays_well_formed Sim.env (Sim.url 0) s
           (fst (fst run)) (snd (fst run)) (snd run)).
  - vm_compute. reflexivity.
  - vm_compute. constructor.
  - vm_compute. lia.
Defined.

(** X11, for a cover the server of [Sim.gallery] does not have: the
    failure is what the cache answers the second time. *)
Lemma repeated_resolution_is_cached_witness :
  let s := Sim.boot Sim.gallery in
  let run := get_web_thumnail Sim.env "https://covers.example/none.jpg" s in
  exists s'',
    get_web_thumnail Sim.env "https://covers.example/none.jpg" (snd (fst run))
    = (Ok None, s'', [])
    /\ world s'' = world (snd (fst run))
    /\ self s'' = self (snd (fst run)).
Proof.
  intros s run.
  apply (repeated_resolution_is_cached Sim.env "https://covers.example/none.jpg" s None
           (snd (fst run)) (snd run)).
  vm_compute. reflexivity.
Defined.

(** X12, for the player of [Sim.https_art]. *)
Lemma thumbnail_body_effects_witness :
  let s := Sim.boot Sim.https_art in
  let run := thumbnail_body Sim.env Sim.proxy_a s in
  calls_of (snd run) = []
  /\ self (snd (fst run)) = self s
  /\ (downloads_of (snd run) = [] /\ world (snd (fst run)) = world s
      \/ exists md url,
           get_metadata Sim.env (world s) (bus_name Sim.proxy_a) = Some md
           /\ mpris_artUrl md = Some url
           /\ startswith url "https" = true
           /\ downloads_of (snd run) = [url]).
Proof.
  intros s run.
  apply (thumbnail_body_effects Sim.env Sim.proxy_a s
           (fst (fst run)) (snd (fst run)) (snd run)).
  vm_compute. reflexivity.
Defined.

(** X13, for the player of [Sim.inline_art]: the payload "aGk=" is the
    two bytes of "hi". *)
Lemma data_uri_artwork_witness :
  let s := Sim.boot Sim.inline_art in
  thumbnail_body Sim.env Sim.proxy_a s
  = (Ok (TBytesIO 0 [Byte.x68; Byte.x69]),
     {| self := self s; web_cache := web_cache s; next_addr := 1; world := world s |},
     [EGetMetadata ":1.1" (Some (Sim.with_art "data:image/png;base64,aGk="))]).
Proof.
  intros s.
  rewrite (data_uri_artwork Sim.env Sim.proxy_a s
             (Sim.with_art "data:image/png;base64,aGk=") "data:image/png;base64,aGk=").
  - vm_compute. reflexivity.
  - vm_compute. reflexivity.
  - reflexivity.
  - reflexivity.
Defined.

(** X14, for the player of [Sim.file_art]. *)
Lemma file_uri_artwork_is_the_bare_path_witness :
  let s := Sim.boot Sim.file_art in
  thumbnail_body Sim.env Sim.proxy_a s
  = (Ok (TPath "/x/y.png"), s,
     [EGetMetadata ":1.1" (Some (Sim.with_art "file:///x/y.png"))]).
Proof.
  intros s.
  apply (file_uri_artwork_is_the_bare_path Sim.env Sim.proxy_a s
           (Sim.with_art "file:///x/y.png") "/x/y.png").
  - vm_compute. reflexivity.
  - reflexivity.
  - vm_compute. reflexivity.
Defined.

(** X15, on the statuses of two players that agree. *)
Lemma compress_list_result_witness :
  let l := [Some "Playing"; Some "Playing"] in
  let l' := [Some "Playing"] in
  l' <> []
  /\ compress_list l' = Some l'
  /\ (forall x : option string, x ∈ l' <-> x ∈ l)
  /\ length l' <= length l
  /\ forall v, l' = [v] <-> l <> [] /\ Forall (fun y => y = v) l.
Proof.
  intros l l'. apply (compress_list_result l l'). vm_compute. reflexivity.
Defined.

(** X17, on the bus of [Sim.malformed_art]: [status] returns after a
    [thumbnail] that raised and a [pause]. *)
Lemma assigned_registry_never_raises_witness :
  let s := Sim.boot Sim.malformed_art in
  let ops := [OpThumbnail None; OpPause None] in
  fst (fst (run_op Sim.env (OpThumbnail None) s)) = Raise ValueError
  /\ is_Some (mpris_players (self (after Sim.env ops s)))
  /\ is_ok (fst (fst (run_op Sim.env (OpStatus None) (after Sim.env ops s)))) = true.
Proof.
  intros s ops. split; [vm_compute; reflexivity|].
  apply (assigned_registry_never_raises Sim.env ops (OpStatus None) s).
  - vm_compute. eexists. reflexivity.
  - intros f. discriminate.
Defined.

(** X18, for [pause] where there is no session bus. *)
Lemma unassigned_registry_raises_witness :
  let s := Sim.boot Sim.no_bus in
  let run := run_op Sim.env (OpPause None) s in
  snd (fst run) = s /\ fst (fst run) = Raise AttributeError.
Proof.
  intros s run.
  apply (unassigned_registry_raises Sim.env (OpPause None) s
           (fst (fst run)) (snd (fst run)) (snd run)).
  - vm_compute. reflexivity.
  - vm_compute. reflexivity.
Defined.


(** X19, on the bus of [Sim.three_players]. *)
Lemma play_resumes_what_pause_found_witness :
  let s := Sim.boot Sim.three_players in
  let ps := [Sim.proxy_a; Sim.proxy_b; Sim.proxy_c] in
  let run1 := pause Sim.env None s in
  let run2 := play Sim.env None (snd (fst run1)) in
  calls_of (snd run2) = [(":1.1", Play); (":1.3", Play)]
  /\ _previously_playing (self (snd (fst run1))) = playing_in (snd run1)
  /\ calls_of (snd run2)
     = map (fun b => (b, Play))
           (List.filter (fun b => bool_decide (b ∈ playing_in (snd run1)))
                        (map bus_name
                             (List.filter (answers Sim.env None (world (snd (fst run1))))
                                          ps)))
  /\ _previously_playing (self (snd (fst run2))) = ∅.
Proof.
  intros s ps run1 run2. split; [vm_compute; reflexivity|].
  apply (play_resumes_what_pause_found Sim.env None s
           (fst (fst run1)) (snd (fst run1)) (snd run1)
           (fst (fst run2)) (snd (fst run2)) (snd run2) ps).
  - vm_compute. reflexivity.
  - vm_compute. discriminate.
  - vm_compute. reflexivity.
  - vm_compute. reflexivity.
Defined.
